(** * slide-redact: the region store, the zoom state and the raster effects

    A shallow embedding of the interactive redaction engine:
    - [JS]: the part of JavaScript's [number] arithmetic the engine uses;
    - [UseRegions]: the region collection with its undo/redo stacks
      (hooks/useRegions);
    - [UseCanvasRenderer]: the zoom state of the canvas renderer
      (hooks/useCanvasRenderer);
    - [ImageProcessor]: pixelation, solid fill, the export loop and the
      preview loop (core/image-processor);
    - [RegionSelector], [ImageEditor]: the pointer mapping, the end of a
      drag and the editor's handlers that call the region store
      (taskpane/RegionSelector, taskpane/ImageEditor);
    - [ImageLoader]: data URLs (utils/image-loader);
    - [MediaCleaner]: the removal of orphaned media from the archive
      (core/media-cleaner).

    Numbers.  A JavaScript [number] is a binary64 float.  It is modelled as an
    exact rational or one of the three special values [+Infinity],
    [-Infinity], [NaN].  Rounding and overflow of finite arithmetic and the
    sign of zero are not modelled: every finite operation is exact.  The
    statements proved on this model either hold of binary64 as well (every
    value they compute is a whole number far below 2^53 or a multiple of
    0.5, or they speak of what survives rounding), or say that they hold in
    exact arithmetic.  Where rounding or overflow decides a claim,
    [Binary64] embeds [addRegion] again on binary64 numbers. *)

From Stdlib Require Import ZArith QArith Qround Qabs Qminmax Qpower Lia Lqa List String Bool.
From Stdlib Require Floats.
From stdpp Require Import base list.

Local Open Scope Z_scope.

(* ===================================================================== *)
(** * JavaScript numbers                                                  *)
(* ===================================================================== *)

Module JS.

Inductive number : Type :=
| Fin (q : Q)
| PosInf
| NegInf
| NaN.

Definition Qltb (a b : Q) : bool := negb (Qle_bool b a).

Definition ofZ (z : Z) : number := Fin (inject_Z z).

(** [a < b]: false as soon as one side is [NaN]. *)
Definition lt (a b : number) : bool :=
  match a, b with
  | NaN, _ | _, NaN => false
  | Fin p, Fin q => Qltb p q
  | NegInf, NegInf => false
  | NegInf, _ => true
  | _, NegInf => false
  | PosInf, _ => false
  | Fin _, PosInf => true
  end.

(** [a <= b]. *)
Definition le (a b : number) : bool :=
  match a, b with
  | NaN, _ | _, NaN => false
  | Fin p, Fin q => Qle_bool p q
  | NegInf, _ => true
  | _, PosInf => true
  | _, NegInf => false
  | PosInf, Fin _ => false
  end.

Definition neg (a : number) : number :=
  match a with
  | Fin q => Fin (- q)
  | PosInf => NegInf
  | NegInf => PosInf
  | NaN => NaN
  end.

(** [a + b]. *)
Definition add (a b : number) : number :=
  match a, b with
  | NaN, _ | _, NaN => NaN
  | Fin p, Fin q => Fin (p + q)
  | PosInf, NegInf | NegInf, PosInf => NaN
  | PosInf, _ | _, PosInf => PosInf
  | NegInf, _ | _, NegInf => NegInf
  end.

(** [a - b]. *)
Definition sub (a b : number) : number := add a (neg b).

(** The sign of a product or quotient with an infinite operand. *)
Definition signed_inf (positive : bool) : number :=
  if positive then PosInf else NegInf.

(** [a * b]. *)
Definition mul (a b : number) : number :=
  match a, b with
  | NaN, _ | _, NaN => NaN
  | Fin p, Fin q => Fin (p * q)
  | Fin p, PosInf | PosInf, Fin p =>
      if Qeq_bool p 0 then NaN else signed_inf (Qltb 0 p)
  | Fin p, NegInf | NegInf, Fin p =>
      if Qeq_bool p 0 then NaN else signed_inf (Qltb p 0)
  | PosInf, PosInf | NegInf, NegInf => PosInf
  | PosInf, NegInf | NegInf, PosInf => NegInf
  end.

(** [a / b] (a zero divisor is taken as [+0]). *)
Definition div (a b : number) : number :=
  match a, b with
  | NaN, _ | _, NaN => NaN
  | Fin p, Fin q =>
      if Qeq_bool q 0
      then (if Qeq_bool p 0 then NaN else signed_inf (Qltb 0 p))
      else Fin (p / q)
  | Fin _, (PosInf | NegInf) => Fin 0
  | PosInf, Fin q => signed_inf (Qle_bool 0 q)
  | NegInf, Fin q => signed_inf (Qltb q 0)
  | (PosInf | NegInf), (PosInf | NegInf) => NaN
  end.

(** [Math.abs]. *)
Definition Math_abs (a : number) : number :=
  match a with
  | Fin q => Fin (Qabs q)
  | PosInf | NegInf => PosInf
  | NaN => NaN
  end.

(** [Math.min(a, b)]: [NaN] as soon as one argument is. *)
Definition Math_min (a b : number) : number :=
  match a, b with
  | NaN, _ | _, NaN => NaN
  | _, _ => if lt b a then b else a
  end.

(** [Math.max(a, b)]. *)
Definition Math_max (a b : number) : number :=
  match a, b with
  | NaN, _ | _, NaN => NaN
  | _, _ => if lt a b then b else a
  end.

(** [Math.round]: the nearest integer, a tie going up. *)
Definition Math_round (a : number) : number :=
  match a with
  | Fin q => ofZ (Qfloor (q + (1 # 2)))
  | other => other
  end.

Definition isFinite (a : number) : bool :=
  match a with Fin _ => true | _ => false end.

(** The integer a number denotes, when it is a finite integer. *)
Definition to_integer (a : number) : option Z :=
  match a with
  | Fin q => if Qeq_bool q (inject_Z (Qfloor q)) then Some (Qfloor q) else None
  | _ => None
  end.

(** Truncation toward zero. *)
Definition Qtrunc (q : Q) : Z :=
  if Qle_bool 0 q then Qfloor q else Qceiling q.

(** Web IDL's conversion of an argument to [long] (ECMAScript ToInt32):
    non-finite values give 0, finite ones are truncated and wrapped to
    32 bits. *)
Definition ToInt32 (a : number) : Z :=
  match a with
  | Fin q =>
      let m := (Qtrunc q) mod 4294967296 in
      if m <? 2147483648 then m else m - 4294967296
  | _ => 0
  end.

(** The conversion of a value stored into a [Uint8ClampedArray]: [NaN]
    becomes 0, the value is clamped to 0..255 and rounded to the nearest
    integer, a tie going to the even one. *)
Definition ToUint8Clamp (a : number) : Z :=
  match a with
  | NaN => 0
  | NegInf => 0
  | PosInf => 255
  | Fin q =>
      if Qle_bool q 0 then 0
      else if Qle_bool 255 q then 255
      else
        let f := Qfloor q in
        let half := (inject_Z f + (1 # 2))%Q in
        if Qltb q half then f
        else if Qltb half q then f + 1
        else if Z.even f then f else f + 1
  end.

End JS.

Import JS.

Declare Scope js_scope.
Delimit Scope js_scope with js.
Bind Scope js_scope with number.
Notation "a <? b" := (JS.lt a b) : js_scope.
Notation "a <=? b" := (JS.le a b) : js_scope.
Notation "a + b" := (JS.add a b) : js_scope.
Notation "a - b" := (JS.sub a b) : js_scope.
Notation "a * b" := (JS.mul a b) : js_scope.
Notation "a / b" := (JS.div a b) : js_scope.

(* ===================================================================== *)
(** * types/editor                                                        *)
(* ===================================================================== *)

Inductive BlurMode : Type := pixelate | solid.

Record BlurRegion : Type := mkRegion {
  id : string;
  x : number;
  y : number;
  width : number;
  height : number;
  mode : BlurMode;
  blockSize : number;
  fillColor : string
}.

(* ===================================================================== *)
(** * hooks/useRegions                                                    *)
(* ===================================================================== *)

Module UseRegions.

(** When React runs the updater function passed to [setRegions]: at the call
    (it computes the next state eagerly when the component has no update
    pending), or while it renders the component next, after the function
    that called [setRegions] has returned (the queue its documentation
    describes).  The updaters of this hook write to the two stacks, so the
    moment matters where a function touches the stacks after it has called
    [setRegions]: only [clearRegions] does.  Each call on the hook is taken
    to be followed by a render before the next call, and an updater to run
    once. *)
Inductive UpdaterTiming : Type := AtCall | AtRender.

(** The hook's state: the [regions] array and the two snapshot stacks.  A
    stack is a JavaScript array: [push] appends at the end and [pop] takes
    the last element. *)
Record Store : Type := mkStore {
  regions : list BlurRegion;
  undoStack : list (list BlurRegion);
  redoStack : list (list BlurRegion)
}.

(** The hook's state at its first render. *)
Definition initialStore : Store := mkStore [] [] [].

Definition push {A} (s : list A) (v : A) : list A := s ++ [v].

Definition pop {A} (s : list A) : option (A * list A) :=
  match rev s with
  | [] => None
  | v :: r => Some (v, rev r)
  end.

(** Push current state onto undo stack before mutating; any new action
    clears the redo stack. *)
Definition pushUndo (st : Store) (current : list BlurRegion) : Store :=
  mkStore (regions st) (push (undoStack st) current) [].

(** [addRegion]; [newId] is what [generateId()] returns when it is called.
    The result is the new store and the returned id ([None] for the bare
    [return]). *)
Definition addRegion (st : Store) (newId : string)
    (x y width height : number) (mode : BlurMode) (blockSize : number)
    (fillColor : string) : Store * option string :=
  let nx := if (width <? Fin 0)%js then (x + width)%js else x in
  let ny := if (height <? Fin 0)%js then (y + height)%js else y in
  let nw := Math_abs width in
  let nh := Math_abs height in
  if ((nw <? Fin 2)%js || (nh <? Fin 2)%js)%bool then (st, None)
  else
    let region := mkRegion newId nx ny nw nh mode blockSize fillColor in
    let prev := regions st in
    let st1 := pushUndo st prev in
    (mkStore (prev ++ [region]) (undoStack st1) (redoStack st1), Some newId).

Definition removeRegion (st : Store) (rid : string) : Store :=
  let prev := regions st in
  let st1 := pushUndo st prev in
  mkStore (List.filter (fun r => negb (String.eqb (id r) rid)) prev)
          (undoStack st1) (redoStack st1).

(** [clearRegions]: the updater given to [setRegions], and the two
    assignments that empty the stacks, in the order [timing] makes them
    run. *)
Definition clearRegions (timing : UpdaterTiming) (st : Store) : Store :=
  let updater (s : Store) : Store :=
    let prev := regions s in
    let s1 := if (0 <? length prev)%nat then pushUndo s prev else s in
    mkStore [] (undoStack s1) (redoStack s1) in
  let reset (s : Store) : Store := mkStore (regions s) [] [] in
  match timing with
  | AtCall => reset (updater st)
  | AtRender => updater (reset st)
  end.

Definition undo (st : Store) : Store :=
  match pop (undoStack st) with
  | None => st
  | Some (prev, rest) =>
      mkStore prev rest (push (redoStack st) (regions st))
  end.

Definition redo (st : Store) : Store :=
  match pop (redoStack st) with
  | None => st
  | Some (next, rest) =>
      mkStore next (push (undoStack st) (regions st)) rest
  end.

Definition canUndo (st : Store) : bool := (0 <? length (undoStack st))%nat.
Definition canRedo (st : Store) : bool := (0 <? length (redoStack st))%nat.

(** One call on the hook's interface. *)
Inductive Op : Type :=
| OpAdd (newId : string) (x y width height : number) (mode : BlurMode)
        (blockSize : number) (fillColor : string)
| OpRemove (rid : string)
| OpClear (timing : UpdaterTiming)
| OpUndo
| OpRedo.

Definition step (st : Store) (o : Op) : Store :=
  match o with
  | OpAdd newId x y w h m bs c => fst (addRegion st newId x y w h m bs c)
  | OpRemove rid => removeRegion st rid
  | OpClear timing => clearRegions timing st
  | OpUndo => undo st
  | OpRedo => redo st
  end.

Definition run (ops : list Op) (st : Store) : Store := fold_left step ops st.

(** The add/remove/clear operations. *)
Definition mutation (o : Op) : bool :=
  match o with
  | OpAdd _ _ _ _ _ _ _ _ | OpRemove _ | OpClear _ => true
  | OpUndo | OpRedo => false
  end.

(** Call [undo] until [canUndo] is false; [None] when the fuel runs out
    first. *)
Fixpoint undoAll (fuel : nat) (st : Store) : option Store :=
  if canUndo st then
    match fuel with
    | O => None
    | S f => undoAll f (undo st)
    end
  else Some st.

(** Call [redo] until [canRedo] is false. *)
Fixpoint redoAll (fuel : nat) (st : Store) : option Store :=
  if canRedo st then
    match fuel with
    | O => None
    | S f => redoAll f (redo st)
    end
  else Some st.

(** The geometry of a region is finite. *)
Definition finiteGeometry (r : BlurRegion) : bool :=
  isFinite (x r) && isFinite (y r) && isFinite (width r) && isFinite (height r).

(** The data model's invariant on one region: finite geometry and
    [width * height > 0]. *)
Definition regionOk (r : BlurRegion) : bool :=
  finiteGeometry r && (Fin 0 <? width r * height r)%js.

Definition notNaN (a : number) : bool :=
  match a with NaN => false | _ => true end.

(** What a call with finite arguments stores, whether or not the sums
    [x + width] and [y + height] round or overflow: a finite width and
    height of at least 2, so [width * height > 0], and a corner that is not
    [NaN]. *)
Definition regionSized (r : BlurRegion) : bool :=
  isFinite (width r) && isFinite (height r) &&
  (Fin 2 <=? width r)%js && (Fin 2 <=? height r)%js &&
  (Fin 0 <? width r * height r)%js &&
  notNaN (x r) && notNaN (y r).

(** Every region of the collection and of every snapshot is such a
    region. *)
Definition storeSized (st : Store) : Prop :=
  Forall (fun r => regionSized r = true) (regions st) /\
  Forall (Forall (fun r => regionSized r = true)) (undoStack st) /\
  Forall (Forall (fun r => regionSized r = true)) (redoStack st).

(** No [clearRegions] updater of the call ran at the next render. *)
Definition clearAtCall (o : Op) : bool :=
  match o with
  | OpClear AtRender => false
  | _ => true
  end.

(** The oldest snapshot, or the collection itself when there is none, is
    the empty collection. *)
Definition freshHistory (st : Store) : Prop :=
  hd (regions st) (undoStack st) = [].

(** The geometry passed to an [addRegion] call is finite. *)
Definition finiteCall (o : Op) : bool :=
  match o with
  | OpAdd _ x y w h _ _ _ => isFinite x && isFinite y && isFinite w && isFinite h
  | _ => true
  end.

(** The states the two stacks and the collection hold, oldest first: the
    snapshots that can be undone to, the collection, and the states that can
    be redone to (the next one first). *)
Definition timeline (st : Store) : list (list BlurRegion) :=
  undoStack st ++ [regions st] ++ rev (redoStack st).

(** The undo and redo calls. *)
Definition historyMove (o : Op) : bool :=
  match o with
  | OpUndo | OpRedo => true
  | _ => false
  end.

End UseRegions.

(* ===================================================================== *)
(** * hooks/useRegions on binary64 numbers                                *)
(* ===================================================================== *)

(** [addRegion] once more, on the numbers JavaScript computes with: binary64
    floating point, here Rocq's primitive floats (IEEE 754, round to
    nearest, ties to even).  [+], [<] and [Math.abs] are the primitive
    operations. *)
Module Binary64.

Import PrimFloat SpecFloat FloatOps.

Record Region : Type := mkRegion {
  id : string;
  x : float;
  y : float;
  width : float;
  height : float;
  mode : BlurMode;
  blockSize : float;
  fillColor : string
}.

Record Store : Type := mkStore {
  regions : list Region;
  undoStack : list (list Region);
  redoStack : list (list Region)
}.

Definition initialStore : Store := mkStore [] [] [].

(** Push current state onto undo stack before mutating; any new action
    clears the redo stack. *)
Definition pushUndo (st : Store) (current : list Region) : Store :=
  mkStore (regions st) (UseRegions.push (undoStack st) current) [].

(** [addRegion], as in [UseRegions]: [newId] is what [generateId()]
    returns, the result is the new store and the returned id. *)
Definition addRegion (st : Store) (newId : string)
    (x y width height : float) (mode : BlurMode) (blockSize : float)
    (fillColor : string) : Store * option string :=
  let nx := if (width <? 0)%float then (x + width)%float else x in
  let ny := if (height <? 0)%float then (y + height)%float else y in
  let nw := abs width in
  let nh := abs height in
  if ((nw <? 2)%float || (nh <? 2)%float)%bool then (st, None)
  else
    let region := mkRegion newId nx ny nw nh mode blockSize fillColor in
    let prev := regions st in
    let st1 := pushUndo st prev in
    (mkStore (prev ++ [region]) (undoStack st1) (redoStack st1), Some newId).

(** The rational number a finite binary64 number is; [None] for the
    infinities and [NaN]. *)
Definition value (f : float) : option Q :=
  match Prim2SF f with
  | S754_zero _ => Some 0%Q
  | S754_finite s m e => Some (inject_Z (cond_Zopp s (Zpos m)) * 2 ^ e)%Q
  | _ => None
  end.

(** [f] is finite and its value is [q]. *)
Definition hasValue (f : float) (q : Q) : Prop :=
  match value f with
  | Some v => (v == q)%Q
  | None => False
  end.

End Binary64.

(* ===================================================================== *)
(** * hooks/useCanvasRenderer: the zoom state                             *)
(* ===================================================================== *)

Module UseCanvasRenderer.

Record ZoomAnchor : Type := mkZoomAnchor {
  containerX : number;
  containerY : number;
  fractionX : number;
  fractionY : number
}.

(** What [zoomAt] reads of the scroll container: its bounding rectangle's
    corner and its scroll geometry. *)
Record Container : Type := mkContainer {
  rectLeft : number;
  rectTop : number;
  scrollWidth : number;
  scrollHeight : number;
  scrollLeft : number;
  scrollTop : number
}.

Record ZoomState : Type := mkZoomState {
  zoom : number;
  zoomAnchorRef : option ZoomAnchor
}.

(** [useState(1)], [useRef(null)]. *)
Definition initialZoom : ZoomState := mkZoomState (Fin 1) None.

(** [zoomAt]; [container] is [containerRef.current]. *)
Definition zoomAt (st : ZoomState) (container : option Container)
    (newZoom clientX clientY : number) : ZoomState :=
  match container with
  | None => st
  | Some c =>
      let containerX := (clientX - rectLeft c)%js in
      let containerY := (clientY - rectTop c)%js in
      let canvasW := scrollWidth c in
      let canvasH := scrollHeight c in
      let absX := (scrollLeft c + containerX)%js in
      let absY := (scrollTop c + containerY)%js in
      let anchor :=
        mkZoomAnchor containerX containerY
          (if (Fin 0 <? canvasW)%js then (absX / canvasW)%js else Fin 0)
          (if (Fin 0 <? canvasH)%js then (absY / canvasH)%js else Fin 0) in
      mkZoomState (Math_min (Fin 5) (Math_max (Fin (1 # 2)) newZoom))
                  (Some anchor)
  end.

Definition zoomIn (st : ZoomState) : ZoomState :=
  mkZoomState (Math_min (zoom st + Fin (1 # 2))%js (Fin 5)) (zoomAnchorRef st).

Definition zoomOut (st : ZoomState) : ZoomState :=
  mkZoomState (Math_max (zoom st - Fin (1 # 2))%js (Fin (1 # 2)))
              (zoomAnchorRef st).

Definition zoomReset (st : ZoomState) : ZoomState :=
  mkZoomState (Fin 1) (zoomAnchorRef st).

Inductive ZoomOp : Type :=
| ZoomAt (container : option Container) (newZoom clientX clientY : number)
| ZoomIn
| ZoomOut
| ZoomReset.

Definition zoomStep (st : ZoomState) (o : ZoomOp) : ZoomState :=
  match o with
  | ZoomAt c z cx cy => zoomAt st c z cx cy
  | ZoomIn => zoomIn st
  | ZoomOut => zoomOut st
  | ZoomReset => zoomReset st
  end.

Definition zoomRun (ops : list ZoomOp) (st : ZoomState) : ZoomState :=
  fold_left zoomStep ops st.

(** [0.5 <= z && z <= 5]. *)
Definition zoomInBounds (z : number) : bool :=
  (Fin (1 # 2) <=? z)%js && (z <=? Fin 5)%js.

(** The target of a [zoomAt] call is not [NaN]. *)
Definition targetNotNaN (o : ZoomOp) : bool :=
  match o with
  | ZoomAt _ NaN _ _ => false
  | _ => true
  end.

(** What the resize effect reads: [container.clientWidth] and the natural
    size of the image. *)
Record ResizeEnv : Type := mkResizeEnv {
  clientWidth : number;
  naturalWidth : number;
  naturalHeight : number
}.

(** What the resize effect sets: the canvas size and, when an anchor is
    pending, the scroll position of the container. *)
Record Resized : Type := mkResized {
  displayWidth : number;
  displayHeight : number;
  scrollLeftSet : option number;
  scrollTopSet : option number
}.

(** The effect that resizes the canvas when the zoom or the image changes;
    [env] is [None] when the image size, the canvas, the image or the
    container is missing (the effect returns at once). *)
Definition resizeEffect (st : ZoomState) (env : option ResizeEnv)
  : ZoomState * option Resized :=
  match env with
  | None => (st, None)
  | Some e =>
      let baseWidth := clientWidth e in
      let aspect := (naturalWidth e / naturalHeight e)%js in
      let displayWidth := Math_round (baseWidth * zoom st)%js in
      let displayHeight := Math_round (displayWidth / aspect)%js in
      match zoomAnchorRef st with
      | Some anchor =>
          (mkZoomState (zoom st) None,
           Some (mkResized displayWidth displayHeight
                   (Some (fractionX anchor * displayWidth - containerX anchor)%js)
                   (Some (fractionY anchor * displayHeight - containerY anchor)%js)))
      | None =>
          (st, Some (mkResized displayWidth displayHeight None None))
      end
  end.

(** [Object.is] on two numbers (the model has one zero). *)
Definition sameValue (a b : number) : bool :=
  match a, b with
  | Fin p, Fin q => Qeq_bool p q
  | PosInf, PosInf | NegInf, NegInf | NaN, NaN => true
  | _, _ => false
  end.

(** The resize effect as React runs it after a zoom call.  Its dependencies
    are [imageSize], [zoom] and [render]; [render] never changes, so with
    the image unchanged the effect runs only when the zoom is another value
    than at the render before ([zoomBefore]). *)
Definition resizeAfterZoom (zoomBefore : number) (st : ZoomState)
    (env : option ResizeEnv) : ZoomState * option Resized :=
  if sameValue zoomBefore (zoom st) then (st, None) else resizeEffect st env.

End UseCanvasRenderer.

(* ===================================================================== *)
(** * core/image-processor                                                *)
(* ===================================================================== *)

Module ImageProcessor.

Record Color : Type := mkColor { red : Z; green : Z; blue : Z; alpha : Z }.

Definition channel (c : Z) (col : Color) : Z :=
  if c =? 0 then red col
  else if c =? 1 then green col
  else if c =? 2 then blue col
  else alpha col.

(** A 2D context with its canvas: the canvas size, the bitmap (RGBA bytes,
    row by row) and the current fill style.  The bitmap is taken to hold
    exactly the bytes [getImageData] returns and [putImageData] stores. *)
Record Context : Type := mkContext {
  canvasWidth : Z;
  canvasHeight : Z;
  bitmap : list Z;
  fillStyle : Color
}.

Record ImageData : Type := mkImageData {
  imageWidth : Z;
  imageHeight : Z;
  data : list Z
}.

(** Channel [c] of the canvas pixel at column [px], row [py]; transparent
    black outside the canvas. *)
Definition getPixel (ctx : Context) (px py c : Z) : Z :=
  if (0 <=? px) && (px <? canvasWidth ctx) && (0 <=? py) && (py <? canvasHeight ctx)
  then default 0 (bitmap ctx !! Z.to_nat ((py * canvasWidth ctx + px) * 4 + c))
  else 0.

(** [ctx.getImageData(sx, sy, sw, sh)]; [None] is the [IndexSizeError] it
    throws for a zero width or height. *)
Definition getImageData (ctx : Context) (sx sy sw sh : number) : option ImageData :=
  let sx := ToInt32 sx in
  let sy := ToInt32 sy in
  let sw := ToInt32 sw in
  let sh := ToInt32 sh in
  if (sw =? 0) || (sh =? 0) then None
  else
    let '(sx, sw) := if sw <? 0 then (sx + sw, - sw) else (sx, sw) in
    let '(sy, sh) := if sh <? 0 then (sy + sh, - sh) else (sy, sh) in
    Some (mkImageData sw sh
            (map (fun k => getPixel ctx (sx + (k / 4) mod sw) (sy + (k / 4) / sw) (k mod 4))
                 (seqZ 0 (4 * sw * sh)))).

(** [f k v] for every element [v] of the list, [k] its index counted from
    [start]. *)
Fixpoint mapi (f : Z -> Z -> Z) (start : Z) (l : list Z) : list Z :=
  match l with
  | [] => []
  | v :: rest => f start v :: mapi f (start + 1) rest
  end.

(** [ctx.putImageData(imageData, dx, dy)]: every pixel of the image data
    that falls on the canvas replaces the canvas pixel there. *)
Definition putImageData (ctx : Context) (img : ImageData) (dx dy : number) : Context :=
  let dx := ToInt32 dx in
  let dy := ToInt32 dy in
  let W := canvasWidth ctx in
  mkContext W (canvasHeight ctx)
    (mapi (fun k v =>
             let i := (k / 4) mod W in
             let j := (k / 4) / W in
             if (dx <=? i) && (i <? dx + imageWidth img) && (dy <=? j) && (j <? dy + imageHeight img)
             then default v (data img !! Z.to_nat (((j - dy) * imageWidth img + (i - dx)) * 4 + k mod 4))
             else v)
          0 (bitmap ctx))
    (fillStyle ctx).

(** [for (let v = start; v < bound; v += step) body]; [None] when the fuel
    runs out before the loop condition fails. *)
Fixpoint for_lt {S : Type} (fuel : nat) (v bound step : number)
    (body : number -> S -> option S) (s : S) : option S :=
  match fuel with
  | O => None
  | Datatypes.S f =>
      if (v <? bound)%js then
        match body v s with
        | Some s' => for_lt f (v + step)%js bound step body s'
        | None => None
        end
      else Some s
  end.

(** [data[i]] as an operand of [+=]: [undefined] (no such element) adds as
    [NaN]. *)
Definition rd (data : list Z) (i : number) : number :=
  match to_integer i with
  | Some k =>
      if 0 <=? k then
        match data !! Z.to_nat k with
        | Some v => ofZ v
        | None => NaN
        end
      else NaN
  | None => NaN
  end.

(** [data[i] = v] on a [Uint8ClampedArray]: ignored when [i] is no index of
    the array. *)
Definition wr (data : list Z) (i v : number) : list Z :=
  match to_integer i with
  | Some k => if 0 <=? k then <[Z.to_nat k := ToUint8Clamp v]> data else data
  | None => data
  end.

(** The accumulators [r, g, b, a, count]. *)
Record Sums : Type := mkSums { sr : number; sg : number; sb : number; sa : number; count : number }.

(** Sum all pixels in block. *)
Definition sumBlock (fuel : nat) (data : list Z) (cw blockX blockY bw bh : number)
  : option Sums :=
  for_lt fuel blockY (blockY + bh)%js (Fin 1)
    (fun py acc =>
       for_lt fuel blockX (blockX + bw)%js (Fin 1)
         (fun px acc =>
            let i := ((py * cw + px) * Fin 4)%js in
            Some (mkSums (sr acc + rd data i)%js
                         (sg acc + rd data (i + Fin 1))%js
                         (sb acc + rd data (i + Fin 2))%js
                         (sa acc + rd data (i + Fin 3))%js
                         (count acc + Fin 1)%js))
         acc)
    (mkSums (Fin 0) (Fin 0) (Fin 0) (Fin 0) (Fin 0)).

(** Fill block with average. *)
Definition fillBlock (fuel : nat) (data : list Z) (cw blockX blockY bw bh : number)
    (avgR avgG avgB avgA : number) : option (list Z) :=
  for_lt fuel blockY (blockY + bh)%js (Fin 1)
    (fun py data =>
       for_lt fuel blockX (blockX + bw)%js (Fin 1)
         (fun px data =>
            let i := ((py * cw + px) * Fin 4)%js in
            let data := wr data i avgR in
            let data := wr data (i + Fin 1)%js avgG in
            let data := wr data (i + Fin 2)%js avgB in
            let data := wr data (i + Fin 3)%js avgA in
            Some data)
         data)
    data.

(** The body of the two block loops. *)
Definition pixelateBlock (fuel : nat) (cw ch blockSize blockX blockY : number)
    (data : list Z) : option (list Z) :=
  let bw := Math_min blockSize (cw - blockX)%js in
  let bh := Math_min blockSize (ch - blockY)%js in
  match sumBlock fuel data cw blockX blockY bw bh with
  | None => None
  | Some s =>
      let avgR := Math_round (sr s / count s)%js in
      let avgG := Math_round (sg s / count s)%js in
      let avgB := Math_round (sb s / count s)%js in
      let avgA := Math_round (sa s / count s)%js in
      fillBlock fuel data cw blockX blockY bw bh avgR avgG avgB avgA
  end.

(** The block loops of [applyPixelation] over the image data. *)
Definition pixelateData (fuel : nat) (cw ch blockSize : number) (data : list Z)
  : option (list Z) :=
  for_lt fuel (Fin 0) ch blockSize
    (fun blockY data =>
       for_lt fuel (Fin 0) cw blockSize
         (fun blockX data => pixelateBlock fuel cw ch blockSize blockX blockY data)
         data)
    data.

(** How a call ends: it returns, it throws, or the fuel runs out. *)
Inductive outcome (A : Type) : Type :=
| Ret (a : A)
| Throw
| OutOfFuel.
Arguments Ret {A} a.
Arguments Throw {A}.
Arguments OutOfFuel {A}.

(** Clamp to canvas bounds: [cx, cy, cw, ch]. *)
Definition clampToCanvas (ctx : Context) (region : BlurRegion)
  : number * number * number * number :=
  let cx := Math_max (Fin 0) (Math_round (x region)) in
  let cy := Math_max (Fin 0) (Math_round (y region)) in
  let cw := Math_min (Math_round (width region)) (ofZ (canvasWidth ctx) - cx)%js in
  let ch := Math_min (Math_round (height region)) (ofZ (canvasHeight ctx) - cy)%js in
  (cx, cy, cw, ch).

Definition applyPixelation (fuel : nat) (ctx : Context) (region : BlurRegion)
  : outcome Context :=
  let blockSize := blockSize region in
  let '(cx, cy, cw, ch) := clampToCanvas ctx region in
  if (cw <=? Fin 0)%js || (ch <=? Fin 0)%js then Ret ctx
  else
    match getImageData ctx cx cy cw ch with
    | None => Throw
    | Some imageData =>
        match pixelateData fuel cw ch blockSize (data imageData) with
        | None => OutOfFuel
        | Some data' =>
            Ret (putImageData ctx
                   (mkImageData (imageWidth imageData) (imageHeight imageData) data')
                   cx cy)
        end
    end.

Section SolidFill.

(** The browser's parser of CSS colours ([None]: not a colour) and its
    source-over compositing of a fill colour onto a pixel. *)
Variable parseColor : string -> option Color.
Variable sourceOver : Color -> Color -> Color.

(** [ctx.fillStyle = s]: ignored when [s] is not a colour. *)
Definition setFillStyle (ctx : Context) (s : string) : Context :=
  match parseColor s with
  | Some c => mkContext (canvasWidth ctx) (canvasHeight ctx) (bitmap ctx) c
  | None => ctx
  end.

(** The colour of the canvas pixel that holds bitmap index [k]. *)
Definition pixelColor (bm : list Z) (k : Z) : Color :=
  let p := Z.to_nat (k / 4 * 4) in
  mkColor (default 0 (bm !! p)) (default 0 (bm !! (p + 1)%nat))
          (default 0 (bm !! (p + 2)%nat)) (default 0 (bm !! (p + 3)%nat)).

(** [ctx.fillRect(x, y, w, h)]: nothing is drawn when an argument is not
    finite; a negative width or height flips the rectangle.  The arguments
    are whole numbers where it is called ([Math.round]), so no pixel is
    covered in part. *)
Definition fillRect (ctx : Context) (x y w h : number) : Context :=
  match x, y, w, h with
  | Fin qx, Fin qy, Fin qw, Fin qh =>
      let '(x0, w0) := if Qfloor qw <? 0 then (Qfloor qx + Qfloor qw, - Qfloor qw)
                       else (Qfloor qx, Qfloor qw) in
      let '(y0, h0) := if Qfloor qh <? 0 then (Qfloor qy + Qfloor qh, - Qfloor qh)
                       else (Qfloor qy, Qfloor qh) in
      let W := canvasWidth ctx in
      let bm := bitmap ctx in
      mkContext W (canvasHeight ctx)
        (mapi (fun k v =>
                 let i := (k / 4) mod W in
                 let j := (k / 4) / W in
                 if (x0 <=? i) && (i <? x0 + w0) && (y0 <=? j) && (j <? y0 + h0)
                 then channel (k mod 4) (sourceOver (fillStyle ctx) (pixelColor bm k))
                 else v)
              0 bm)
        (fillStyle ctx)
  | _, _, _, _ => ctx
  end.

Definition applySolidMask (ctx : Context) (region : BlurRegion) : Context :=
  let ctx := setFillStyle ctx (fillColor region) in
  fillRect ctx (Math_round (x region)) (Math_round (y region))
               (Math_round (width region)) (Math_round (height region)).

(** Apply each region, in the order of the array. *)
Fixpoint applyRegions (fuel : nat) (ctx : Context) (regions : list BlurRegion)
  : outcome Context :=
  match regions with
  | [] => Ret ctx
  | region :: rest =>
      let r := match mode region with
               | pixelate => applyPixelation fuel ctx region
               | solid => Ret (applySolidMask ctx region)
               end in
      match r with
      | Ret ctx' => applyRegions fuel ctx' rest
      | other => other
      end
  end.

(** [processImage], from the decoded image on: a canvas of the image's size
    holds the image ([drawImage]), then the regions are applied.  A fresh
    context fills with opaque black.  The result is the bitmap the PNG
    encodes. *)
Definition processImage (fuel : nat) (naturalWidth naturalHeight : Z)
    (img : list Z) (regions : list BlurRegion) : outcome (list Z) :=
  let ctx := mkContext naturalWidth naturalHeight img (mkColor 0 0 0 255) in
  match applyRegions fuel ctx regions with
  | Ret ctx' => Ret (bitmap ctx')
  | Throw => Throw
  | OutOfFuel => OutOfFuel
  end.

(** The region [renderPreview] applies in place of a committed region:
    scaled from the image to the canvas, its block size too, but never
    below 1. *)
Definition scaledRegion (region : BlurRegion) (scaleX scaleY : number) : BlurRegion :=
  mkRegion (id region)
    (x region / scaleX)%js (y region / scaleY)%js
    (width region / scaleX)%js (height region / scaleY)%js
    (mode region)
    (Math_max (Fin 1) (Math_round (blockSize region / scaleX)%js))
    (fillColor region).

(** The loop of [renderPreview] that applies the committed regions, on the
    canvas that holds the scaled image. *)
Fixpoint previewRegions (fuel : nat) (ctx : Context) (regions : list BlurRegion)
    (scaleX scaleY : number) : outcome Context :=
  match regions with
  | [] => Ret ctx
  | region :: rest =>
      let scaled := scaledRegion region scaleX scaleY in
      let r := match mode region with
               | pixelate => applyPixelation fuel ctx scaled
               | solid => Ret (applySolidMask ctx scaled)
               end in
      match r with
      | Ret ctx' => previewRegions fuel ctx' rest scaleX scaleY
      | other => other
      end
  end.

End SolidFill.

(** ** The loops unrolled, and the words of the specification *)

(** A loop body run on each element of a list in turn. *)
Fixpoint foldM {S A : Type} (body : A -> S -> option S) (l : list A) (s : S)
  : option S :=
  match l with
  | [] => Some s
  | a :: rest =>
      match body a s with
      | Some s' => foldM body rest s'
      | None => None
      end
  end.

(** The values [a, a + step, ...] below [b], at most [n] of them: what the
    counter of [for (v = a; v < b; v += step)] goes through. *)
Fixpoint upto (n : nat) (a b step : Z) : list Z :=
  match n with
  | O => []
  | Datatypes.S n' => if a <? b then a :: upto n' (a + step) b step else []
  end.

(** The counter values of a loop from [a] to [b]. *)
Definition counter (a b step : Z) : list Z := upto (Z.to_nat (b - a)) a b step.

(** The pixels [(px, py)] of the rectangle at [(bx, by)] of size
    [bw] x [bh], row by row. *)
Definition cells (bx by_ bw bh : Z) : list (Z * Z) :=
  flat_map (fun py => map (fun px => (px, py)) (seqZ bx bw)) (seqZ by_ bh).

(** The corners of the blocks the two block loops visit, in their order. *)
Definition corners (cw ch bs : Z) : list (Z * Z) :=
  flat_map (fun by_ => map (fun bx => (bx, by_)) (counter 0 cw bs)) (counter 0 ch bs).

(** Where channel [c] of pixel [p = (px, py)] lies in image data of width
    [cw]. *)
Definition offset (cw : Z) (p : Z * Z) (c : Z) : Z :=
  (snd p * cw + fst p) * 4 + c.

(** Channel [c] of pixel [p] in image data of width [cw]. *)
Definition sample (data : list Z) (cw : Z) (c : Z) (p : Z * Z) : Z :=
  default 0 (data !! Z.to_nat (offset cw p c)).

(** Pixel [p] lies in the [cw] x [ch] area. *)
Definition inArea (cw ch : Z) (p : Z * Z) : Prop :=
  0 <= fst p < cw /\ 0 <= snd p < ch.

Definition sumZ (l : list Z) : Z := fold_right Z.add 0 l.

(** The arithmetic mean of a list of values, rounded to the nearest
    integer (a tie goes up). *)
Definition roundedMean (values : list Z) : Z :=
  Qfloor (inject_Z (sumZ values) / inject_Z (Z.of_nat (length values)) + (1 # 2)).

(** The block of the partition that holds pixel [(px, py)] of a
    [cw] x [ch] area cut into [bs] x [bs] blocks from its corner: the
    block's corner and its size, clipped at the area's boundary. *)
Definition blockCorner (bs k : Z) : Z := k / bs * bs.
Definition blockExtent (bs limit k : Z) : Z := Z.min bs (limit - blockCorner bs k).
Definition blockOf (cw ch bs px py : Z) : list (Z * Z) :=
  cells (blockCorner bs px) (blockCorner bs py)
        (blockExtent bs cw px) (blockExtent bs ch py).

(** The corner of the block that holds pixel [q]. *)
Definition cornerOf (bs : Z) (q : Z * Z) : Z * Z :=
  (blockCorner bs (fst q), blockCorner bs (snd q)).

(** The value the specification gives channel [c] of pixel [q] of image
    data [orig]: the rounded mean of that channel over the pixels of its
    block. *)
Definition target (cw ch bs : Z) (orig : list Z) (q : Z * Z) (c : Z) : Z :=
  roundedMean (map (sample orig cw c) (blockOf cw ch bs (fst q) (snd q))).

(** In image data [d], the blocks with a corner in [done] hold their
    averages; every other pixel holds what it held in [orig]. *)
Definition blocksDone (cw ch bs : Z) (orig : list Z) (done : Z * Z -> Prop)
    (d : list Z) : Prop :=
  length d = length orig /\
  forall q c, inArea cw ch q -> 0 <= c < 4 ->
    (done (cornerOf bs q) ->
       d !! Z.to_nat (offset cw q c) = Some (target cw ch bs orig q c)) /\
    (~ done (cornerOf bs q) ->
       d !! Z.to_nat (offset cw q c) = orig !! Z.to_nat (offset cw q c)).

(** The sums the first pair of pixel loops leaves on a list of pixels,
    from the sums [r, g, b, a, n]. *)
Definition sumsOf (cw : Z) (data : list Z) (r g b a n : Z) (cs : list (Z * Z))
  : Sums :=
  mkSums (ofZ (r + sumZ (map (sample data cw 0) cs)))
         (ofZ (g + sumZ (map (sample data cw 1) cs)))
         (ofZ (b + sumZ (map (sample data cw 2) cs)))
         (ofZ (a + sumZ (map (sample data cw 3) cs)))
         (ofZ (n + Z.of_nat (length cs))).

(** The four stores of the second pair of pixel loops, for one pixel. *)
Definition fillPixel (cw : Z) (avgR avgG avgB avgA : number) (p : Z * Z)
    (d : list Z) : list Z :=
  let i := ((ofZ (snd p) * ofZ cw + ofZ (fst p)) * Fin 4)%js in
  wr (wr (wr (wr d i avgR) (i + Fin 1)%js avgG) (i + Fin 2)%js avgB)
     (i + Fin 3)%js avgA.

Definition average (c : Z) (avgR avgG avgB avgA : number) : number :=
  if c =? 0 then avgR else if c =? 1 then avgG else if c =? 2 then avgB else avgA.

(** The canvas is a well-formed bitmap: 4 bytes for each of its
    [canvasWidth] x [canvasHeight] pixels, and sizes a [long] holds. *)
Definition wfContext (ctx : Context) : Prop :=
  0 <= canvasWidth ctx < 2147483648 /\
  0 <= canvasHeight ctx < 2147483648 /\
  Z.of_nat (length (bitmap ctx)) = 4 * canvasWidth ctx * canvasHeight ctx /\
  Forall (fun v => 0 <= v <= 255) (bitmap ctx).

(** The same, as a test. *)
Definition wfContextb (ctx : Context) : bool :=
  (0 <=? canvasWidth ctx) && (canvasWidth ctx <? 2147483648) &&
  (0 <=? canvasHeight ctx) && (canvasHeight ctx <? 2147483648) &&
  (Z.of_nat (length (bitmap ctx)) =? 4 * canvasWidth ctx * canvasHeight ctx) &&
  forallb (fun v => (0 <=? v) && (v <=? 255)) (bitmap ctx).

(** A test image of [w] x [h] opaque pixels: red grows along a row, green
    down a column, blue along the diagonal. *)
Definition gradient (w h : Z) : list Z :=
  mapi (fun k _ =>
          let px := (k / 4) mod w in
          let py := (k / 4) / w in
          if k mod 4 =? 0 then (7 * px) mod 256
          else if k mod 4 =? 1 then (5 * py) mod 256
          else if k mod 4 =? 2 then (3 * (px + py)) mod 256
          else 255)
       0 (replicate (Z.to_nat (4 * w * h)) 0).

(** A fresh context on a canvas that holds the test image. *)
Definition gradientContext (w h : Z) : Context :=
  mkContext w h (gradient w h) (mkColor 0 0 0 255).

(** A colour parser that knows two colours, and a compositing that lets an
    opaque colour replace the pixel: stand-ins for the browser's in the
    examples. *)
Definition twoColours (s : string) : option Color :=
  if String.eqb s "#ff0000" then Some (mkColor 255 0 0 255)
  else if String.eqb s "#000000" then Some (mkColor 0 0 0 255)
  else None.

Definition opaqueReplaces (source pixel : Color) : Color :=
  if alpha source =? 255 then source else pixel.

(** A colour made of bytes. *)
Definition byteColour (col : Color) : Prop :=
  0 <= red col <= 255 /\ 0 <= green col <= 255 /\
  0 <= blue col <= 255 /\ 0 <= alpha col <= 255.

(** What export needs of a region to return: a pixelate region has finite
    geometry and a whole block size of at least 1 (the editor's slider gives
    whole sizes from 4 to 50); a solid region needs nothing. *)
Definition exportable (r : BlurRegion) : Prop :=
  mode r = solid \/
  (UseRegions.finiteGeometry r = true /\ exists bs, blockSize r = ofZ bs /\ 1 <= bs).

(** What the preview needs of a region to return: a pixelate region has
    finite geometry and a finite block size. *)
Definition previewable (r : BlurRegion) : Prop :=
  mode r = solid \/
  (UseRegions.finiteGeometry r = true /\ isFinite (blockSize r) = true).

End ImageProcessor.

(* ===================================================================== *)
(** * taskpane/RegionSelector                                             *)
(* ===================================================================== *)

Module RegionSelector.

(** What [getImageCoords] reads of the canvas: the size of its pixel buffer
    and its bounding rectangle on the screen. *)
Record Canvas : Type := mkCanvas {
  bufferWidth : Z;
  bufferHeight : Z;
  rectLeft : number;
  rectTop : number;
  rectWidth : number;
  rectHeight : number
}.

(** [getImageCoords]; [canvas] is [canvasRef.current]. *)
Definition getImageCoords (canvas : option Canvas) (imageWidth imageHeight : number)
    (clientX clientY : number) : number * number :=
  match canvas with
  | None => (Fin 0, Fin 0)
  | Some cv =>
      let canvasX := (clientX - rectLeft cv)%js in
      let canvasY := (clientY - rectTop cv)%js in
      let scaleToCanvas_X := (ofZ (bufferWidth cv) / rectWidth cv)%js in
      let scaleToCanvas_Y := (ofZ (bufferHeight cv) / rectHeight cv)%js in
      let pixelX := (canvasX * scaleToCanvas_X)%js in
      let pixelY := (canvasY * scaleToCanvas_Y)%js in
      let scaleX := (imageWidth / ofZ (bufferWidth cv))%js in
      let scaleY := (imageHeight / ofZ (bufferHeight cv))%js in
      ((pixelX * scaleX)%js, (pixelY * scaleY)%js)
  end.




End RegionSelector.

(* ===================================================================== *)
(** * taskpane/ImageEditor: the handlers that call the region store       *)
(* ===================================================================== *)

Module ImageEditor.

Import UseRegions.


(** [handleApplyFullImage]; [imageSize] is the natural size of the image,
    [None] while it is not loaded. *)
Definition handleApplyFullImage (st : Store) (newId : string)
    (imageSize : option (Z * Z)) (mode : BlurMode) (blockSize : number)
    (fillColor : string) : Store :=
  match imageSize with
  | None => st
  | Some (w, h) =>
      fst (addRegion st newId (Fin 0) (Fin 0) (ofZ w) (ofZ h) mode blockSize fillColor)
  end.

(** The Delete / Backspace branch of the keydown handler:
    [removeRegion(regions[regions.length - 1].id)] when there is a
    region. *)
Definition deleteKey (st : Store) : Store :=
  let regions := regions st in
  if (0 <? length regions)%nat then
    match regions !! (length regions - 1)%nat with
    | Some last => removeRegion st (id last)
    | None => st
    end
  else st.

End ImageEditor.

(* ===================================================================== *)
(** * utils/image-loader                                                  *)
(* ===================================================================== *)

Module ImageLoader.

Import Ascii.
Local Open Scope string_scope.

(** [s.indexOf(c)] for a one-character [c]: the first position of [c], or
    -1.  A string is taken as its sequence of characters. *)
Fixpoint indexOf (c : Ascii.ascii) (s : string) : Z :=
  match s with
  | EmptyString => (-1)%Z
  | String a rest =>
      if Ascii.eqb a c then 0%Z
      else let i := indexOf c rest in if (i <? 0)%Z then (-1)%Z else (i + 1)%Z
  end.

(** [s.slice(start)] for [0 <= start]. *)
Fixpoint slice (start : nat) (s : string) : string :=
  match start, s with
  | O, _ => s
  | S n, String _ rest => slice n rest
  | S _, EmptyString => EmptyString
  end.

(** The [src] that [loadImage] gives the image element. *)
Definition imageSrc (base64 : string) : string :=
  if String.prefix "data:" base64 then base64
  else "data:image/png;base64," ++ base64.

Definition base64ToDataUrl (base64 mimeType : string) : string :=
  if String.prefix "data:" base64 then base64
  else "data:" ++ mimeType ++ ";base64," ++ base64.

Definition stripDataUrlPrefix (dataUrl : string) : string :=
  let idx := indexOf ","%char dataUrl in
  if (0 <=? idx)%Z then slice (Z.to_nat (idx + 1)) dataUrl else dataUrl.

End ImageLoader.

(* ===================================================================== *)
(** * core/media-cleaner                                                  *)
(* ===================================================================== *)

Module MediaCleaner.

(** An entry of the archive: its full name, whether it is a folder, its
    content.  The archive keeps its entries in the order they were added,
    one per name. *)
Record ZipEntry : Type := mkZipEntry {
  name : string;
  dir : bool;
  content : string
}.

Definition Zip : Type := list ZipEntry.

(** [zip.file(/^ppt\/media\//)]: the files, not the folders, whose name
    starts with [ppt/media/]. *)
Definition mediaFiles (zip : Zip) : list ZipEntry :=
  List.filter (fun f => negb (dir f) && String.prefix "ppt/media/" (name f)) zip.

(** [zip.remove(n)] for the name of a file. *)
Definition remove (n : string) (zip : Zip) : Zip :=
  List.filter (fun f => negb (String.eqb (name f) n)) zip.

(** [set.has(n)]. *)
Definition has (set : list string) (n : string) : bool :=
  existsb (String.eqb n) set.

Record CleanupResult : Type := mkCleanupResult {
  orphanedFiles : list string;
  removedCount : Z;
  originalSize : Z;
  cleanedSize : Z
}.

Section Clean.

(** [getReferencedMedia]: the set of media names the [.rels] files of the
    archive refer to.  The results below hold whatever set it returns. *)
Variable getReferencedMedia : Zip -> list string.

(** The loop of [cleanOrphanedMedia] over the media files. *)
Fixpoint removeOrphans (referencedMedia : list string) (allMedia : list ZipEntry)
    (zip : Zip) (orphaned : list string) : Zip * list string :=
  match allMedia with
  | [] => (zip, orphaned)
  | file :: rest =>
      if negb (has referencedMedia (name file))
      then removeOrphans referencedMedia rest (remove (name file) zip)
                         (orphaned ++ [name file])
      else removeOrphans referencedMedia rest zip orphaned
  end.

Definition cleanOrphanedMedia (zip : Zip) : Zip * CleanupResult :=
  let referencedMedia := getReferencedMedia zip in
  let allMedia := mediaFiles zip in
  let '(zip', orphaned) := removeOrphans referencedMedia allMedia zip [] in
  (zip', mkCleanupResult orphaned (Z.of_nat (length orphaned)) 0 0).

End Clean.

(** An entry is a media file no reference names. *)
Definition orphan (referencedMedia : list string) (f : ZipEntry) : bool :=
  negb (dir f) && String.prefix "ppt/media/" (name f) &&
  negb (has referencedMedia (name f)).

End MediaCleaner.

(* ===================================================================== *)
(** * Facts on numbers                                                    *)
(* ===================================================================== *)

Import UseRegions.

Lemma Qltb_lt (a b : Q) : Qltb a b = true <-> (a < b)%Q.
Proof.
  unfold Qltb. rewrite negb_true_iff, <- not_true_iff_false, Qle_bool_iff.
  split; [apply Qnot_le_lt | apply Qlt_not_le].
Qed.

Lemma Qltb_ge (a b : Q) : Qltb a b = false <-> (b <= a)%Q.
Proof.
  unfold Qltb. rewrite negb_false_iff. apply Qle_bool_iff.
Qed.

Lemma isFinite_Fin (a : number) : isFinite a = true -> exists q, a = Fin q.
Proof. destruct a; simpl; intros H; try discriminate. now exists q. Qed.

(* ===================================================================== *)
(** * The region store                                                    *)
(* ===================================================================== *)

Lemma pop_push {A} (s : list A) (v : A) : pop (push s v) = Some (v, s).
Proof.
  unfold pop, push. rewrite rev_app_distr. simpl. now rewrite rev_involutive.
Qed.

Lemma pop_nil {A} : pop (@nil A) = None.
Proof. reflexivity. Qed.

Lemma clearRegions_AtCall (st : Store) : clearRegions AtCall st = initialStore.
Proof. reflexivity. Qed.

Lemma clearRegions_AtRender (st : Store) :
  clearRegions AtRender st =
  mkStore [] (if (0 <? length (regions st))%nat then [regions st] else []) [].
Proof. unfold clearRegions. simpl. now destruct (0 <? length (regions st))%nat. Qed.

(** What [addRegion] does with a call it accepts. *)
Lemma addRegion_accepted st newId x y w h m bs c :
  (Math_abs w <? Fin 2)%js = false ->
  (Math_abs h <? Fin 2)%js = false ->
  addRegion st newId x y w h m bs c =
    (mkStore (regions st ++
                [mkRegion newId
                   (if (w <? Fin 0)%js then (x + w)%js else x)
                   (if (h <? Fin 0)%js then (y + h)%js else y)
                   (Math_abs w) (Math_abs h) m bs c])
             (undoStack st ++ [regions st]) [],
     Some newId).
Proof.
  intros Hw Hh. unfold addRegion. now rewrite Hw, Hh.
Qed.

Lemma addRegion_rejected st newId x y w h m bs c :
  (Math_abs w <? Fin 2)%js || (Math_abs h <? Fin 2)%js = true ->
  addRegion st newId x y w h m bs c = (st, None).
Proof.
  intros H. unfold addRegion. now rewrite H.
Qed.

(** [clearRegions] after two [addRegion] calls from the initial store,
    under both orders: the collection is empty, the redo stack is empty and
    no snapshot older than the clear is left.  With the updater run at the
    call the undo stack is empty too, the hard reset the function sets out
    to do; with the updater run at the next render, the undo stack holds the
    collection as it was before the clear, if that was not empty. *)
Theorem clear_after_two_adds_resets_history timing
    idA xA yA wA hA mA bsA cA idB xB yB wB hB mB bsB cB :
  let stA := fst (addRegion initialStore idA xA yA wA hA mA bsA cA) in
  let stB := fst (addRegion stA idB xB yB wB hB mB bsB cB) in
  let st := clearRegions timing stB in
  regions st = [] /\ redoStack st = [] /\ canRedo st = false /\
  undoStack st =
    match timing with
    | AtCall => []
    | AtRender => if (0 <? length (regions stB))%nat then [regions stB] else []
    end /\
  canUndo st =
    match timing with
    | AtCall => false
    | AtRender => (0 <? length (regions stB))%nat
    end.
Proof.
  intros stA stB st. subst st. destruct timing.
  - rewrite clearRegions_AtCall. repeat split.
  - rewrite clearRegions_AtRender. simpl.
    destruct (0 <? length (regions stB))%nat; repeat split.
Qed.

(** C3, run.  Add A, add B, clear, with the updater of [clearRegions] run
    at the next render: [clearRegions] empties the two stacks right after it
    has called [setRegions], and only then does the updater push the
    collection [A, B] onto the undo stack.  The reset the function sets out
    to do is lost: the collection is empty, yet [canUndo] is true and one
    [undo] brings the two regions back. *)
Lemma clear_at_render_can_be_undone :
  let A := mkRegion "A" (Fin 0) (Fin 0) (Fin 10) (Fin 10) pixelate (Fin 10) "#000000" in
  let B := mkRegion "B" (Fin 5) (Fin 5) (Fin 20) (Fin 20) solid (Fin 10) "#ff0000" in
  let stA := fst (addRegion initialStore "A" (Fin 0) (Fin 0) (Fin 10) (Fin 10)
                    pixelate (Fin 10) "#000000") in
  let stB := fst (addRegion stA "B" (Fin 5) (Fin 5) (Fin 20) (Fin 20)
                    solid (Fin 10) "#ff0000") in
  let st := clearRegions AtRender stB in
  regions stB = [A; B] /\
  regions st = [] /\ undoStack st = [[A; B]] /\ canUndo st = true /\
  regions (undo st) = [A; B].
Proof. repeat split. Qed.

(** The same scenario with the updater run at the call: before the clear
    the collection holds both regions and two snapshots are on the undo
    stack; after it the store is the initial one. *)
Example clear_at_call_scenario :
  let stA := fst (addRegion initialStore "A" (Fin 0) (Fin 0) (Fin 10) (Fin 10)
                    pixelate (Fin 10) "#000000") in
  let stB := fst (addRegion stA "B" (Fin 5) (Fin 5) (Fin 20) (Fin 20)
                    solid (Fin 10) "#ff0000") in
  length (regions stB) = 2%nat /\ length (undoStack stB) = 2%nat /\
  canUndo stB = true /\ clearRegions AtCall stB = initialStore.
Proof. repeat split. Qed.

(** C8.  A call whose normalized width or height is below 2 returns nothing
    and leaves the store as it was: the collection, both stacks, and so
    [canUndo] and [canRedo]. *)
Theorem addRegion_below_minimum_is_noop st newId x y w h m bs c :
  (Math_abs w <? Fin 2)%js = true \/ (Math_abs h <? Fin 2)%js = true ->
  let res := addRegion st newId x y w h m bs c in
  snd res = None /\ fst res = st /\
  length (regions (fst res)) = length (regions st) /\
  undoStack (fst res) = undoStack st /\
  canUndo (fst res) = canUndo st /\ canRedo (fst res) = canRedo st.
Proof.
  intros H res. subst res. rewrite addRegion_rejected.
  - repeat split.
  - apply orb_true_iff. exact H.
Qed.

Lemma addRegion_below_minimum_is_noop_witness :
  let res := addRegion initialStore "r" (Fin 3) (Fin 4) (Fin 1) (Fin 1)
               pixelate (Fin 10) "#000000" in
  snd res = None /\ fst res = initialStore /\
  length (regions (fst res)) = length (regions initialStore) /\
  undoStack (fst res) = undoStack initialStore /\
  canUndo (fst res) = canUndo initialStore /\
  canRedo (fst res) = canRedo initialStore.
Proof.
  apply (addRegion_below_minimum_is_noop initialStore "r" (Fin 3) (Fin 4)
           (Fin 1) (Fin 1) pixelate (Fin 10) "#000000").
  left. reflexivity.
Defined.

(** ** The normalization, on binary64 numbers *)

Module Binary64Facts.

Import PrimFloat SpecFloat FloatOps FloatAxioms Binary64.



Lemma Qpower2_pos (e : Z) : (0 < 2 ^ e)%Q.
Proof. now apply Qpower_0_lt. Qed.

(** [Math.abs] is exact. *)
Lemma hasValue_abs (w : float) (q : Q) : hasValue w q -> hasValue (abs w) (Qabs q).
Proof.
  unfold hasValue, value. rewrite abs_spec.
  destruct (Prim2SF w) as [s|s| |s m e]; cbn [SFabs]; try contradiction.
  - intros H. rewrite (Qabs_wd _ _ (Qeq_sym _ _ H)). reflexivity.
  - intros H. rewrite (Qabs_wd _ _ (Qeq_sym _ _ H)), Qabs_Qmult.
    rewrite (Qabs_pos (2 ^ e)) by (apply Qlt_le_weak, Qpower2_pos).
    apply Qmult_comp; [|reflexivity].
    destruct s; reflexivity.
Qed.






Lemma shr_1_nonneg mrs : 0 <= shr_m mrs -> 0 <= shr_m (shr_1 mrs).
Proof.
  destruct mrs as [m r s]. destruct m as [|p|p]; cbn; [lia| |lia].
  intros _. destruct p; cbn; lia.
Qed.

Lemma iter_pos_keeps {A} (P : A -> Prop) (f : A -> A) :
  (forall a, P a -> P (f a)) -> forall n a, P a -> P (iter_pos f n a).
Proof.
  intros Hf. induction n as [n IH|n IH|]; intros a Ha; cbn; auto.
Qed.

Lemma shr_nonneg mrs e n : 0 <= shr_m mrs -> 0 <= shr_m (fst (shr mrs e n)).
Proof.
  intros H. unfold shr. destruct n; cbn [fst]; try assumption.
  apply (iter_pos_keeps (fun r => 0 <= shr_m r)); [apply shr_1_nonneg|assumption].
Qed.

Lemma shr_fexp_nonneg p em m e l :
  0 <= m -> 0 <= shr_m (fst (shr_fexp p em m e l)).
Proof.
  intros H. unfold shr_fexp. apply shr_nonneg.
  destruct l as [|[| |]]; exact H.
Qed.

Lemma round_nearest_even_nonneg m l : 0 <= m -> 0 <= round_nearest_even m l.
Proof.
  intros H. destruct l as [|[| |]]; cbn; try lia. destruct (Z.even m); lia.
Qed.

Lemma binary_round_aux_not_nan p em sx mx ex lx :
  0 <= mx -> binary_round_aux p em sx mx ex lx <> S754_nan.
Proof.
  intros H. unfold binary_round_aux.
  pose proof (shr_fexp_nonneg p em mx ex lx H) as H1.
  destruct (shr_fexp p em mx ex lx) as [mrs' e']. cbn [fst] in H1.
  pose proof (shr_fexp_nonneg p em _ e' loc_Exact
                (round_nearest_even_nonneg _ (loc_of_shr_record mrs') H1)) as H2.
  destruct (shr_fexp p em (round_nearest_even (shr_m mrs') (loc_of_shr_record mrs')) e' loc_Exact)
    as [mrs'' e'']. cbn [fst] in H2.
  destruct (shr_m mrs'') as [|q|q]; [discriminate| |lia].
  destruct (e'' <=? em - p); discriminate.
Qed.

Lemma binary_normalize_not_nan p em m e sz : binary_normalize p em m e sz <> S754_nan.
Proof.
  unfold binary_normalize, binary_round.
  destruct m as [|q|q]; [discriminate| |];
    destruct (shl_align _ _ _) as [mz ez]; apply binary_round_aux_not_nan; lia.
Qed.

(** A sum of two finite numbers is not [NaN]. *)
Lemma finite_sum_is_not_NaN (a b : float) (qa qb : Q) :
  hasValue a qa -> hasValue b qb -> Prim2SF (a + b) <> S754_nan.
Proof.
  unfold hasValue, value. rewrite add_spec. unfold SF64add, SFadd.
  destruct (Prim2SF a) as [sa|sa| |sa ma ea]; try contradiction;
    destruct (Prim2SF b) as [sb|sb| |sb mb eb]; try contradiction; intros _ _;
    try discriminate.
  - destruct sa, sb; discriminate.
  - apply binary_normalize_not_nan.
Qed.

Lemma hasValue_not_NaN (f : float) (q : Q) : hasValue f q -> Prim2SF f <> S754_nan.
Proof.
  unfold hasValue, value. destruct (Prim2SF f); try contradiction; discriminate.
Qed.

(** What a call with finite arguments stores, on binary64 numbers: a finite
    width and height that are not below 2, and a corner that is not [NaN],
    also when a sum is rounded or overflows. *)
Lemma addRegion_of_finite_arguments
    st newId (x y w h : float) m bs c (qx qy qw qh : Q) st' rid :
  hasValue x qx -> hasValue y qy -> hasValue w qw -> hasValue h qh ->
  addRegion st newId x y w h m bs c = (st', Some rid) ->
  exists r,
    regions st' = regions st ++ [r] /\
    hasValue (width r) (Qabs qw) /\ hasValue (height r) (Qabs qh) /\
    (width r <? 2)%float = false /\ (height r <? 2)%float = false /\
    Prim2SF (Binary64.x r) <> S754_nan /\ Prim2SF (Binary64.y r) <> S754_nan.
Proof.
  intros Hx Hy Hw Hh. unfold addRegion.
  destruct (abs w <? 2)%float eqn:Gw; [discriminate|].
  destruct (abs h <? 2)%float eqn:Gh; [discriminate|].
  cbn [orb]. intros E. injection E as <- _. eexists. split; [reflexivity|].
  cbn [width height Binary64.x Binary64.y].
  split; [now apply hasValue_abs|]. split; [now apply hasValue_abs|].
  split; [exact Gw|]. split; [exact Gh|].
  split.
  - destruct (w <? 0)%float;
      [exact (finite_sum_is_not_NaN x w qx qw Hx Hw)|exact (hasValue_not_NaN x qx Hx)].
  - destruct (h <? 0)%float;
      [exact (finite_sum_is_not_NaN y h qy qh Hy Hh)|exact (hasValue_not_NaN y qy Hy)].
Qed.

(** With finite arguments the sum [x + width] can overflow: the stored
    corner is then infinite. *)
Example addRegion_overflows_to_an_infinite_corner :
  let big := (-0x1.1ccf385ebc8ap+1023)%float in
  exists r,
    addRegion initialStore "r" big 0 big 5 pixelate 10 "#000000" =
      (mkStore [r] [[]] [], Some "r"%string) /\
    is_finite big = true /\
    Binary64.x r = neg_infinity /\ value (Binary64.x r) = None.
Proof. eexists. repeat split. Qed.

End Binary64Facts.

(** ** Finite geometry *)

Lemma pop_Some {A} (s r : list A) (v : A) : pop s = Some (v, r) -> s = r ++ [v].
Proof.
  unfold pop. destruct (rev s) as [|v' r'] eqn:E; intros H; inversion H; subst.
  rewrite <- (rev_involutive s), E. reflexivity.
Qed.


Lemma notNaN_corner (a w : number) :
  isFinite a = true -> isFinite w = true ->
  notNaN (if (w <? Fin 0)%js then (a + w)%js else a) = true.
Proof.
  intros Ha Hw. apply isFinite_Fin in Ha as [qa ->], Hw as [qw ->].
  now destruct (Fin qw <? Fin 0)%js.
Qed.

Lemma regionSized_accepted newId px py w h m bs c :
  isFinite px = true -> isFinite py = true -> isFinite w = true -> isFinite h = true ->
  (Math_abs w <? Fin 2)%js = false ->
  (Math_abs h <? Fin 2)%js = false ->
  regionSized (mkRegion newId
                 (if (w <? Fin 0)%js then (px + w)%js else px)
                 (if (h <? Fin 0)%js then (py + h)%js else py)
                 (Math_abs w) (Math_abs h) m bs c) = true.
Proof.
  intros Hx Hy Hw Hh Gw Gh. unfold regionSized. cbn [x y width height].
  rewrite (notNaN_corner px w Hx Hw), (notNaN_corner py h Hy Hh), !andb_true_r.
  apply isFinite_Fin in Hw as [qw ->], Hh as [qh ->].
  cbn in Gw, Gh |- *. apply Qltb_ge in Gw, Gh.
  repeat (apply andb_true_iff; split); try reflexivity.
  - now apply Qle_bool_iff.
  - now apply Qle_bool_iff.
  - apply Qltb_lt. apply Qmult_lt_0_compat; lra.
Qed.

Lemma storeSized_step st o :
  finiteCall o = true -> storeSized st -> storeSized (step st o).
Proof.
  intros Ho (Hr & Hu & Hd). unfold storeSized.
  destruct o as [newId px py w h m bs c|rid|timing| |]; simpl.
  - simpl in Ho.
    apply andb_true_iff in Ho as [Ho Hh]. apply andb_true_iff in Ho as [Ho Hw].
    apply andb_true_iff in Ho as [Hx Hy].
    destruct ((Math_abs w <? Fin 2)%js) eqn:Ew;
      [rewrite addRegion_rejected by (rewrite Ew; reflexivity); now repeat split|].
    destruct ((Math_abs h <? Fin 2)%js) eqn:Eh;
      [rewrite addRegion_rejected by (rewrite Eh; apply orb_true_r); now repeat split|].
    rewrite addRegion_accepted by assumption. simpl. repeat split.
    + apply Forall_app. split; [assumption|].
      constructor; [|constructor]. now apply regionSized_accepted.
    + apply Forall_app. split; [assumption|]. now constructor.
    + constructor.
  - unfold removeRegion. simpl. repeat split.
    + clear -Hr. induction Hr as [|r l Hok Hl IH]; simpl; [constructor|].
      destruct (negb (id r =? rid)%string); [constructor|]; assumption.
    + apply Forall_app. split; [assumption|]. now constructor.
    + constructor.
  - destruct timing.
    + rewrite clearRegions_AtCall. repeat split; constructor.
    + rewrite clearRegions_AtRender. repeat split; try constructor.
      destruct (0 <? length (regions st))%nat; repeat constructor. assumption.
  - unfold undo. destruct (pop (undoStack st)) as [[prev rest]|] eqn:E;
      [|now repeat split].
    apply pop_Some in E. rewrite E in Hu. apply Forall_app in Hu as [Hu1 Hu2].
    inversion Hu2; subst. simpl. repeat split; try assumption.
    apply Forall_app. split; [assumption|]. now constructor.
  - unfold redo. destruct (pop (redoStack st)) as [[next rest]|] eqn:E;
      [|now repeat split].
    apply pop_Some in E. rewrite E in Hd. apply Forall_app in Hd as [Hd1 Hd2].
    inversion Hd2; subst. simpl. repeat split; try assumption.
    apply Forall_app. split; [assumption|]. now constructor.
Qed.

Lemma storeSized_run ops : forall st,
  forallb finiteCall ops = true -> storeSized st -> storeSized (run ops st).
Proof.
  induction ops as [|o ops IH]; intros st Hfin Hst; cbn; [assumption|].
  cbn in Hfin. apply andb_true_iff in Hfin as [Ho Hops].
  apply IH; [assumption|]. now apply storeSized_step.
Qed.

(** C2, as the code has it.  [addRegion] makes no test of finiteness.  When
    every [addRegion] call of a run has finite [x], [y], [width] and
    [height], every region of the collection, and of every snapshot on the
    two stacks, has a finite width and height of at least 2, so
    [width * height > 0], and an [x] and a [y] that are not [NaN].  (That
    [x] and [y] are finite is not said: in binary64 the sums [x + width] and
    [y + height] can overflow.) *)
Theorem finite_calls_store_sized_regions ops :
  forallb finiteCall ops = true ->
  storeSized (run ops initialStore).
Proof.
  intros Hfin. apply storeSized_run; [assumption|].
  repeat split; constructor.
Qed.

Lemma finite_calls_store_sized_regions_witness :
  storeSized (run [OpAdd "a" (Fin 10) (Fin 10) (Fin (-20)) (Fin 30) pixelate (Fin 10) "#000000";
                   OpAdd "b" (Fin 1) (Fin 1) (Fin 1) (Fin 1) solid (Fin 10) "#ffffff";
                   OpRemove "a"; OpUndo; OpRedo; OpUndo]
                  initialStore).
Proof.
  apply (finite_calls_store_sized_regions
           [OpAdd "a" (Fin 10) (Fin 10) (Fin (-20)) (Fin 30) pixelate (Fin 10) "#000000";
            OpAdd "b" (Fin 1) (Fin 1) (Fin 1) (Fin 1) solid (Fin 10) "#ffffff";
            OpRemove "a"; OpUndo; OpRedo; OpUndo]).
  reflexivity.
Defined.

(** C2 fails as stated: a call whose width and height are [NaN] is not
    rejected ([NaN < 2] is false); it returns an id and the region it appends
    has a width and a height that are not finite. *)
Lemma addRegion_stores_NaN_size :
  let res := addRegion initialStore "r" (Fin 0) (Fin 0) NaN NaN
               pixelate (Fin 10) "#000000" in
  isFinite NaN = false /\
  snd res = Some "r"%string /\
  regions (fst res) =
    [mkRegion "r" (Fin 0) (Fin 0) NaN NaN pixelate (Fin 10) "#000000"] /\
  forallb regionOk (regions (fst res)) = false.
Proof. repeat split. Qed.

(** An infinite corner is stored too. *)
Example addRegion_stores_infinite_corner :
  regions (fst (addRegion initialStore "r" PosInf NegInf (Fin 5) PosInf
                  solid (Fin 10) "#000000")) =
    [mkRegion "r" PosInf NegInf (Fin 5) PosInf solid (Fin 10) "#000000"].
Proof. reflexivity. Qed.

(** ** Undo and redo *)

Lemma canUndo_false st : canUndo st = false <-> undoStack st = [].
Proof. unfold canUndo. destruct (undoStack st); simpl; split; intros H; (reflexivity || discriminate). Qed.

Lemma canRedo_false st : canRedo st = false <-> redoStack st = [].
Proof. unfold canRedo. destruct (redoStack st); simpl; split; intros H; (reflexivity || discriminate). Qed.

(** Undoing until the stack is empty installs the oldest snapshot and moves
    the later states, the current one first, onto the redo stack. *)
Lemma undoAll_spec (u : list (list BlurRegion)) : forall c r,
  undoAll (length u) (mkStore c u r) =
    Some (mkStore (hd c u) [] (r ++ rev (tl (u ++ [c])))).
Proof.
  induction u as [|s u IH] using rev_ind; intros c r.
  - simpl. now rewrite app_nil_r.
  - rewrite length_app, Nat.add_comm. simpl.
    unfold canUndo. simpl. rewrite length_app, Nat.add_comm. simpl.
    unfold undo. simpl. fold (push u s). rewrite pop_push. unfold push.
    rewrite IH. f_equal. f_equal.
    + destruct u; reflexivity.
    + rewrite <- app_assoc. f_equal.
      destruct u as [|s0 u]; simpl; [reflexivity|].
      rewrite <- !app_assoc. simpl. rewrite !rev_app_distr. reflexivity.
Qed.

Lemma redoAll_spec (d : list (list BlurRegion)) : forall c u,
  redoAll (length d) (mkStore c u d) =
    Some (mkStore (hd c d) (u ++ rev (tl (d ++ [c]))) []).
Proof.
  induction d as [|s d IH] using rev_ind; intros c u.
  - simpl. now rewrite app_nil_r.
  - rewrite length_app, Nat.add_comm. simpl.
    unfold canRedo. simpl. rewrite length_app, Nat.add_comm. simpl.
    unfold redo. simpl. fold (push d s). rewrite pop_push. unfold push.
    rewrite IH. f_equal. f_equal.
    + destruct d; reflexivity.
    + rewrite <- app_assoc. f_equal.
      destruct d as [|s0 d]; simpl; [reflexivity|].
      rewrite <- !app_assoc. simpl. rewrite !rev_app_distr. reflexivity.
Qed.

(** After add/remove/clear calls only, nothing can be redone. *)
Lemma noRedo_step st o :
  mutation o = true -> redoStack st = [] -> redoStack (step st o) = [].
Proof.
  intros Hm Hd. destruct o as [newId x y w h m bs c|rid|timing| |];
    try discriminate; simpl.
  - unfold addRegion.
    now destruct ((Math_abs w <? Fin 2)%js || (Math_abs h <? Fin 2)%js).
  - reflexivity.
  - destruct timing; [reflexivity|]. now rewrite clearRegions_AtRender.
Qed.

Lemma noRedo_run ops : forall st,
  forallb mutation ops = true -> redoStack st = [] -> redoStack (run ops st) = [].
Proof.
  induction ops as [|o ops IH]; intros st Hm Hst; simpl; [assumption|].
  simpl in Hm. apply andb_true_iff in Hm as [Ho Hops].
  apply IH; [assumption|]. now apply noRedo_step.
Qed.

Lemma freshHistory_step st o :
  mutation o = true -> clearAtCall o = true ->
  freshHistory st -> freshHistory (step st o).
Proof.
  unfold freshHistory.
  intros Hm Hc Hu. destruct o as [newId x y w h m bs c|rid|timing| |];
    try discriminate; simpl.
  - unfold addRegion.
    destruct ((Math_abs w <? Fin 2)%js || (Math_abs h <? Fin 2)%js);
      [assumption|].
    simpl. unfold push. destruct (undoStack st); simpl in *; assumption.
  - unfold push. destruct (undoStack st); simpl in *; assumption.
  - destruct timing; [reflexivity|discriminate].
Qed.

Lemma freshHistory_run ops : forall st,
  forallb mutation ops = true -> forallb clearAtCall ops = true ->
  freshHistory st -> freshHistory (run ops st).
Proof.
  induction ops as [|o ops IH]; intros st Hm Hc Hst; simpl; [assumption|].
  simpl in Hm, Hc.
  apply andb_true_iff in Hm as [Ho Hops]. apply andb_true_iff in Hc as [Hco Hcops].
  apply IH; [assumption|assumption|]. now apply freshHistory_step.
Qed.

(** Undo to the end, then redo to the end.  After any sequence of
    [addRegion]/[removeRegion]/[clearRegions] calls from the initial store,
    calling [undo] until [canUndo] is false ends and leaves the oldest
    snapshot (the collection itself when there is no snapshot); that is the
    empty collection when no [clearRegions] updater ran at the next render,
    that is when every clear was the hard reset [clearRegions] sets out to
    do.  Calling [redo] from there until [canRedo] is false ends and leaves
    the list of regions the sequence had produced, in the same order. *)
Theorem undo_all_then_redo_all_roundtrip ops :
  forallb mutation ops = true ->
  let st := run ops initialStore in
  exists n st1 m st2,
    undoAll n st = Some st1 /\ canUndo st1 = false /\
    regions st1 = hd (regions st) (undoStack st) /\
    (forallb clearAtCall ops = true -> regions st1 = []) /\
    redoAll m st1 = Some st2 /\ canRedo st2 = false /\
    regions st2 = regions st.
Proof.
  intros Hm st.
  assert (Hd : redoStack st = []) by (now apply noRedo_run).
  assert (Hfresh : forallb clearAtCall ops = true -> freshHistory st).
  { intros Hc. now apply freshHistory_run. }
  destruct st as [c u d]. unfold freshHistory in Hfresh. simpl in Hd, Hfresh. subst d.
  exists (length u), (mkStore (hd c u) [] ([] ++ rev (tl (u ++ [c])))),
         (length ([] ++ rev (tl (u ++ [c])))),
         (mkStore (hd (hd c u) ([] ++ rev (tl (u ++ [c]))))
                  ([] ++ rev (tl (([] ++ rev (tl (u ++ [c]))) ++ [hd c u]))) []).
  split; [apply undoAll_spec|].
  split; [reflexivity|].
  split; [reflexivity|].
  split; [exact Hfresh|].
  split; [apply redoAll_spec|].
  split; [reflexivity|].
  simpl. destruct u as [|s u]; simpl in *.
  - reflexivity.
  - rewrite rev_app_distr. reflexivity.
Qed.

Lemma undo_all_then_redo_all_roundtrip_witness :
  let ops := [OpAdd "a" (Fin 0) (Fin 0) (Fin 10) (Fin 10) pixelate (Fin 10) "#000000";
              OpClear AtCall;
              OpAdd "b" (Fin 5) (Fin 5) (Fin 8) (Fin 8) solid (Fin 10) "#ff0000";
              OpRemove "a";
              OpAdd "c" (Fin 1) (Fin 1) (Fin (-4)) (Fin 4) pixelate (Fin 4) "#000000"] in
  let st := run ops initialStore in
  exists n st1 m st2,
    undoAll n st = Some st1 /\ canUndo st1 = false /\
    regions st1 = hd (regions st) (undoStack st) /\
    (forallb clearAtCall ops = true -> regions st1 = []) /\
    redoAll m st1 = Some st2 /\ canRedo st2 = false /\
    regions st2 = regions st.
Proof.
  apply (undo_all_then_redo_all_roundtrip
           [OpAdd "a" (Fin 0) (Fin 0) (Fin 10) (Fin 10) pixelate (Fin 10) "#000000";
            OpClear AtCall;
            OpAdd "b" (Fin 5) (Fin 5) (Fin 8) (Fin 8) solid (Fin 10) "#ff0000";
            OpRemove "a";
            OpAdd "c" (Fin 1) (Fin 1) (Fin (-4)) (Fin 4) pixelate (Fin 4) "#000000"]).
  reflexivity.
Defined.

(** C4, run.  Add A, then clear with the updater of [clearRegions] run at
    the next render: the snapshot [A] is pushed after the stacks have been
    emptied, so it is the only snapshot, and undoing until [canUndo] is
    false leaves the collection [A], not the empty one. *)
Lemma undo_all_after_clear_at_render :
  let A := mkRegion "A" (Fin 0) (Fin 0) (Fin 10) (Fin 10) pixelate (Fin 10) "#000000" in
  let st := run [OpAdd "A" (Fin 0) (Fin 0) (Fin 10) (Fin 10) pixelate (Fin 10) "#000000";
                 OpClear AtRender] initialStore in
  regions st = [] /\ canUndo st = true /\
  undoAll 5 st = Some (undo st) /\ canUndo (undo st) = false /\
  regions (undo st) = [A] /\ regions (undo st) <> [].
Proof. repeat split. discriminate. Qed.

(* ===================================================================== *)
(** * The zoom state                                                      *)
(* ===================================================================== *)

Import UseCanvasRenderer.

Lemma zoomInBounds_Fin z :
  zoomInBounds z = true <-> exists q, z = Fin q /\ ((1 # 2) <= q <= 5)%Q.
Proof.
  unfold zoomInBounds. split.
  - destruct z as [q| | |]; simpl; intros H; try discriminate.
    apply andb_true_iff in H as [H1 H2]. apply Qle_bool_iff in H1, H2.
    exists q. now repeat split.
  - intros (q & -> & H1 & H2). simpl.
    apply andb_true_iff. split; now apply Qle_bool_iff.
Qed.

(** Reading the boolean tests of a goal or hypothesis back as order facts. *)
Ltac Qtests :=
  repeat match goal with
  | H : Qltb _ _ = true |- _ => apply Qltb_lt in H
  | H : Qltb _ _ = false |- _ => apply Qltb_ge in H
  | H : Qle_bool _ _ = true |- _ => apply Qle_bool_iff in H
  end.

(** The clamp of [zoomAt] on a target that is not [NaN]. *)
Lemma zoomAt_clamp_in_bounds (target : number) :
  target <> NaN ->
  zoomInBounds (Math_min (Fin 5) (Math_max (Fin (1 # 2)) target)) = true.
Proof.
  intros Hn. apply zoomInBounds_Fin.
  destruct target as [q| | |]; simpl; [| | |congruence].
  - destruct (Qltb (1 # 2) q) eqn:E1; simpl.
    + destruct (Qltb q 5) eqn:E2; Qtests; eexists; (split; [reflexivity|lra]).
    + exists (1 # 2)%Q. split; [reflexivity|lra].
  - exists 5%Q. split; [reflexivity|lra].
  - exists (1 # 2)%Q. split; [reflexivity|lra].
Qed.

Lemma zoomStep_in_bounds st o :
  targetNotNaN o = true ->
  zoomInBounds (zoom st) = true ->
  zoomInBounds (zoom (zoomStep st o)) = true.
Proof.
  intros Ho Hz. destruct o as [c target cx cy| | |]; simpl.
  - destruct c as [c|]; simpl; [|assumption].
    apply zoomAt_clamp_in_bounds. intros ->. discriminate.
  - apply zoomInBounds_Fin in Hz as (q & Hq & H1 & H2). rewrite Hq.
    apply zoomInBounds_Fin. simpl.
    destruct (Qltb 5 (q + (1 # 2))) eqn:E; Qtests;
      eexists; (split; [reflexivity|lra]).
  - apply zoomInBounds_Fin in Hz as (q & Hq & H1 & H2). rewrite Hq.
    apply zoomInBounds_Fin. simpl.
    destruct (Qltb (q + - (1 # 2)) (1 # 2)) eqn:E; Qtests;
      eexists; (split; [reflexivity|lra]).
  - reflexivity.
Qed.

(** C9, as the code has it.  From the default zoom of 1, after any sequence
    of [zoomAt], [zoomIn], [zoomOut] and [zoomReset] calls in which no
    [zoomAt] target is [NaN], the zoom is a finite number in [0.5, 5]. *)
Theorem zoom_stays_in_bounds ops :
  forallb targetNotNaN ops = true ->
  zoomInBounds (zoom (zoomRun ops initialZoom)) = true.
Proof.
  intros Hops.
  assert (H : forall st, forallb targetNotNaN ops = true ->
            zoomInBounds (zoom st) = true ->
            zoomInBounds (zoom (zoomRun ops st)) = true).
  { clear Hops. induction ops as [|o ops IH]; intros st Hops Hz; simpl;
      [assumption|].
    simpl in Hops. apply andb_true_iff in Hops as [Ho Hops].
    apply IH; [assumption|]. now apply zoomStep_in_bounds. }
  apply H; [assumption|reflexivity].
Qed.

Lemma zoom_stays_in_bounds_witness :
  zoomInBounds
    (zoom (zoomRun [ZoomIn; ZoomIn;
                    ZoomAt (Some (mkContainer (Fin 0) (Fin 0) (Fin 800) (Fin 600) (Fin 0) (Fin 0)))
                           (Fin 42) (Fin 100) (Fin 100);
                    ZoomIn; ZoomOut;
                    ZoomAt None (Fin 3) (Fin 0) (Fin 0);
                    ZoomAt (Some (mkContainer (Fin 0) (Fin 0) (Fin 800) (Fin 600) (Fin 0) (Fin 0)))
                           NegInf (Fin 1) (Fin 1);
                    ZoomOut; ZoomReset; ZoomOut]
                   initialZoom)) = true.
Proof.
  apply (zoom_stays_in_bounds
           [ZoomIn; ZoomIn;
            ZoomAt (Some (mkContainer (Fin 0) (Fin 0) (Fin 800) (Fin 600) (Fin 0) (Fin 0)))
                   (Fin 42) (Fin 100) (Fin 100);
            ZoomIn; ZoomOut;
            ZoomAt None (Fin 3) (Fin 0) (Fin 0);
            ZoomAt (Some (mkContainer (Fin 0) (Fin 0) (Fin 800) (Fin 600) (Fin 0) (Fin 0)))
                   NegInf (Fin 1) (Fin 1);
            ZoomOut; ZoomReset; ZoomOut]).
  reflexivity.
Defined.

(** C9 fails as stated: [Math.max(0.5, NaN)] is [NaN] and so is
    [Math.min(5, NaN)]; one [zoomAt] call with a [NaN] target leaves the zoom
    [NaN], which is not within [0.5, 5]. *)
Lemma zoomAt_NaN_escapes_bounds :
  let c := mkContainer (Fin 0) (Fin 0) (Fin 800) (Fin 600) (Fin 0) (Fin 0) in
  let st := zoomRun [ZoomAt (Some c) NaN (Fin 100) (Fin 100)] initialZoom in
  zoom st = NaN /\ zoomInBounds (zoom st) = false.
Proof. split; reflexivity. Qed.

(* ===================================================================== *)
(** * Whole numbers                                                       *)
(* ===================================================================== *)

Import ImageProcessor.

Lemma ofZ_inj a b : ofZ a = ofZ b -> a = b.
Proof. unfold ofZ, inject_Z. intros H. now inversion H. Qed.

Lemma add_ofZ a b : (ofZ a + ofZ b)%js = ofZ (a + b).
Proof.
  unfold ofZ, inject_Z. simpl. unfold Qplus. simpl. now rewrite !Z.mul_1_r.
Qed.

Lemma sub_ofZ a b : (ofZ a - ofZ b)%js = ofZ (a - b).
Proof.
  unfold ofZ, inject_Z, sub. simpl. unfold Qplus. simpl. now rewrite !Z.mul_1_r.
Qed.

Lemma mul_ofZ a b : (ofZ a * ofZ b)%js = ofZ (a * b).
Proof. reflexivity. Qed.

Lemma lt_ofZ a b : (ofZ a <? ofZ b)%js = (a <? b).
Proof.
  unfold ofZ, inject_Z. simpl. unfold Qltb, Qle_bool. simpl.
  rewrite !Z.mul_1_r. now rewrite Z.ltb_antisym.
Qed.

Lemma le_ofZ a b : (ofZ a <=? ofZ b)%js = (a <=? b).
Proof.
  unfold ofZ, inject_Z. simpl. unfold Qle_bool. simpl. now rewrite !Z.mul_1_r.
Qed.

Lemma Math_min_ofZ a b : Math_min (ofZ a) (ofZ b) = ofZ (Z.min a b).
Proof.
  change (Math_min (ofZ a) (ofZ b))
    with (if (ofZ b <? ofZ a)%js then ofZ b else ofZ a).
  rewrite lt_ofZ. destruct (Z.ltb_spec b a);
    [rewrite Z.min_r by lia | rewrite Z.min_l by lia]; reflexivity.
Qed.

Lemma Math_max_ofZ a b : Math_max (ofZ a) (ofZ b) = ofZ (Z.max a b).
Proof.
  change (Math_max (ofZ a) (ofZ b))
    with (if (ofZ a <? ofZ b)%js then ofZ b else ofZ a).
  rewrite lt_ofZ. destruct (Z.ltb_spec a b);
    [rewrite Z.max_r by lia | rewrite Z.max_l by lia]; reflexivity.
Qed.

Lemma Qfloor_inject_Z z : Qfloor (inject_Z z) = z.
Proof. apply Qfloor_Z. Qed.

Lemma to_integer_ofZ z : to_integer (ofZ z) = Some z.
Proof.
  unfold to_integer, ofZ. rewrite Qfloor_inject_Z.
  assert (H : Qeq_bool (inject_Z z) (inject_Z z) = true)
    by (apply Qeq_bool_iff; reflexivity).
  now rewrite H.
Qed.

Lemma ToInt32_ofZ z : 0 <= z < 2147483648 -> ToInt32 (ofZ z) = z.
Proof.
  intros Hz. unfold ToInt32, ofZ, Qtrunc.
  assert (H : Qle_bool 0 (inject_Z z) = true).
  { apply Qle_bool_iff. change 0%Q with (inject_Z 0). rewrite <- Zle_Qle. lia. }
  rewrite H, Qfloor_inject_Z, Z.mod_small by lia.
  destruct (Z.ltb_spec z 2147483648); [reflexivity|lia].
Qed.

Lemma ToUint8Clamp_ofZ z : 0 <= z <= 255 -> ToUint8Clamp (ofZ z) = z.
Proof.
  intros Hz. unfold ToUint8Clamp, ofZ.
  destruct (Qle_bool (inject_Z z) 0) eqn:E0.
  { apply Qle_bool_iff in E0. change 0%Q with (inject_Z 0) in E0.
    rewrite <- Zle_Qle in E0. lia. }
  destruct (Qle_bool 255 (inject_Z z)) eqn:E1.
  { apply Qle_bool_iff in E1. change 255%Q with (inject_Z 255) in E1.
    rewrite <- Zle_Qle in E1. lia. }
  rewrite Qfloor_inject_Z. cbv zeta.
  assert (H : Qltb (inject_Z z) (inject_Z z + (1 # 2)) = true)
    by (apply Qltb_lt; lra).
  now rewrite H.
Qed.

Lemma rd_ofZ (data : list Z) k v :
  0 <= k -> data !! Z.to_nat k = Some v -> rd data (ofZ k) = ofZ v.
Proof.
  intros Hk Hv. unfold rd. rewrite to_integer_ofZ.
  destruct (Z.leb_spec 0 k); [|lia]. now rewrite Hv.
Qed.

Lemma wr_ofZ (data : list Z) k v :
  0 <= k -> wr data (ofZ k) v = <[Z.to_nat k := ToUint8Clamp v]> data.
Proof.
  intros Hk. unfold wr. rewrite to_integer_ofZ.
  now destruct (Z.leb_spec 0 k); [|lia].
Qed.

(** [Math.round(r / n)] on whole numbers. *)
Lemma round_div_ofZ r n :
  0 < n ->
  Math_round (ofZ r / ofZ n)%js = ofZ (Qfloor (inject_Z r / inject_Z n + (1 # 2))).
Proof.
  intros Hn. unfold div, ofZ.
  assert (H : Qeq_bool (inject_Z n) 0 = false).
  { apply not_true_iff_false. intros H. apply Qeq_bool_iff in H.
    unfold Qeq in H. simpl in H. lia. }
  now rewrite H.
Qed.

(* ===================================================================== *)
(** * Loops                                                               *)
(* ===================================================================== *)

Lemma for_lt_ext {S} (body1 body2 : number -> S -> option S) :
  (forall v s, body1 v s = body2 v s) ->
  forall fuel v bound step s,
    for_lt fuel v bound step body1 s = for_lt fuel v bound step body2 s.
Proof.
  intros Hext. induction fuel as [|f IH]; intros v bound step s; simpl;
    [reflexivity|].
  destruct (v <? bound)%js; [|reflexivity].
  rewrite Hext. destruct (body2 v s); [apply IH|reflexivity].
Qed.

(** A loop on whole numbers with a step of at least 1 ends, and runs its
    body on the counter values in turn. *)
Lemma for_lt_upto {S} (body : number -> S -> option S) (b step : Z) :
  1 <= step ->
  forall (n : nat) (a : Z) (fuel : nat) (s : S),
    (Z.to_nat (b - a) <= n)%nat -> (n < fuel)%nat ->
    for_lt fuel (ofZ a) (ofZ b) (ofZ step) body s =
    foldM (fun z => body (ofZ z)) (upto n a b step) s.
Proof.
  intros Hstep. induction n as [|n IH]; intros a fuel s Hn Hfuel.
  - destruct fuel as [|f]; [lia|]. cbn [for_lt upto foldM]. rewrite lt_ofZ.
    destruct (Z.ltb_spec a b); [lia|reflexivity].
  - destruct fuel as [|f]; [lia|]. cbn [for_lt upto foldM]. rewrite lt_ofZ.
    destruct (Z.ltb_spec a b); [|reflexivity]. cbn [foldM].
    destruct (body (ofZ a) s) as [s'|]; [|reflexivity].
    rewrite add_ofZ. apply IH; lia.
Qed.

Lemma for_lt_counter {S} (body : number -> S -> option S) (a b step : Z)
    (fuel : nat) (s : S) :
  1 <= step -> (Z.to_nat (b - a) < fuel)%nat ->
  for_lt fuel (ofZ a) (ofZ b) (ofZ step) body s =
  foldM (fun z => body (ofZ z)) (counter a b step) s.
Proof.
  intros Hstep Hfuel. unfold counter. now apply for_lt_upto.
Qed.

Lemma foldM_ext {S A} (f g : A -> S -> option S) (l : list A) :
  (forall a s, In a l -> f a s = g a s) ->
  forall s, foldM f l s = foldM g l s.
Proof.
  induction l as [|a l IH]; intros Hext s; simpl; [reflexivity|].
  rewrite Hext by (now left).
  destruct (g a s); [|reflexivity].
  apply IH. intros a' s' Hin. apply Hext. now right.
Qed.

Lemma foldM_app {S A} (f : A -> S -> option S) (l1 l2 : list A) (s : S) :
  foldM f (l1 ++ l2) s =
  match foldM f l1 s with
  | Some s' => foldM f l2 s'
  | None => None
  end.
Proof.
  revert s. induction l1 as [|a l1 IH]; intros s; simpl; [reflexivity|].
  destruct (f a s); [apply IH|reflexivity].
Qed.

Lemma foldM_map {S A B} (f : B -> S -> option S) (g : A -> B) (l : list A) (s : S) :
  foldM f (map g l) s = foldM (fun a => f (g a)) l s.
Proof.
  revert s. induction l as [|a l IH]; intros s; simpl; [reflexivity|].
  destruct (f (g a) s); [apply IH|reflexivity].
Qed.

(** Two nested loops run the body on the pairs, row by row. *)
Lemma foldM_flat_map {S A B} (f : B -> S -> option S) (g : A -> list B)
    (l : list A) (s : S) :
  foldM (fun a s => foldM f (g a) s) l s = foldM f (flat_map g l) s.
Proof.
  revert s. induction l as [|a l IH]; intros s; simpl; [reflexivity|].
  rewrite foldM_app. destruct (foldM f (g a) s); [apply IH|reflexivity].
Qed.

(** The counter values of a loop with step 1. *)
Lemma upto_seqZ (n : nat) : forall a b,
  (Z.to_nat (b - a) <= n)%nat -> upto n a b 1 = seqZ a (b - a).
Proof.
  induction n as [|n IH]; intros a b Hn; simpl.
  - rewrite seqZ_nil by lia. reflexivity.
  - destruct (Z.ltb_spec a b).
    + rewrite seqZ_cons by lia. f_equal.
      rewrite IH by lia. f_equal. lia.
    + rewrite seqZ_nil by lia. reflexivity.
Qed.

Lemma counter_seqZ a b : counter a b 1 = seqZ a (b - a).
Proof. unfold counter. now apply upto_seqZ. Qed.

(** The counter values of a loop from 0: the multiples of the step below
    the bound, each once. *)
Lemma upto_In step b : 1 <= step ->
  forall (n : nat) a z, (Z.to_nat (b - a) <= n)%nat ->
    (In z (upto n a b step) <-> exists i, 0 <= i /\ z = a + i * step /\ z < b).
Proof.
  intros Hstep. induction n as [|n IH]; intros a z Hn; simpl.
  - split; [tauto|]. intros (i & Hi & -> & Hlt). nia.
  - destruct (Z.ltb_spec a b) as [Hab|Hab].
    + simpl. rewrite IH by lia. split.
      * intros [<- | (i & Hi & -> & Hlt)].
        -- exists 0. lia.
        -- exists (i + 1). lia.
      * intros (i & Hi & -> & Hlt).
        destruct (Z.eq_dec i 0) as [-> | Hne]; [left; lia|].
        right. exists (i - 1). lia.
    + split; [intros []|]. intros (i & Hi & -> & Hlt). nia.
Qed.

Lemma upto_NoDup step b : 1 <= step ->
  forall (n : nat) a, (Z.to_nat (b - a) <= n)%nat -> List.NoDup (upto n a b step).
Proof.
  intros Hstep. induction n as [|n IH]; intros a Hn; simpl; [constructor|].
  destruct (Z.ltb_spec a b); [|constructor].
  constructor; [|apply IH; lia].
  rewrite upto_In by lia. intros (i & Hi & Heq & _). nia.
Qed.

Lemma counter_In step b z : 1 <= step ->
  In z (counter 0 b step) <-> 0 <= z < b /\ blockCorner step z = z.
Proof.
  intros Hstep. unfold counter, blockCorner. rewrite upto_In by lia. split.
  - intros (i & Hi & -> & Hlt). rewrite Z.add_0_l in *. split; [nia|].
    now rewrite Z.div_mul by lia.
  - intros [Hz Hc]. exists (z / step). split; [apply Z.div_pos; lia|].
    split; lia.
Qed.

Lemma foldM_cells {S} (F : Z * Z -> S -> option S) bx by_ bw bh (s : S) :
  foldM (fun py s => foldM (fun px => F (px, py)) (seqZ bx bw) s) (seqZ by_ bh) s =
  foldM F (cells bx by_ bw bh) s.
Proof.
  unfold cells. rewrite <- foldM_flat_map. apply foldM_ext.
  intros py s' _. now rewrite foldM_map.
Qed.

(** The two pixel loops of a block run their body on the block's pixels. *)
Lemma for_lt_rect {S} (body : number -> number -> S -> option S)
    (fuel : nat) bx by_ bw bh (s : S) :
  (Z.to_nat bw < fuel)%nat -> (Z.to_nat bh < fuel)%nat ->
  for_lt fuel (ofZ by_) (ofZ by_ + ofZ bh)%js (Fin 1)
    (fun py acc =>
       for_lt fuel (ofZ bx) (ofZ bx + ofZ bw)%js (Fin 1)
         (fun px acc => body py px acc) acc) s =
  foldM (fun p => body (ofZ (snd p)) (ofZ (fst p))) (cells bx by_ bw bh) s.
Proof.
  intros Hw Hh. rewrite !add_ofZ. change (Fin 1) with (ofZ 1).
  rewrite for_lt_counter by lia. rewrite counter_seqZ.
  replace (by_ + bh - by_) with bh by lia.
  rewrite <- (foldM_cells (fun p => body (ofZ (snd p)) (ofZ (fst p)))).
  apply foldM_ext. intros py acc _.
  rewrite for_lt_counter by lia. rewrite counter_seqZ.
  replace (bx + bw - bx) with bw by lia. reflexivity.
Qed.

(** The two block loops run their body on the block corners. *)
Lemma for_lt_grid {S} (body : number -> number -> S -> option S)
    (fuel : nat) cw ch bs (s : S) :
  1 <= bs -> (Z.to_nat cw < fuel)%nat -> (Z.to_nat ch < fuel)%nat ->
  for_lt fuel (Fin 0) (ofZ ch) (ofZ bs)
    (fun blockY acc =>
       for_lt fuel (Fin 0) (ofZ cw) (ofZ bs)
         (fun blockX acc => body blockY blockX acc) acc) s =
  foldM (fun p => body (ofZ (snd p)) (ofZ (fst p))) (corners cw ch bs) s.
Proof.
  intros Hbs Hw Hh. change (Fin 0) with (ofZ 0).
  rewrite for_lt_counter by lia.
  unfold corners. rewrite <- foldM_flat_map. apply foldM_ext.
  intros by_ acc _. rewrite for_lt_counter by lia. now rewrite foldM_map.
Qed.

Lemma in_cells px py bx by_ bw bh :
  In (px, py) (cells bx by_ bw bh) <->
  bx <= px < bx + bw /\ by_ <= py < by_ + bh.
Proof.
  unfold cells. rewrite in_flat_map. split.
  - intros (py' & Hy & Hx). apply in_map_iff in Hx as (px' & Heq & Hx).
    inversion Heq; subst.
    apply list_elem_of_In, elem_of_seqZ in Hy, Hx. lia.
  - intros [Hx Hy]. exists py. split.
    + apply list_elem_of_In, elem_of_seqZ. lia.
    + apply in_map_iff. exists px. split; [reflexivity|].
      apply list_elem_of_In, elem_of_seqZ. lia.
Qed.

Lemma length_cells bx by_ bw bh :
  0 <= bw -> 0 <= bh -> Z.of_nat (length (cells bx by_ bw bh)) = bw * bh.
Proof.
  intros Hw Hh. unfold cells.
  assert (H : forall l : list Z,
            Z.of_nat (length (flat_map (fun py => map (fun px => (px, py)) (seqZ bx bw)) l))
            = bw * Z.of_nat (length l)).
  { induction l as [|a l IH]; simpl; [lia|].
    rewrite length_app, length_map, length_seqZ. lia. }
  rewrite H, length_seqZ. lia.
Qed.

(* ===================================================================== *)
(** * One block                                                           *)
(* ===================================================================== *)

Section Block.

Variables cw ch : Z.
Hypothesis cw_pos : 0 < cw.
Hypothesis ch_pos : 0 < ch.
Variable data : list Z.
Hypothesis data_length : Z.of_nat (length data) = 4 * cw * ch.

Lemma offset_range p c :
  inArea cw ch p -> 0 <= c < 4 -> 0 <= offset cw p c < 4 * cw * ch.
Proof. unfold inArea, offset. destruct p as [px py]. simpl. nia. Qed.

Lemma offset_inj p q c d :
  inArea cw ch p -> inArea cw ch q -> 0 <= c < 4 -> 0 <= d < 4 ->
  offset cw p c = offset cw q d -> p = q /\ c = d.
Proof.
  unfold inArea, offset. destruct p as [px py], q as [qx qy]. simpl.
  intros Hp Hq Hc Hd Heq.
  assert (H1 : py * cw + px = qy * cw + qx) by lia.
  assert (H2 : c = d) by lia.
  assert (H3 : py = qy) by nia.
  subst. split; [f_equal; lia|reflexivity].
Qed.

Lemma sample_lookup p c :
  inArea cw ch p -> 0 <= c < 4 ->
  data !! Z.to_nat (offset cw p c) = Some (sample data cw c p).
Proof.
  intros Hp Hc. pose proof (offset_range p c Hp Hc) as Ho. unfold sample.
  destruct (lookup_lt_is_Some_2 data (Z.to_nat (offset cw p c))) as [v Hv]; [lia|].
  now rewrite Hv.
Qed.

(** The index [(py * cw + px) * 4] the pixel loops compute, and the three
    after it. *)
Lemma index_ofZ p c :
  ((ofZ (snd p) * ofZ cw + ofZ (fst p)) * Fin 4 + ofZ c)%js = ofZ (offset cw p c).
Proof.
  change (Fin 4) with (ofZ 4). now rewrite mul_ofZ, add_ofZ, mul_ofZ, add_ofZ.
Qed.

Lemma index0_ofZ p :
  ((ofZ (snd p) * ofZ cw + ofZ (fst p)) * Fin 4)%js = ofZ (offset cw p 0).
Proof.
  change (Fin 4) with (ofZ 4). rewrite mul_ofZ, add_ofZ, mul_ofZ.
  unfold offset. f_equal. lia.
Qed.

Lemma sum_cells (cs : list (Z * Z)) :
  Forall (inArea cw ch) cs ->
  forall r g b a n,
    foldM (fun p acc =>
             let i := ((ofZ (snd p) * ofZ cw + ofZ (fst p)) * Fin 4)%js in
             Some (mkSums (sr acc + rd data i)%js
                          (sg acc + rd data (i + Fin 1))%js
                          (sb acc + rd data (i + Fin 2))%js
                          (sa acc + rd data (i + Fin 3))%js
                          (count acc + Fin 1)%js))
          cs (mkSums (ofZ r) (ofZ g) (ofZ b) (ofZ a) (ofZ n))
    = Some (sumsOf cw data r g b a n cs).
Proof.
  induction 1 as [|p cs Hp Hcs IH]; intros r g b a n.
  - unfold sumsOf. simpl. now rewrite !Z.add_0_r.
  - cbn [foldM]. cbv zeta. cbn [sr sg sb sa count].
    change (Fin 1) with (ofZ 1). change (Fin 2) with (ofZ 2).
    change (Fin 3) with (ofZ 3).
    rewrite !index_ofZ, index0_ofZ.
    rewrite (rd_ofZ data _ (sample data cw 0 p)),
            (rd_ofZ data _ (sample data cw 1 p)),
            (rd_ofZ data _ (sample data cw 2 p)),
            (rd_ofZ data _ (sample data cw 3 p));
      try (apply sample_lookup; [assumption|lia]);
      try (apply offset_range; [assumption|lia]).
    rewrite !add_ofZ, IH. unfold sumsOf. simpl.
    f_equal. f_equal; f_equal; lia.
Qed.

Lemma fillPixel_length avgR avgG avgB avgA p d :
  inArea cw ch p -> length (fillPixel cw avgR avgG avgB avgA p d) = length d.
Proof.
  intros Hp. unfold fillPixel. cbv zeta.
  change (Fin 1) with (ofZ 1). change (Fin 2) with (ofZ 2).
  change (Fin 3) with (ofZ 3).
  rewrite !index_ofZ, index0_ofZ.
  rewrite !wr_ofZ by (apply offset_range; [assumption|lia]).
  now rewrite !length_insert.
Qed.

Lemma fillPixel_lookup avgR avgG avgB avgA p d q c :
  length d = length data ->
  inArea cw ch p -> inArea cw ch q -> 0 <= c < 4 ->
  fillPixel cw avgR avgG avgB avgA p d !! Z.to_nat (offset cw q c) =
  if decide (q = p) then Some (ToUint8Clamp (average c avgR avgG avgB avgA))
  else d !! Z.to_nat (offset cw q c).
Proof.
  intros Hlen Hp Hq Hc. unfold fillPixel. cbv zeta.
  change (Fin 1) with (ofZ 1). change (Fin 2) with (ofZ 2).
  change (Fin 3) with (ofZ 3).
  rewrite !index_ofZ, index0_ofZ.
  rewrite !wr_ofZ by (apply offset_range; [assumption|lia]).
  assert (Hr : forall e, 0 <= e < 4 -> (Z.to_nat (offset cw p e) < length d)%nat).
  { intros e He. pose proof (offset_range p e Hp He). lia. }
  assert (Hne : forall e, 0 <= e < 4 -> (q <> p \/ c <> e) ->
            Z.to_nat (offset cw p e) <> Z.to_nat (offset cw q c)).
  { intros e He Hdiff Heq.
    pose proof (offset_range p e Hp He). pose proof (offset_range q c Hq Hc).
    assert (Heq' : offset cw p e = offset cw q c) by lia.
    apply offset_inj in Heq' as [-> ->]; try assumption. tauto. }
  destruct (decide (q = p)) as [-> | Hqp].
  - unfold average.
    destruct (Z.eqb_spec c 0) as [-> | H0].
    { rewrite !list_lookup_insert_ne by (apply Hne; lia).
      apply list_lookup_insert_eq. apply Hr. lia. }
    destruct (Z.eqb_spec c 1) as [-> | H1].
    { rewrite !list_lookup_insert_ne by (apply Hne; lia).
      apply list_lookup_insert_eq. rewrite !length_insert. apply Hr. lia. }
    destruct (Z.eqb_spec c 2) as [-> | H2].
    { rewrite !list_lookup_insert_ne by (apply Hne; lia).
      apply list_lookup_insert_eq. rewrite !length_insert. apply Hr. lia. }
    assert (c = 3) as -> by lia.
    apply list_lookup_insert_eq. rewrite !length_insert. apply Hr. lia.
  - now rewrite !list_lookup_insert_ne by (apply Hne; [lia|now left]).
Qed.

End Block.

(* ===================================================================== *)
(** * The rounded mean                                                    *)
(* ===================================================================== *)

Lemma roundedMean_div (values : list Z) :
  values <> [] ->
  roundedMean values =
  (2 * sumZ values + Z.of_nat (length values)) / (2 * Z.of_nat (length values)).
Proof.
  intros Hne. unfold roundedMean.
  assert (Hn : 0 < Z.of_nat (length values)) by (destruct values; simpl; [congruence|lia]).
  rewrite Zdiv_Qdiv. apply Qfloor_comp.
  rewrite !inject_Z_plus, !inject_Z_mult.
  field. intros H. unfold Qeq in H. simpl in H. lia.
Qed.

Lemma sumZ_bytes (values : list Z) :
  Forall (fun v => 0 <= v <= 255) values ->
  0 <= sumZ values <= 255 * Z.of_nat (length values).
Proof.
  induction 1 as [|v l Hv Hl IH]; simpl; [lia|].
  simpl in IH. lia.
Qed.

(** The rounded mean of bytes is a byte. *)
Lemma roundedMean_byte (values : list Z) :
  values <> [] -> Forall (fun v => 0 <= v <= 255) values ->
  0 <= roundedMean values <= 255.
Proof.
  intros Hne Hb. rewrite roundedMean_div by assumption.
  pose proof (sumZ_bytes values Hb) as Hs.
  assert (Hn : 0 < Z.of_nat (length values)) by (destruct values; simpl; [congruence|lia]).
  split.
  - apply Z.div_pos; lia.
  - apply Z.lt_succ_r. apply Z.div_lt_upper_bound; lia.
Qed.

(** It is a nearest integer to the mean: twice its distance to the mean is
    at most 1. *)
Lemma roundedMean_nearest (values : list Z) :
  values <> [] ->
  let n := Z.of_nat (length values) in
  2 * Z.abs (roundedMean values * n - sumZ values) <= n.
Proof.
  intros Hne n. rewrite roundedMean_div by assumption. fold n.
  assert (Hn : 0 < n) by (unfold n; destruct values; simpl; [congruence|lia]).
  pose proof (Z.div_mod (2 * sumZ values + n) (2 * n) ltac:(lia)) as Hdm.
  pose proof (Z.mod_pos_bound (2 * sumZ values + n) (2 * n) ltac:(lia)) as Hmb.
  nia.
Qed.

(* ===================================================================== *)
(** * The block loops                                                     *)
(* ===================================================================== *)

Lemma foldM_pure {S A} (f : A -> S -> S) (l : list A) (s : S) :
  foldM (fun a s => Some (f a s)) l s = Some (fold_left (fun s a => f a s) l s).
Proof.
  revert s. induction l as [|a l IH]; intros s; simpl; [reflexivity|apply IH].
Qed.

Lemma NoDup_pairs (xs ys : list Z) :
  List.NoDup xs -> List.NoDup ys ->
  List.NoDup (flat_map (fun b => map (fun a => (a, b)) xs) ys).
Proof.
  intros Hx Hy. induction Hy as [|b ys Hb Hys IH]; simpl; [constructor|].
  apply List.NoDup_app.
  - apply Finite.Injective_map_NoDup; [|assumption].
    intros a a' Heq. now inversion Heq.
  - assumption.
  - intros [a b'] Hin1 Hin2.
    apply in_map_iff in Hin1 as (a' & Heq & _). inversion Heq; subst.
    apply in_flat_map in Hin2 as (b'' & Hb'' & Hin2).
    apply in_map_iff in Hin2 as (a'' & Heq2 & _). inversion Heq2; subst.
    contradiction.
Qed.

Section Pixelate.

Variables cw ch bs : Z.
Hypothesis cw_pos : 0 < cw.
Hypothesis ch_pos : 0 < ch.
Hypothesis bs_pos : 1 <= bs.

Lemma blockCorner_range limit k :
  0 <= k < limit ->
  0 <= blockCorner bs k <= k /\ k < blockCorner bs k + bs /\
  blockCorner bs (blockCorner bs k) = blockCorner bs k.
Proof.
  intros Hk. unfold blockCorner.
  pose proof (Z.div_mod k bs ltac:(lia)) as Hdm.
  pose proof (Z.mod_pos_bound k bs ltac:(lia)) as Hmb.
  assert (0 <= k / bs) by (apply Z.div_pos; lia).
  repeat split; try nia.
  rewrite Z.div_mul by lia. reflexivity.
Qed.

Lemma blockCorner_unique b k :
  blockCorner bs b = b -> b <= k < b + bs -> blockCorner bs k = b.
Proof.
  unfold blockCorner. intros Hb Hk.
  pose proof (Z.div_mod k bs ltac:(lia)) as Hdm.
  pose proof (Z.mod_pos_bound k bs ltac:(lia)) as Hmb.
  assert (k / bs = b / bs); [|congruence].
  remember (k / bs) as u. remember (b / bs) as v. nia.
Qed.

Lemma corners_In (B : Z * Z) :
  In B (corners cw ch bs) <->
  inArea cw ch B /\ cornerOf bs B = B.
Proof.
  unfold corners, inArea, cornerOf. destruct B as [bx by_]. simpl.
  rewrite in_flat_map. split.
  - intros (b & Hb & Hin). apply in_map_iff in Hin as (a & Heq & Ha).
    inversion Heq; subst.
    apply counter_In in Hb, Ha; try assumption.
    destruct Hb as [Hb1 Hb2], Ha as [Ha1 Ha2]. now rewrite Ha2, Hb2.
  - intros [[Hx Hy] Heq]. injection Heq as Hx' Hy'.
    exists by_. split.
    + apply counter_In; [assumption|]. now split.
    + apply in_map_iff. exists bx. split; [reflexivity|].
      apply counter_In; [assumption|]. now split.
Qed.

Lemma corners_NoDup : List.NoDup (corners cw ch bs).
Proof.
  unfold corners, counter. apply NoDup_pairs; apply upto_NoDup; lia.
Qed.

Lemma cornerOf_corner q :
  inArea cw ch q -> In (cornerOf bs q) (corners cw ch bs).
Proof.
  intros [Hx Hy]. apply corners_In. unfold inArea, cornerOf. simpl.
  pose proof (blockCorner_range cw (fst q) Hx) as (? & ? & ->).
  pose proof (blockCorner_range ch (snd q) Hy) as (? & ? & ->).
  repeat split; lia.
Qed.

(** The pixels of the area that the block at corner [B] holds are those
    whose block corner is [B]. *)
Lemma cells_cornerOf (B q : Z * Z) :
  In B (corners cw ch bs) -> inArea cw ch q ->
  In q (cells (fst B) (snd B) (Z.min bs (cw - fst B)) (Z.min bs (ch - snd B)))
  <-> cornerOf bs q = B.
Proof.
  intros HB [Hqx Hqy]. apply corners_In in HB as [[HBx HBy] HBc].
  destruct B as [bx by_], q as [qx qy]. simpl in *.
  unfold cornerOf in *. simpl in *. injection HBc as Hbx Hby.
  rewrite in_cells. split.
  - intros [Hx Hy]. f_equal; apply blockCorner_unique; lia.
  - intros Heq. injection Heq as Hx Hy.
    pose proof (blockCorner_range cw qx Hqx) as (? & ? & _).
    pose proof (blockCorner_range ch qy Hqy) as (? & ? & _).
    lia.
Qed.

Lemma cells_inArea (B : Z * Z) :
  In B (corners cw ch bs) ->
  Forall (inArea cw ch)
    (cells (fst B) (snd B) (Z.min bs (cw - fst B)) (Z.min bs (ch - snd B))).
Proof.
  intros HB. apply corners_In in HB as [[HBx HBy] _].
  apply List.Forall_forall. intros [px py] Hin. apply in_cells in Hin.
  unfold inArea. simpl. lia.
Qed.

End Pixelate.

Section PixelateData.

Variables cw ch bs : Z.
Hypothesis cw_pos : 0 < cw.
Hypothesis ch_pos : 0 < ch.
Hypothesis bs_pos : 1 <= bs.
Variable orig : list Z.
Hypothesis orig_length : Z.of_nat (length orig) = 4 * cw * ch.
Hypothesis orig_bytes : Forall (fun v => 0 <= v <= 255) orig.

Lemma sumBlock_ofZ (fuel : nat) (d : list Z) bx by_ bw bh :
  Z.of_nat (length d) = 4 * cw * ch ->
  Forall (inArea cw ch) (cells bx by_ bw bh) ->
  (Z.to_nat bw < fuel)%nat -> (Z.to_nat bh < fuel)%nat ->
  sumBlock fuel d (ofZ cw) (ofZ bx) (ofZ by_) (ofZ bw) (ofZ bh) =
  Some (sumsOf cw d 0 0 0 0 0 (cells bx by_ bw bh)).
Proof.
  intros Hlen Hin Hw Hh. unfold sumBlock.
  rewrite (for_lt_rect
             (fun py px acc =>
                let i := ((py * ofZ cw + px) * Fin 4)%js in
                Some (mkSums (sr acc + rd d i)%js
                             (sg acc + rd d (i + Fin 1))%js
                             (sb acc + rd d (i + Fin 2))%js
                             (sa acc + rd d (i + Fin 3))%js
                             (count acc + Fin 1)%js))) by assumption.
  change (Fin 0) with (ofZ 0).
  now apply (sum_cells cw ch cw_pos ch_pos d Hlen).
Qed.

Lemma fillBlock_ofZ (fuel : nat) (d : list Z) bx by_ bw bh avgR avgG avgB avgA :
  (Z.to_nat bw < fuel)%nat -> (Z.to_nat bh < fuel)%nat ->
  fillBlock fuel d (ofZ cw) (ofZ bx) (ofZ by_) (ofZ bw) (ofZ bh) avgR avgG avgB avgA =
  Some (fold_left (fun d p => fillPixel cw avgR avgG avgB avgA p d)
                  (cells bx by_ bw bh) d).
Proof.
  intros Hw Hh. unfold fillBlock.
  rewrite (for_lt_rect
             (fun py px data =>
                let i := ((py * ofZ cw + px) * Fin 4)%js in
                let data := wr data i avgR in
                let data := wr data (i + Fin 1)%js avgG in
                let data := wr data (i + Fin 2)%js avgB in
                let data := wr data (i + Fin 3)%js avgA in
                Some data)) by assumption.
  exact (foldM_pure (fillPixel cw avgR avgG avgB avgA) _ d).
Qed.

(** What the second pair of loops leaves: the averages in the block's
    pixels, every other pixel as it was. *)
Lemma fill_cells avgR avgG avgB avgA (cs : list (Z * Z)) :
  Forall (inArea cw ch) cs ->
  forall d, length d = length orig ->
    let d' := fold_left (fun d p => fillPixel cw avgR avgG avgB avgA p d) cs d in
    length d' = length orig /\
    forall q c, inArea cw ch q -> 0 <= c < 4 ->
      (In q cs -> d' !! Z.to_nat (offset cw q c) =
                  Some (ToUint8Clamp (average c avgR avgG avgB avgA))) /\
      (~ In q cs -> d' !! Z.to_nat (offset cw q c) = d !! Z.to_nat (offset cw q c)).
Proof.
  induction 1 as [|p cs Hp Hcs IH]; intros d Hlen; cbn [fold_left].
  - split; [assumption|]. intros q c Hq Hc. split; [intros []|reflexivity].
  - assert (Hlen' : length (fillPixel cw avgR avgG avgB avgA p d) = length orig).
    { rewrite (fillPixel_length cw ch cw_pos ch_pos orig orig_length) by assumption.
      assumption. }
    destruct (IH _ Hlen') as [IHlen IHq]. split; [assumption|].
    intros q c Hq Hc. destruct (IHq q c Hq Hc) as [IHin IHout].
    pose proof (fillPixel_lookup cw ch cw_pos ch_pos orig orig_length
                  avgR avgG avgB avgA p d q c Hlen Hp Hq Hc) as Hstep.
    destruct (decide (q = p)) as [-> | Hne].
    + split; [|intros Hnot; exfalso; apply Hnot; now left].
      intros _. destruct (in_dec (fun a b : Z * Z => decide (a = b)) p cs) as [Hin|Hnin].
      * now apply IHin.
      * rewrite IHout by assumption. exact Hstep.
    + split.
      * intros [Heq|Hin]; [congruence|now apply IHin].
      * intros Hnot. rewrite IHout by (intros Hin; apply Hnot; now right).
        exact Hstep.
Qed.

Lemma blocksDone_ext (P Q : Z * Z -> Prop) d :
  (forall B, P B <-> Q B) -> blocksDone cw ch bs orig P d -> blocksDone cw ch bs orig Q d.
Proof.
  intros HPQ [Hlen H]. split; [assumption|].
  intros q c Hq Hc. destruct (H q c Hq Hc) as [H1 H2]. split.
  - intros HQ. apply H1. now apply HPQ.
  - intros HQ. apply H2. intros HP. apply HQ. now apply HPQ.
Qed.

Lemma cells_nonempty (B : Z * Z) :
  In B (corners cw ch bs) ->
  cells (fst B) (snd B) (Z.min bs (cw - fst B)) (Z.min bs (ch - snd B)) <> [].
Proof.
  intros HB Hnil.
  assert (Hin : In B (cells (fst B) (snd B) (Z.min bs (cw - fst B)) (Z.min bs (ch - snd B)))).
  { apply corners_In in HB as [HBa HBc]; try assumption.
    apply (cells_cornerOf cw ch bs bs_pos B B); try assumption.
    apply corners_In; [assumption|]. now split. }
  rewrite Hnil in Hin. exact Hin.
Qed.

(** One run of the body of the block loops, on a block not yet done. *)
Lemma pixelateBlock_step (fuel : nat) (done : Z * Z -> Prop) (d : list Z) (B : Z * Z) :
  (Z.to_nat cw < fuel)%nat -> (Z.to_nat ch < fuel)%nat ->
  In B (corners cw ch bs) -> ~ done B -> blocksDone cw ch bs orig done d ->
  exists d',
    pixelateBlock fuel (ofZ cw) (ofZ ch) (ofZ bs) (ofZ (fst B)) (ofZ (snd B)) d = Some d' /\
    blocksDone cw ch bs orig (fun o => o = B \/ done o) d'.
Proof.
  intros Hfw Hfh HB Hnot [Hlen Hd].
  set (bw := Z.min bs (cw - fst B)). set (bh := Z.min bs (ch - snd B)).
  set (cs := cells (fst B) (snd B) bw bh).
  assert (Hcs : Forall (inArea cw ch) cs) by (now apply cells_inArea).
  assert (Hne : cs <> []) by (now apply cells_nonempty).
  assert (Hlen' : Z.of_nat (length d) = 4 * cw * ch) by (rewrite Hlen; assumption).
  pose proof HB as HB'. apply corners_In in HB' as [[HBx HBy] HBc]; [|assumption].
  (* the pixels of the block hold what they held at the start *)
  assert (Hsame : forall c, 0 <= c < 4 ->
            map (sample d cw c) cs = map (sample orig cw c) cs).
  { intros c Hc. apply map_ext_in. intros p Hp.
    assert (Hpa : inArea cw ch p) by (eapply List.Forall_forall; eassumption).
    unfold sample. destruct (Hd p c Hpa Hc) as [_ Hkeep].
    rewrite Hkeep; [reflexivity|].
    apply (cells_cornerOf cw ch bs bs_pos B p HB Hpa) in Hp. now rewrite Hp. }
  assert (Hblock : forall q, inArea cw ch q -> cornerOf bs q = B ->
            blockOf cw ch bs (fst q) (snd q) = cs).
  { intros q Hq Hc. unfold blockOf, blockExtent, cs, bw, bh.
    unfold cornerOf in Hc. rewrite <- Hc. reflexivity. }
  assert (Hbytes : forall c, Forall (fun v => 0 <= v <= 255) (map (sample orig cw c) cs)).
  { intros c. apply List.Forall_forall. intros v Hv.
    apply in_map_iff in Hv as (p & <- & _). unfold sample.
    destruct (orig !! Z.to_nat (offset cw p c)) as [v|] eqn:E; simpl; [|lia].
    exact (Forall_lookup_1 (fun v => 0 <= v <= 255) orig _ v orig_bytes E). }
  assert (Hmapne : forall c, map (sample orig cw c) cs <> []).
  { intros c Hnil. apply Hne. now apply map_eq_nil in Hnil. }
  unfold pixelateBlock. rewrite !sub_ofZ, !Math_min_ofZ. fold bw bh.
  rewrite sumBlock_ofZ; try assumption; try (unfold bw, bh; lia).
  fold cs. unfold sumsOf. cbn [sr sg sb sa count]. rewrite !Z.add_0_l.
  assert (Hcount : 0 < Z.of_nat (length cs)) by (destruct cs; simpl; [congruence|lia]).
  rewrite !round_div_ofZ by assumption.
  rewrite fillBlock_ofZ by (unfold bw, bh; lia). fold cs.
  eexists. split; [reflexivity|].
  match goal with |- blocksDone _ _ _ _ _ (fold_left _ cs d) =>
    pose proof (fill_cells
      (ofZ (Qfloor (inject_Z (sumZ (map (sample d cw 0) cs)) / inject_Z (Z.of_nat (length cs)) + (1 # 2))))
      (ofZ (Qfloor (inject_Z (sumZ (map (sample d cw 1) cs)) / inject_Z (Z.of_nat (length cs)) + (1 # 2))))
      (ofZ (Qfloor (inject_Z (sumZ (map (sample d cw 2) cs)) / inject_Z (Z.of_nat (length cs)) + (1 # 2))))
      (ofZ (Qfloor (inject_Z (sumZ (map (sample d cw 3) cs)) / inject_Z (Z.of_nat (length cs)) + (1 # 2))))
      cs Hcs d Hlen) as [Hflen Hfill]
  end.
  split; [exact Hflen|].
  intros q c Hq Hc. destruct (Hfill q c Hq Hc) as [Hin Hout].
  destruct (Hd q c Hq Hc) as [Hdone Hkeep].
  pose proof (cells_cornerOf cw ch bs bs_pos B q HB Hq) as Hiff. fold bw bh cs in Hiff.
  destruct (decide (cornerOf bs q = B)) as [Heq|Hneq].
  - split; [|intros Hn; exfalso; apply Hn; now left].
    intros _. rewrite Hin by (now apply Hiff). f_equal.
    unfold target. rewrite (Hblock q Hq Heq).
    assert (Hval : average c
              (ofZ (Qfloor (inject_Z (sumZ (map (sample d cw 0) cs)) / inject_Z (Z.of_nat (length cs)) + (1 # 2))))
              (ofZ (Qfloor (inject_Z (sumZ (map (sample d cw 1) cs)) / inject_Z (Z.of_nat (length cs)) + (1 # 2))))
              (ofZ (Qfloor (inject_Z (sumZ (map (sample d cw 2) cs)) / inject_Z (Z.of_nat (length cs)) + (1 # 2))))
              (ofZ (Qfloor (inject_Z (sumZ (map (sample d cw 3) cs)) / inject_Z (Z.of_nat (length cs)) + (1 # 2))))
            = ofZ (roundedMean (map (sample orig cw c) cs))).
    { unfold average, roundedMean. rewrite length_map.
      destruct (Z.eqb_spec c 0) as [-> | H0]; [now rewrite Hsame by lia|].
      destruct (Z.eqb_spec c 1) as [-> | H1]; [now rewrite Hsame by lia|].
      destruct (Z.eqb_spec c 2) as [-> | H2]; [now rewrite Hsame by lia|].
      assert (c = 3) as -> by lia. now rewrite Hsame by lia. }
    rewrite Hval. apply ToUint8Clamp_ofZ. apply roundedMean_byte; auto.
  - assert (Hnin : ~ In q cs) by (intros Hin'; apply Hneq; now apply Hiff).
    split.
    + intros [Heq|Hdn]; [congruence|]. rewrite Hout by assumption. now apply Hdone.
    + intros Hn. rewrite Hout by assumption. apply Hkeep.
      intros Hdn. apply Hn. now right.
Qed.

(** The block loops on a list of corners, none done and none twice. *)
Lemma pixelateBlocks_fold (fuel : nat) (l : list (Z * Z)) :
  (Z.to_nat cw < fuel)%nat -> (Z.to_nat ch < fuel)%nat ->
  List.NoDup l -> (forall B, In B l -> In B (corners cw ch bs)) ->
  forall (done : Z * Z -> Prop) (d : list Z),
    (forall B, In B l -> ~ done B) -> blocksDone cw ch bs orig done d ->
    exists d',
      foldM (fun p => pixelateBlock fuel (ofZ cw) (ofZ ch) (ofZ bs) (ofZ (fst p)) (ofZ (snd p)))
            l d = Some d' /\
      blocksDone cw ch bs orig (fun o => In o l \/ done o) d'.
Proof.
  intros Hfw Hfh Hnd. induction Hnd as [|B l HBl Hl IH]; intros Hcorner done d Hnot Hd.
  - exists d. split; [reflexivity|].
    eapply blocksDone_ext; [|exact Hd]. intros o. simpl. tauto.
  - destruct (pixelateBlock_step fuel done d B Hfw Hfh) as (d1 & Hd1 & Hdone1);
      [apply Hcorner; now left|apply Hnot; now left|assumption|].
    destruct (IH (fun B' HB' => Hcorner B' (or_intror HB'))
                 (fun o => o = B \/ done o) d1) as (d' & Hd' & Hdone');
      [|assumption|].
    { intros B' HB' [-> | Hdn]; [contradiction|].
      apply (Hnot B'); [now right|assumption]. }
    exists d'. split.
    + cbn [foldM]. rewrite Hd1. exact Hd'.
    + eapply blocksDone_ext; [|exact Hdone']. intros o. simpl.
      split; [intros [?|[?|?]]|intros [[?|?]|?]]; auto.
Qed.

(** The block loops of [applyPixelation] end and leave, in every channel of
    every pixel, the rounded mean of that channel over the pixel's block. *)
Lemma pixelateData_spec (fuel : nat) :
  (Z.to_nat cw < fuel)%nat -> (Z.to_nat ch < fuel)%nat ->
  exists d',
    pixelateData fuel (ofZ cw) (ofZ ch) (ofZ bs) orig = Some d' /\
    length d' = length orig /\
    forall q c, inArea cw ch q -> 0 <= c < 4 ->
      d' !! Z.to_nat (offset cw q c) = Some (target cw ch bs orig q c).
Proof.
  intros Hfw Hfh. unfold pixelateData.
  rewrite (for_lt_grid
             (fun blockY blockX data =>
                pixelateBlock fuel (ofZ cw) (ofZ ch) (ofZ bs) blockX blockY data))
    by assumption.
  destruct (pixelateBlocks_fold fuel (corners cw ch bs) Hfw Hfh
              (corners_NoDup cw ch bs bs_pos) (fun B HB => HB)
              (fun _ => False) orig) as (d' & Hd' & Hlen & Hdone).
  - intros B _ [].
  - split; [reflexivity|]. intros q c Hq Hc. split; [intros []|reflexivity].
  - exists d'. split; [exact Hd'|]. split; [exact Hlen|].
    intros q c Hq Hc. apply Hdone; try assumption.
    left. now apply cornerOf_corner.
Qed.

End PixelateData.

(* ===================================================================== *)
(** * The canvas                                                          *)
(* ===================================================================== *)

Lemma mapi_length f : forall l start, length (mapi f start l) = length l.
Proof. induction l as [|v l IH]; intros start; simpl; [reflexivity|]. now rewrite IH. Qed.

Lemma mapi_lookup f : forall l start (n : nat),
  mapi f start l !! n = f (start + Z.of_nat n) <$> (l !! n).
Proof.
  induction l as [|v l IH]; intros start n; [reflexivity|].
  destruct n as [|n]; simpl.
  - now rewrite Z.add_0_r.
  - rewrite IH. do 2 f_equal. lia.
Qed.

(** An index of the bitmap read back as column, row and channel. *)
Lemma offset_decompose w p c :
  0 <= fst p < w -> 0 <= c < 4 ->
  offset w p c mod 4 = c /\
  (offset w p c / 4) mod w = fst p /\
  (offset w p c / 4) / w = snd p.
Proof.
  intros Hp Hc. unfold offset.
  assert (H4 : ((snd p * w + fst p) * 4 + c) / 4 = snd p * w + fst p).
  { symmetry. apply (Z.div_unique_pos _ 4 _ c); lia. }
  rewrite H4. repeat split.
  - symmetry. apply (Z.mod_unique_pos _ 4 (snd p * w + fst p) c); lia.
  - symmetry. apply (Z.mod_unique_pos _ w (snd p)); lia.
  - symmetry. apply (Z.div_unique_pos _ w _ (fst p)); lia.
Qed.

Lemma getPixel_in ctx X Y c :
  0 <= X < canvasWidth ctx -> 0 <= Y < canvasHeight ctx ->
  getPixel ctx X Y c =
  default 0 (bitmap ctx !! Z.to_nat (offset (canvasWidth ctx) (X, Y) c)).
Proof.
  intros HX HY. unfold getPixel, offset. simpl.
  destruct (Z.leb_spec 0 X); [|lia].
  destruct (Z.ltb_spec X (canvasWidth ctx)); [|lia].
  destruct (Z.leb_spec 0 Y); [|lia].
  destruct (Z.ltb_spec Y (canvasHeight ctx)); [|lia].
  reflexivity.
Qed.

Lemma getPixel_byte ctx X Y c :
  wfContext ctx -> 0 <= getPixel ctx X Y c <= 255.
Proof.
  intros (_ & _ & _ & Hb). unfold getPixel.
  destruct (_ && _); [|lia].
  destruct (bitmap ctx !! _) as [v|] eqn:E; simpl; [|lia].
  exact (Forall_lookup_1 (fun v => 0 <= v <= 255) _ _ v Hb E).
Qed.

(** The image data [getImageData] returns for a rectangle inside the
    canvas. *)
Lemma getImageData_inside ctx cx cy cw ch :
  wfContext ctx ->
  0 <= cx -> 0 <= cy -> 0 < cw -> 0 < ch ->
  cx + cw <= canvasWidth ctx -> cy + ch <= canvasHeight ctx ->
  exists d0,
    getImageData ctx (ofZ cx) (ofZ cy) (ofZ cw) (ofZ ch) = Some (mkImageData cw ch d0) /\
    Z.of_nat (length d0) = 4 * cw * ch /\
    Forall (fun v => 0 <= v <= 255) d0 /\
    forall q c, inArea cw ch q -> 0 <= c < 4 ->
      d0 !! Z.to_nat (offset cw q c) = Some (getPixel ctx (cx + fst q) (cy + snd q) c).
Proof.
  intros Hwf Hcx Hcy Hcw Hch HW HH. pose proof Hwf as (HWr & HHr & _).
  unfold getImageData. rewrite !ToInt32_ofZ by lia.
  destruct (Z.eqb_spec cw 0); [lia|]. destruct (Z.eqb_spec ch 0); [lia|].
  destruct (Z.ltb_spec cw 0); [lia|]. destruct (Z.ltb_spec ch 0); [lia|].
  cbn [orb]. eexists. split; [reflexivity|]. split; [|split].
  - rewrite length_map, length_seqZ. nia.
  - apply List.Forall_forall. intros v Hv.
    apply in_map_iff in Hv as (k & <- & _). now apply getPixel_byte.
  - intros q c Hq Hc.
    assert (Ho : 0 <= offset cw q c < 4 * cw * ch).
    { unfold inArea, offset in *. destruct q as [qx qy]. simpl in *. nia. }
    change (map ?f ?l) with (f <$> l). rewrite list_lookup_fmap.
    rewrite lookup_seqZ_lt by lia.
    rewrite Z.add_0_l, Z2Nat.id by lia.
    destruct Hq as [Hqx Hqy].
    destruct (offset_decompose cw q c Hqx Hc) as (H1 & H2 & H3).
    cbn [fmap option_fmap option_map]. now rewrite H1, H2, H3.
Qed.

(** The canvas after [putImageData] of image data that lies inside it. *)
Lemma putImageData_inside ctx cx cy cw ch d :
  wfContext ctx ->
  0 <= cx -> 0 <= cy -> 0 < cw -> 0 < ch ->
  cx + cw <= canvasWidth ctx -> cy + ch <= canvasHeight ctx ->
  Z.of_nat (length d) = 4 * cw * ch ->
  let ctx' := putImageData ctx (mkImageData cw ch d) (ofZ cx) (ofZ cy) in
  canvasWidth ctx' = canvasWidth ctx /\ canvasHeight ctx' = canvasHeight ctx /\
  length (bitmap ctx') = length (bitmap ctx) /\
  fillStyle ctx' = fillStyle ctx /\
  forall X Y c, 0 <= c < 4 ->
    getPixel ctx' X Y c =
    if (cx <=? X) && (X <? cx + cw) && (cy <=? Y) && (Y <? cy + ch)
    then default 0 (d !! Z.to_nat (offset cw (X - cx, Y - cy) c))
    else getPixel ctx X Y c.
Proof.
  intros Hwf Hcx Hcy Hcw Hch HW HH Hd ctx'.
  pose proof Hwf as (HWr & HHr & Hlen & _).
  subst ctx'. unfold putImageData. rewrite !ToInt32_ofZ by lia.
  cbn [canvasWidth canvasHeight bitmap fillStyle imageWidth imageHeight data].
  repeat split; [apply mapi_length|].
  intros X Y c Hc.
  destruct (decide (0 <= X < canvasWidth ctx /\ 0 <= Y < canvasHeight ctx)) as [[HX HY]|Hout].
  - rewrite (getPixel_in ctx X Y c HX HY).
    rewrite (getPixel_in (mkContext _ _ _ _) X Y c HX HY).
    cbn [canvasWidth canvasHeight bitmap].
    rewrite mapi_lookup.
    assert (Ho : 0 <= offset (canvasWidth ctx) (X, Y) c < 4 * canvasWidth ctx * canvasHeight ctx).
    { unfold offset. simpl. nia. }
    destruct (lookup_lt_is_Some_2 (bitmap ctx) (Z.to_nat (offset (canvasWidth ctx) (X, Y) c)))
      as [v Hv]; [lia|].
    rewrite Hv. simpl. rewrite Z.add_0_l, Z2Nat.id by lia.
    destruct (offset_decompose (canvasWidth ctx) (X, Y) c HX Hc) as (-> & -> & ->).
    simpl.
    destruct ((cx <=? X) && (X <? cx + cw) && (cy <=? Y) && (Y <? cy + ch)) eqn:E;
      [|reflexivity].
    apply andb_true_iff in E as [E E4]. apply andb_true_iff in E as [E E3].
    apply andb_true_iff in E as [E1 E2].
    apply Z.leb_le in E1, E3. apply Z.ltb_lt in E2, E4.
    assert (Hor : 0 <= offset cw (X - cx, Y - cy) c < 4 * cw * ch).
    { unfold offset. simpl. nia. }
    destruct (lookup_lt_is_Some_2 d (Z.to_nat (offset cw (X - cx, Y - cy) c)))
      as [u Hu]; [lia|].
    unfold offset in Hu |- *. simpl in Hu |- *. now rewrite Hu.
  - assert (Hf : (cx <=? X) && (X <? cx + cw) && (cy <=? Y) && (Y <? cy + ch) = false).
    { apply not_true_iff_false. intros E. apply Hout.
      apply andb_true_iff in E as [E E4]. apply andb_true_iff in E as [E E3].
      apply andb_true_iff in E as [E1 E2].
      apply Z.leb_le in E1, E3. apply Z.ltb_lt in E2, E4. lia. }
    rewrite Hf. unfold getPixel. cbn [canvasWidth canvasHeight].
    destruct ((0 <=? X) && (X <? canvasWidth ctx) && (0 <=? Y) && (Y <? canvasHeight ctx)) eqn:E;
      [|reflexivity].
    exfalso. apply Hout.
    apply andb_true_iff in E as [E E4]. apply andb_true_iff in E as [E E3].
    apply andb_true_iff in E as [E1 E2].
    apply Z.leb_le in E1, E3. apply Z.ltb_lt in E2, E4. lia.
Qed.

(* ===================================================================== *)
(** * applyPixelation                                                     *)
(* ===================================================================== *)

Lemma Math_max_0_whole (a : number) (c : Z) :
  Math_max (Fin 0) a = ofZ c -> 0 <= c.
Proof.
  destruct a as [q| | |]; unfold Math_max, lt; try discriminate.
  - destruct (Qltb 0 q) eqn:E; intros H.
    + unfold ofZ in H. injection H as ->. apply Qltb_lt in E.
      change 0%Q with (inject_Z 0) in E. rewrite <- Zlt_Qlt in E. lia.
    + change (Fin 0) with (ofZ 0) in H. apply ofZ_inj in H. lia.
  - intros H. change (Fin 0) with (ofZ 0) in H. apply ofZ_inj in H. lia.
Qed.

Lemma Math_min_whole_le (a : number) (b c : Z) :
  Math_min a (ofZ b) = ofZ c -> c <= b.
Proof.
  destruct a as [q| | |]; unfold Math_min, lt; try discriminate.
  - change (ofZ b) with (Fin (inject_Z b)).
    destruct (Qltb (inject_Z b) q) eqn:E; intros H.
    + apply ofZ_inj in H. lia.
    + unfold ofZ in H. injection H as ->. apply Qltb_ge in E.
      rewrite <- Zle_Qle in E. lia.
  - change (ofZ b) with (Fin (inject_Z b)). intros H. apply ofZ_inj in H. lia.
Qed.

(** A clamp that yields whole numbers yields a rectangle that starts inside
    the canvas and does not pass its right and bottom edges. *)
Lemma clampToCanvas_whole ctx region cx cy cw ch :
  clampToCanvas ctx region = (ofZ cx, ofZ cy, ofZ cw, ofZ ch) ->
  0 <= cx /\ 0 <= cy /\
  cx + cw <= canvasWidth ctx /\ cy + ch <= canvasHeight ctx.
Proof.
  unfold clampToCanvas. intros H.
  pose proof (f_equal (fun t => fst (fst (fst t))) H) as Hx.
  pose proof (f_equal (fun t => snd (fst (fst t))) H) as Hy.
  pose proof (f_equal (fun t => snd (fst t)) H) as Hw.
  pose proof (f_equal (fun t => snd t) H) as Hh.
  cbn [fst snd] in Hx, Hy, Hw, Hh.
  rewrite Hx, sub_ofZ in Hw. rewrite Hy, sub_ofZ in Hh.
  apply Math_max_0_whole in Hx, Hy. apply Math_min_whole_le in Hw, Hh. lia.
Qed.

(** With finite geometry the clamp is made of whole numbers. *)
Lemma clampToCanvas_finite ctx region :
  finiteGeometry region = true ->
  exists cx cy cw ch,
    clampToCanvas ctx region = (ofZ cx, ofZ cy, ofZ cw, ofZ ch).
Proof.
  unfold finiteGeometry. intros H.
  apply andb_true_iff in H as [H Hh]. apply andb_true_iff in H as [H Hw].
  apply andb_true_iff in H as [Hx Hy].
  apply isFinite_Fin in Hx as [qx Hx], Hy as [qy Hy], Hw as [qw Hw], Hh as [qh Hh].
  unfold clampToCanvas. rewrite Hx, Hy, Hw, Hh. cbn [Math_round].
  change (Fin 0) with (ofZ 0). rewrite !Math_max_ofZ, !sub_ofZ, !Math_min_ofZ.
  now eexists _, _, _, _.
Qed.

(** The blocks partition the area: a pixel lies in the block of another
    exactly when the two have the same block. *)
Lemma blockOf_partition cw ch bs (p q : Z * Z) :
  1 <= bs -> inArea cw ch p -> inArea cw ch q ->
  (In q (blockOf cw ch bs (fst p) (snd p)) <->
   blockOf cw ch bs (fst q) (snd q) = blockOf cw ch bs (fst p) (snd p)).
Proof.
  intros Hbs Hp Hq.
  assert (Hiff : forall p q, inArea cw ch p -> inArea cw ch q ->
            (In q (blockOf cw ch bs (fst p) (snd p)) <-> cornerOf bs q = cornerOf bs p)).
  { intros p' q' Hp' Hq'.
    apply (cells_cornerOf cw ch bs Hbs (cornerOf bs p') q'); [|assumption].
    now apply cornerOf_corner. }
  rewrite Hiff by assumption. split.
  - intros Heq. unfold blockOf, blockExtent. unfold cornerOf in Heq.
    injection Heq as -> ->. reflexivity.
  - intros Heq. apply Hiff; [assumption|assumption|].
    rewrite <- Heq. now apply Hiff.
Qed.

Lemma blockOf_inArea cw ch bs (p : Z * Z) :
  1 <= bs -> inArea cw ch p ->
  Forall (inArea cw ch) (blockOf cw ch bs (fst p) (snd p)).
Proof.
  intros Hbs Hp.
  apply (cells_inArea cw ch bs Hbs (cornerOf bs p)). now apply cornerOf_corner.
Qed.

Lemma blockOf_size cw ch bs (p : Z * Z) :
  1 <= bs -> inArea cw ch p ->
  0 < Z.of_nat (length (blockOf cw ch bs (fst p) (snd p))) <= bs * bs.
Proof.
  intros Hbs [Hx Hy]. unfold blockOf, blockExtent.
  pose proof (blockCorner_range bs Hbs cw (fst p) Hx) as (? & ? & _).
  pose proof (blockCorner_range bs Hbs ch (snd p) Hy) as (? & ? & _).
  rewrite length_cells by lia. nia.
Qed.

(** [applyPixelation] on a clamp [cx, cy, cw, ch] of whole numbers that is
    not empty, with a whole block size [bs >= 1]: the call returns, the
    rectangle holds the block means and nothing else has changed. *)
Lemma applyPixelation_returns ctx region cx cy cw ch bs :
  wfContext ctx ->
  clampToCanvas ctx region = (ofZ cx, ofZ cy, ofZ cw, ofZ ch) ->
  0 < cw -> 0 < ch ->
  blockSize region = ofZ bs -> 1 <= bs ->
  forall fuel : nat, (S (Z.to_nat (Z.max cw ch)) <= fuel)%nat ->
  exists ctx',
    applyPixelation fuel ctx region = Ret ctx' /\
    canvasWidth ctx' = canvasWidth ctx /\ canvasHeight ctx' = canvasHeight ctx /\
    length (bitmap ctx') = length (bitmap ctx) /\
    fillStyle ctx' = fillStyle ctx /\
    (forall px py c, 0 <= px < cw -> 0 <= py < ch -> 0 <= c < 4 ->
       getPixel ctx' (cx + px) (cy + py) c =
       roundedMean (map (fun p => getPixel ctx (cx + fst p) (cy + snd p) c)
                        (blockOf cw ch bs px py))) /\
    (forall X Y c, 0 <= c < 4 ->
       ~ (cx <= X < cx + cw /\ cy <= Y < cy + ch) ->
       getPixel ctx' X Y c = getPixel ctx X Y c).
Proof.
  intros Hwf Hclamp Hcw Hch Hbsz Hbs fuel Hfuel.
  destruct (clampToCanvas_whole _ _ _ _ _ _ Hclamp) as (Hcx & Hcy & HW & HH).
  destruct (getImageData_inside ctx cx cy cw ch Hwf Hcx Hcy Hcw Hch HW HH)
    as (d0 & Hget & Hlen0 & Hbytes0 & Hd0).
  destruct (pixelateData_spec cw ch bs Hcw Hch Hbs d0 Hlen0 Hbytes0 fuel)
    as (d' & Hpix & Hlen' & Hd'); [lia|lia|].
  assert (Hlen'' : Z.of_nat (length d') = 4 * cw * ch) by (rewrite Hlen'; assumption).
  pose proof (putImageData_inside ctx cx cy cw ch d' Hwf Hcx Hcy Hcw Hch HW HH Hlen'')
    as (HpW & HpH & HpL & HpF & Hput).
  eexists. split.
  { unfold applyPixelation. rewrite Hclamp. cbv beta iota.
    change (Fin 0) with (ofZ 0). rewrite !le_ofZ.
    destruct (Z.leb_spec cw 0); [lia|]. destruct (Z.leb_spec ch 0); [lia|].
    cbn [orb]. rewrite Hget, Hbsz. cbn [data imageWidth imageHeight].
    rewrite Hpix. reflexivity. }
  split; [exact HpW|]. split; [exact HpH|]. split; [exact HpL|].
  split; [exact HpF|]. split.
  - intros px py c Hpx Hpy Hc.
    rewrite Hput by assumption.
    destruct (Z.leb_spec cx (cx + px)); [|lia].
    destruct (Z.ltb_spec (cx + px) (cx + cw)); [|lia].
    destruct (Z.leb_spec cy (cy + py)); [|lia].
    destruct (Z.ltb_spec (cy + py) (cy + ch)); [|lia].
    cbn [andb]. replace (cx + px - cx) with px by lia.
    replace (cy + py - cy) with py by lia.
    rewrite (Hd' (px, py) c) by (unfold inArea; simpl; lia || assumption).
    simpl. unfold target. f_equal. apply map_ext_in.
    intros p Hp. unfold sample.
    assert (Hpa : inArea cw ch p).
    { pose proof (blockOf_inArea cw ch bs (px, py) Hbs) as Hall.
      eapply List.Forall_forall; [apply Hall; unfold inArea; simpl; lia|exact Hp]. }
    now rewrite (Hd0 p c Hpa Hc).
  - intros X Y c Hc Hout. rewrite Hput by assumption.
    destruct ((cx <=? X) && (X <? cx + cw) && (cy <=? Y) && (Y <? cy + ch)) eqn:E;
      [|reflexivity].
    exfalso. apply Hout.
    apply andb_true_iff in E as [E E4]. apply andb_true_iff in E as [E E3].
    apply andb_true_iff in E as [E1 E2].
    apply Z.leb_le in E1, E3. apply Z.ltb_lt in E2, E4. lia.
Qed.

(** C5.  On a well-formed canvas, for a region whose clamp is the whole
    rectangle [cx, cy, cw, ch] with [cw > 0], [ch > 0] and whose block size
    is a whole number [bs >= 1], [applyPixelation] returns, and
    - the blocks [blockOf] are a partition of the rectangle into pieces of
      at most [bs] x [bs] pixels, clipped at its right and bottom edges;
    - every channel (red, green, blue, alpha) of every pixel of the
      rectangle holds the mean of that channel over the pixel's block in the
      canvas as it was, rounded to a nearest integer;
    - every pixel outside the rectangle is as it was. *)
Theorem applyPixelation_block_means ctx region cx cy cw ch bs :
  wfContext ctx ->
  clampToCanvas ctx region = (ofZ cx, ofZ cy, ofZ cw, ofZ ch) ->
  0 < cw -> 0 < ch ->
  blockSize region = ofZ bs -> 1 <= bs ->
  (forall p q, inArea cw ch p -> inArea cw ch q ->
     Forall (inArea cw ch) (blockOf cw ch bs (fst p) (snd p)) /\
     0 < Z.of_nat (length (blockOf cw ch bs (fst p) (snd p))) <= bs * bs /\
     (In q (blockOf cw ch bs (fst p) (snd p)) <->
      blockOf cw ch bs (fst q) (snd q) = blockOf cw ch bs (fst p) (snd p))) /\
  exists fuel0 : nat, forall fuel : nat, (fuel0 <= fuel)%nat ->
  exists ctx',
    applyPixelation fuel ctx region = Ret ctx' /\
    canvasWidth ctx' = canvasWidth ctx /\ canvasHeight ctx' = canvasHeight ctx /\
    (forall px py c, 0 <= px < cw -> 0 <= py < ch -> 0 <= c < 4 ->
       let values := map (fun p => getPixel ctx (cx + fst p) (cy + snd p) c)
                         (blockOf cw ch bs px py) in
       getPixel ctx' (cx + px) (cy + py) c = roundedMean values /\
       2 * Z.abs (roundedMean values * Z.of_nat (length values) - sumZ values)
         <= Z.of_nat (length values)) /\
    (forall X Y c, 0 <= c < 4 ->
       ~ (cx <= X < cx + cw /\ cy <= Y < cy + ch) ->
       getPixel ctx' X Y c = getPixel ctx X Y c).
Proof.
  intros Hwf Hclamp Hcw Hch Hbsz Hbs. split.
  { intros p q Hp Hq. split; [now apply blockOf_inArea|].
    split; [now apply blockOf_size|now apply blockOf_partition]. }
  exists (S (Z.to_nat (Z.max cw ch))). intros fuel Hfuel.
  destruct (applyPixelation_returns ctx region cx cy cw ch bs
              Hwf Hclamp Hcw Hch Hbsz Hbs fuel Hfuel)
    as (ctx' & Hret & HW & HH & _ & _ & Hin & Hout).
  exists ctx'. split; [exact Hret|]. split; [exact HW|]. split; [exact HH|].
  split; [|exact Hout].
  intros px py c Hpx Hpy Hc values. split; [now apply Hin|].
  apply roundedMean_nearest. unfold values. intros Hnil.
  apply map_eq_nil in Hnil.
  pose proof (blockOf_size cw ch bs (px, py) Hbs) as Hsz.
  simpl in Hsz. rewrite Hnil in Hsz. simpl in Hsz.
  unfold inArea in Hsz. simpl in Hsz. lia.
Qed.

Lemma wfContextb_wf ctx : wfContextb ctx = true -> wfContext ctx.
Proof.
  unfold wfContextb, wfContext. intros H.
  apply andb_true_iff in H as [H Hb]. apply andb_true_iff in H as [H Hlen].
  apply andb_true_iff in H as [H H4]. apply andb_true_iff in H as [H H3].
  apply andb_true_iff in H as [H1 H2].
  apply Z.leb_le in H1, H3. apply Z.ltb_lt in H2, H4. apply Z.eqb_eq in Hlen.
  repeat split; try assumption.
  apply List.Forall_forall. intros v Hv.
  rewrite forallb_forall in Hb. specialize (Hb v Hv).
  apply andb_true_iff in Hb as [H5 H6]. apply Z.leb_le in H5, H6. lia.
Qed.

Lemma applyPixelation_block_means_witness :
  let ctx := gradientContext 5 4 in
  let region := mkRegion "r" (Fin (3 # 2)) (Fin 1) (Fin 3) (Fin 7) pixelate (Fin 2) "#000000" in
  (forall p q, inArea 3 3 p -> inArea 3 3 q ->
     Forall (inArea 3 3) (blockOf 3 3 2 (fst p) (snd p)) /\
     0 < Z.of_nat (length (blockOf 3 3 2 (fst p) (snd p))) <= 2 * 2 /\
     (In q (blockOf 3 3 2 (fst p) (snd p)) <->
      blockOf 3 3 2 (fst q) (snd q) = blockOf 3 3 2 (fst p) (snd p))) /\
  exists fuel0 : nat, forall fuel : nat, (fuel0 <= fuel)%nat ->
  exists ctx',
    applyPixelation fuel ctx region = Ret ctx' /\
    canvasWidth ctx' = canvasWidth ctx /\ canvasHeight ctx' = canvasHeight ctx /\
    (forall px py c, 0 <= px < 3 -> 0 <= py < 3 -> 0 <= c < 4 ->
       let values := map (fun p => getPixel ctx (2 + fst p) (1 + snd p) c)
                         (blockOf 3 3 2 px py) in
       getPixel ctx' (2 + px) (1 + py) c = roundedMean values /\
       2 * Z.abs (roundedMean values * Z.of_nat (length values) - sumZ values)
         <= Z.of_nat (length values)) /\
    (forall X Y c, 0 <= c < 4 ->
       ~ (2 <= X < 2 + 3 /\ 1 <= Y < 1 + 3) ->
       getPixel ctx' X Y c = getPixel ctx X Y c).
Proof.
  apply (applyPixelation_block_means (gradientContext 5 4)
           (mkRegion "r" (Fin (3 # 2)) (Fin 1) (Fin 3) (Fin 7) pixelate (Fin 2) "#000000")
           2 1 3 3 2).
  - apply wfContextb_wf. vm_compute. reflexivity.
  - vm_compute. reflexivity.
  - lia.
  - lia.
  - reflexivity.
  - lia.
Defined.

(** The same call, run: the 3 x 3 rectangle at (2, 1) is cut into blocks of
    2 x 2, 1 x 2, 2 x 1 and 1 x 1 pixels. *)
Example applyPixelation_run :
  exists ctx',
    applyPixelation 10 (gradientContext 5 4)
      (mkRegion "r" (Fin (3 # 2)) (Fin 1) (Fin 3) (Fin 7) pixelate (Fin 2) "#000000")
    = Ret ctx' /\
    map (fun px => getPixel (gradientContext 5 4) px 1 0) [0; 1; 2; 3; 4] = [0; 7; 14; 21; 28] /\
    map (fun px => getPixel ctx' px 1 0) [0; 1; 2; 3; 4] = [0; 7; 18; 18; 28] /\
    map (fun py => getPixel ctx' 4 py 1) [0; 1; 2; 3] = [0; 8; 8; 15].
Proof. eexists. split; [vm_compute; reflexivity|]. vm_compute. repeat split. Qed.

(* ===================================================================== *)
(** * The block size                                                      *)
(* ===================================================================== *)

(** A loop whose counter starts at or below zero and whose step is zero or
    negative never leaves a positive bound behind: it uses up any fuel. *)
Lemma for_lt_stuck {S} (body : number -> S -> option S) (bound : Z) (step : Q) :
  0 < bound -> (step <= 0)%Q ->
  forall (fuel : nat) (v : Q) (s : S),
    (v <= 0)%Q -> for_lt fuel (Fin v) (ofZ bound) (Fin step) body s = None.
Proof.
  intros Hb Hstep. induction fuel as [|f IH]; intros v s Hv; [reflexivity|].
  cbn [for_lt].
  assert (Hlt : (Fin v <? ofZ bound)%js = true).
  { unfold lt, ofZ. apply Qltb_lt.
    apply Qle_lt_trans with (y := 0%Q); [assumption|].
    change 0%Q with (inject_Z 0). rewrite <- Zlt_Qlt. lia. }
  rewrite Hlt. destruct (body (Fin v) s) as [s'|]; [|reflexivity].
  apply IH. lra.
Qed.

Lemma Qabs_nonneg_eq (q : Q) : (0 <= q)%Q -> Qabs q = q.
Proof.
  destruct q as [n d]. unfold Qle, Qabs. simpl. intros H.
  f_equal. apply Z.abs_eq. lia.
Qed.

(** C10.  A region of finite size at least 2 x 2 is stored by [addRegion]
    with whatever block size the caller gives.  When its clamp to the canvas
    is not empty, [applyPixelation] on it never returns if the block size is
    a finite number that is zero or negative, and returns if the block size
    is a whole number of at least 1. *)
Theorem blockSize_unchecked_and_decides_termination region ctx cx cy cw ch (qw qh : Q) :
  width region = Fin qw -> (2 <= qw)%Q ->
  height region = Fin qh -> (2 <= qh)%Q ->
  wfContext ctx ->
  clampToCanvas ctx region = (ofZ cx, ofZ cy, ofZ cw, ofZ ch) ->
  0 < cw -> 0 < ch ->
  addRegion initialStore (id region) (x region) (y region) (width region)
            (height region) (mode region) (blockSize region) (fillColor region)
    = (mkStore [region] [[]] [], Some (id region)) /\
  (forall q : Q, blockSize region = Fin q -> (q <= 0)%Q ->
     forall fuel : nat, applyPixelation fuel ctx region = OutOfFuel) /\
  (forall bs : Z, blockSize region = ofZ bs -> 1 <= bs ->
     exists fuel0 : nat, forall fuel : nat, (fuel0 <= fuel)%nat ->
     exists ctx', applyPixelation fuel ctx region = Ret ctx').
Proof.
  intros Hw Hqw Hh Hqh Hwf Hclamp Hcw Hch. split; [|split].
  - destruct region as [rid rx ry rw rh rm rb rc]. simpl in *. subst rw rh.
    rewrite addRegion_accepted; simpl.
    + assert (E1 : Qltb qw 0 = false) by (apply Qltb_ge; lra).
      assert (E2 : Qltb qh 0 = false) by (apply Qltb_ge; lra).
      rewrite E1, E2, !Qabs_nonneg_eq by lra. reflexivity.
    + apply Qltb_ge. rewrite Qabs_nonneg_eq by lra. assumption.
    + apply Qltb_ge. rewrite Qabs_nonneg_eq by lra. assumption.
  - intros q Hbs Hq fuel.
    destruct (clampToCanvas_whole _ _ _ _ _ _ Hclamp) as (Hcx & Hcy & HW & HH).
    destruct (getImageData_inside ctx cx cy cw ch Hwf Hcx Hcy Hcw Hch HW HH)
      as (d0 & Hget & _).
    unfold applyPixelation. rewrite Hclamp. cbv beta iota.
    change (Fin 0) with (ofZ 0). rewrite !le_ofZ.
    destruct (Z.leb_spec cw 0); [lia|]. destruct (Z.leb_spec ch 0); [lia|].
    cbn [orb]. rewrite Hget, Hbs. cbn [data imageWidth imageHeight].
    unfold pixelateData. change (ofZ 0) with (Fin 0).
    rewrite for_lt_stuck; [reflexivity|assumption|assumption|lra].
  - intros bs Hbs Hbs1. exists (S (Z.to_nat (Z.max cw ch))). intros fuel Hfuel.
    destruct (applyPixelation_returns ctx region cx cy cw ch bs
                Hwf Hclamp Hcw Hch Hbs Hbs1 fuel Hfuel) as (ctx' & Hret & _).
    now exists ctx'.
Qed.

Lemma blockSize_unchecked_and_decides_termination_witness :
  let region := mkRegion "r" (Fin 1) (Fin 1) (Fin 3) (Fin 2) pixelate (Fin 0) "#000000" in
  let ctx := gradientContext 5 4 in
  addRegion initialStore (id region) (x region) (y region) (width region)
            (height region) (mode region) (blockSize region) (fillColor region)
    = (mkStore [region] [[]] [], Some (id region)) /\
  (forall q : Q, blockSize region = Fin q -> (q <= 0)%Q ->
     forall fuel : nat, applyPixelation fuel ctx region = OutOfFuel) /\
  (forall bs : Z, blockSize region = ofZ bs -> 1 <= bs ->
     exists fuel0 : nat, forall fuel : nat, (fuel0 <= fuel)%nat ->
     exists ctx', applyPixelation fuel ctx region = Ret ctx').
Proof.
  apply (blockSize_unchecked_and_decides_termination
           (mkRegion "r" (Fin 1) (Fin 1) (Fin 3) (Fin 2) pixelate (Fin 0) "#000000")
           (gradientContext 5 4) 1 1 3 2 3 2).
  - reflexivity.
  - vm_compute. discriminate.
  - reflexivity.
  - vm_compute. discriminate.
  - apply wfContextb_wf. vm_compute. reflexivity.
  - vm_compute. reflexivity.
  - lia.
  - lia.
Defined.

(** A block size of zero and a negative one, stored and then run: the fuel
    runs out, however much there is (here 1000 iterations). *)
Example zero_blockSize_runs_out_of_fuel :
  applyPixelation 1000 (gradientContext 5 4)
    (mkRegion "r" (Fin 1) (Fin 1) (Fin 3) (Fin 2) pixelate (Fin 0) "#000000") = OutOfFuel /\
  applyPixelation 1000 (gradientContext 5 4)
    (mkRegion "r" (Fin 1) (Fin 1) (Fin 3) (Fin 2) pixelate (Fin (-4)) "#000000") = OutOfFuel.
Proof. split; vm_compute; reflexivity. Qed.

(* ===================================================================== *)
(** * The scenario of a region that starts outside the image             *)
(* ===================================================================== *)

(** C1, run.  On a 100 x 100 image, [addRegion(10, 10, -20, -20, pixelate,
    10, _)] stores the region [{x: -10, y: -10, width: 20, height: 20}].
    [applyPixelation] clamps it to [cx = 0, cy = 0, cw = 20, ch = 20]: the
    corner is moved to the image's corner and the size is kept.  In the
    exported image the pixels (15, 15), (15, 5) and (5, 15), which lie
    outside the rectangle [0, 0, 10, 10], hold block averages and not what
    the image held; (20, 20) is as it was. *)
Theorem scenario_pixelation_passes_the_clipped_rectangle
    (parseColor : string -> option Color) (sourceOver : Color -> Color -> Color) :
  let res := addRegion initialStore "r" (Fin 10) (Fin 10) (Fin (-20)) (Fin (-20))
               pixelate (Fin 10) "#000000" in
  let region := mkRegion "r" (Fin (-10)) (Fin (-10)) (Fin 20) (Fin 20)
                  pixelate (Fin 10) "#000000" in
  let ctx := gradientContext 100 100 in
  res = (mkStore [region] [[]] [], Some "r"%string) /\
  clampToCanvas ctx region = (Fin 0, Fin 0, Fin 20, Fin 20) /\
  match processImage parseColor sourceOver 30 100 100 (bitmap ctx) (regions (fst res)) with
  | Ret out =>
      let exported := mkContext 100 100 out (mkColor 0 0 0 255) in
      (getPixel ctx 5 5 0 = 35 /\ getPixel exported 5 5 0 = 32) /\
      (getPixel ctx 15 15 0 = 105 /\ getPixel exported 15 15 0 = 102) /\
      (getPixel ctx 15 5 0 = 105 /\ getPixel exported 15 5 0 = 102) /\
      (getPixel ctx 5 15 1 = 75 /\ getPixel exported 5 15 1 = 73) /\
      (getPixel ctx 20 20 0 = 140 /\ getPixel exported 20 20 0 = 140)
  | _ => False
  end.
Proof. vm_compute. repeat split. Qed.

(* ===================================================================== *)
(** * Solid fill and the order of the regions                             *)
(* ===================================================================== *)

Section ExportOrder.

Variable parseColor : string -> option Color.
Variable sourceOver : Color -> Color -> Color.

(** Compositing an opaque colour onto a pixel leaves that colour. *)
Hypothesis sourceOver_opaque :
  forall source pixel, alpha source = 255 -> sourceOver source pixel = source.

(** [fillRect] of a rectangle of whole numbers with an opaque fill style. *)
Lemma fillRect_whole ctx x0 y0 w0 h0 :
  0 <= canvasWidth ctx -> 0 <= canvasHeight ctx ->
  Z.of_nat (length (bitmap ctx)) = 4 * canvasWidth ctx * canvasHeight ctx ->
  alpha (fillStyle ctx) = 255 ->
  0 <= w0 -> 0 <= h0 ->
  let ctx' := fillRect sourceOver ctx (ofZ x0) (ofZ y0) (ofZ w0) (ofZ h0) in
  canvasWidth ctx' = canvasWidth ctx /\ canvasHeight ctx' = canvasHeight ctx /\
  forall X Y c, 0 <= c < 4 ->
    getPixel ctx' X Y c =
    if (0 <=? X) && (X <? canvasWidth ctx) && (0 <=? Y) && (Y <? canvasHeight ctx) &&
       ((x0 <=? X) && (X <? x0 + w0) && (y0 <=? Y) && (Y <? y0 + h0))
    then channel c (fillStyle ctx)
    else getPixel ctx X Y c.
Proof.
  intros HW HH Hlen Halpha Hw0 Hh0 ctx'. subst ctx'.
  unfold fillRect, ofZ. rewrite !Qfloor_inject_Z.
  destruct (Z.ltb_spec w0 0); [lia|]. destruct (Z.ltb_spec h0 0); [lia|].
  cbn [canvasWidth canvasHeight]. repeat split.
  intros X Y c Hc. unfold getPixel at 1. cbn [canvasWidth canvasHeight bitmap].
  destruct ((0 <=? X) && (X <? canvasWidth ctx) && (0 <=? Y) && (Y <? canvasHeight ctx)) eqn:Ein.
  - apply andb_true_iff in Ein as [E E4]. apply andb_true_iff in E as [E E3].
    apply andb_true_iff in E as [E1 E2].
    apply Z.leb_le in E1, E3. apply Z.ltb_lt in E2, E4.
    rewrite mapi_lookup.
    assert (Ho : 0 <= offset (canvasWidth ctx) (X, Y) c < 4 * canvasWidth ctx * canvasHeight ctx).
    { unfold offset. simpl. nia. }
    change ((Y * canvasWidth ctx + X) * 4 + c) with (offset (canvasWidth ctx) (X, Y) c).
    destruct (lookup_lt_is_Some_2 (bitmap ctx) (Z.to_nat (offset (canvasWidth ctx) (X, Y) c)))
      as [v Hv]; [lia|].
    rewrite Hv. cbn [fmap option_fmap option_map default andb].
    rewrite Z.add_0_l, Z2Nat.id by lia.
    destruct (offset_decompose (canvasWidth ctx) (X, Y) c (conj E1 E2) Hc) as (-> & -> & ->).
    cbn [fst snd].
    destruct ((x0 <=? X) && (X <? x0 + w0) && (y0 <=? Y) && (Y <? y0 + h0)).
    + now rewrite sourceOver_opaque.
    + rewrite (getPixel_in ctx X Y c) by lia. now rewrite Hv.
  - cbn [andb]. unfold getPixel. now rewrite Ein.
Qed.

(** C6.  Export applies the regions in the order of the collection.  With
    a pixelate region A whose clamp [cx, cy, cw, ch] on the image is not
    empty and a later solid region B with an opaque colour whose rounded
    rectangle [bx, by, bw, bh] lies inside A's, the export returns, every
    pixel of B's rectangle holds B's colour, and every pixel of A's
    rectangle outside B's holds the rounded mean of its block of the
    image. *)
Theorem export_last_region_wins
    (W H : Z) (img : list Z) (A B : BlurRegion) (col : Color)
    (cx cy cw ch bs bx by_ bw bh : Z) :
  let ctx := mkContext W H img (mkColor 0 0 0 255) in
  wfContext ctx ->
  mode A = pixelate -> mode B = solid ->
  clampToCanvas ctx A = (ofZ cx, ofZ cy, ofZ cw, ofZ ch) ->
  0 < cw -> 0 < ch ->
  blockSize A = ofZ bs -> 1 <= bs ->
  parseColor (fillColor B) = Some col -> alpha col = 255 ->
  Math_round (x B) = ofZ bx -> Math_round (y B) = ofZ by_ ->
  Math_round (width B) = ofZ bw -> Math_round (height B) = ofZ bh ->
  cx <= bx -> cy <= by_ -> 0 <= bw -> 0 <= bh ->
  bx + bw <= cx + cw -> by_ + bh <= cy + ch ->
  exists fuel0 : nat, forall fuel : nat, (fuel0 <= fuel)%nat ->
  exists out,
    processImage parseColor sourceOver fuel W H img [A; B] = Ret out /\
    let exported := mkContext W H out col in
    (forall X Y c, 0 <= c < 4 ->
       bx <= X < bx + bw -> by_ <= Y < by_ + bh ->
       getPixel exported X Y c = channel c col) /\
    (forall px py c, 0 <= c < 4 ->
       0 <= px < cw -> 0 <= py < ch ->
       ~ (bx <= cx + px < bx + bw /\ by_ <= cy + py < by_ + bh) ->
       getPixel exported (cx + px) (cy + py) c =
       roundedMean (map (fun p => getPixel ctx (cx + fst p) (cy + snd p) c)
                        (blockOf cw ch bs px py))).
Proof.
  intros ctx Hwf HmA HmB Hclamp Hcw Hch Hbsz Hbs Hparse Halpha
         Hbx Hby Hbw Hbh Hin1 Hin2 Hbw0 Hbh0 Hin3 Hin4.
  destruct (clampToCanvas_whole _ _ _ _ _ _ Hclamp) as (Hcx & Hcy & HcW & HcH).
  unfold ctx in HcW, HcH. cbn [canvasWidth canvasHeight] in HcW, HcH.
  exists (S (Z.to_nat (Z.max cw ch))). intros fuel Hfuel.
  destruct (applyPixelation_returns ctx A cx cy cw ch bs
              Hwf Hclamp Hcw Hch Hbsz Hbs fuel Hfuel)
    as (ctx1 & Hret & HW1 & HH1 & HL1 & HF1 & Hmean & Hkeep).
  unfold ctx in HW1, HH1, HL1.
  cbn [canvasWidth canvasHeight bitmap] in HW1, HH1, HL1.
  pose proof Hwf as (HWr & HHr & Hlen & _).
  unfold ctx in HWr, HHr, Hlen.
  cbn [canvasWidth canvasHeight bitmap] in HWr, HHr, Hlen.
  set (ctx2 := setFillStyle parseColor ctx1 (fillColor B)).
  assert (Hstyle : ctx2 = mkContext W H (bitmap ctx1) col).
  { unfold ctx2, setFillStyle. now rewrite Hparse, HW1, HH1. }
  pose proof (fillRect_whole ctx2 bx by_ bw bh) as Hfill.
  rewrite Hstyle in Hfill. cbn [canvasWidth canvasHeight bitmap fillStyle] in Hfill.
  specialize (Hfill ltac:(lia) ltac:(lia) ltac:(rewrite HL1; exact Hlen)
                    Halpha Hbw0 Hbh0).
  destruct Hfill as (HW2 & HH2 & Hpix).
  exists (bitmap (fillRect sourceOver (mkContext W H (bitmap ctx1) col)
                    (ofZ bx) (ofZ by_) (ofZ bw) (ofZ bh))).
  split.
  { unfold processImage. fold ctx. cbn [applyRegions]. rewrite HmA, Hret, HmB.
    unfold applySolidMask. fold ctx2. rewrite Hstyle, Hbx, Hby, Hbw, Hbh.
    reflexivity. }
  assert (Hsame : forall X Y c,
            getPixel (mkContext W H
                        (bitmap (fillRect sourceOver (mkContext W H (bitmap ctx1) col)
                                   (ofZ bx) (ofZ by_) (ofZ bw) (ofZ bh))) col) X Y c =
            getPixel (fillRect sourceOver (mkContext W H (bitmap ctx1) col)
                        (ofZ bx) (ofZ by_) (ofZ bw) (ofZ bh)) X Y c).
  { intros X Y c. unfold getPixel. cbn [canvasWidth canvasHeight bitmap].
    now rewrite HW2, HH2. }
  assert (Hctx1 : forall X Y c,
            getPixel (mkContext W H (bitmap ctx1) col) X Y c = getPixel ctx1 X Y c).
  { intros X Y c. unfold getPixel. cbn [canvasWidth canvasHeight bitmap].
    now rewrite HW1, HH1. }
  cbv zeta. split.
  - intros X Y c Hc HX HY. rewrite Hsame, Hpix by assumption.
    destruct (Z.leb_spec 0 X); [|lia]. destruct (Z.ltb_spec X W); [|lia].
    destruct (Z.leb_spec 0 Y); [|lia]. destruct (Z.ltb_spec Y H); [|lia].
    destruct (Z.leb_spec bx X); [|lia]. destruct (Z.ltb_spec X (bx + bw)); [|lia].
    destruct (Z.leb_spec by_ Y); [|lia]. destruct (Z.ltb_spec Y (by_ + bh)); [|lia].
    reflexivity.
  - intros px py c Hc Hpx Hpy Hout. rewrite Hsame, Hpix by assumption.
    assert (Hf : (bx <=? cx + px) && (cx + px <? bx + bw) &&
                 (by_ <=? cy + py) && (cy + py <? by_ + bh) = false).
    { apply not_true_iff_false. intros E. apply Hout.
      apply andb_true_iff in E as [E E4]. apply andb_true_iff in E as [E E3].
      apply andb_true_iff in E as [E1 E2].
      apply Z.leb_le in E1, E3. apply Z.ltb_lt in E2, E4. lia. }
    rewrite Hf, andb_false_r, Hctx1. now apply Hmean.
Qed.

End ExportOrder.

Lemma opaqueReplaces_opaque source pixel :
  alpha source = 255 -> opaqueReplaces source pixel = source.
Proof. unfold opaqueReplaces. intros ->. reflexivity. Qed.

Lemma export_last_region_wins_witness :
  let A := mkRegion "a" (Fin 1) (Fin 0) (Fin 4) (Fin 4) pixelate (Fin 2) "#000000" in
  let B := mkRegion "b" (Fin 2) (Fin 1) (Fin 2) (Fin 2) solid (Fin 2) "#ff0000" in
  let col := mkColor 255 0 0 255 in
  let ctx := gradientContext 5 4 in
  exists fuel0 : nat, forall fuel : nat, (fuel0 <= fuel)%nat ->
  exists out,
    processImage twoColours opaqueReplaces fuel 5 4 (gradient 5 4) [A; B] = Ret out /\
    let exported := mkContext 5 4 out col in
    (forall X Y c, 0 <= c < 4 ->
       2 <= X < 2 + 2 -> 1 <= Y < 1 + 2 ->
       getPixel exported X Y c = channel c col) /\
    (forall px py c, 0 <= c < 4 ->
       0 <= px < 4 -> 0 <= py < 4 ->
       ~ (2 <= 1 + px < 2 + 2 /\ 1 <= 0 + py < 1 + 2) ->
       getPixel exported (1 + px) (0 + py) c =
       roundedMean (map (fun p => getPixel ctx (1 + fst p) (0 + snd p) c)
                        (blockOf 4 4 2 px py))).
Proof.
  apply (export_last_region_wins twoColours opaqueReplaces
           opaqueReplaces_opaque
           5 4 (gradient 5 4)
           (mkRegion "a" (Fin 1) (Fin 0) (Fin 4) (Fin 4) pixelate (Fin 2) "#000000")
           (mkRegion "b" (Fin 2) (Fin 1) (Fin 2) (Fin 2) solid (Fin 2) "#ff0000")
           (mkColor 255 0 0 255) 1 0 4 4 2 2 1 2 2).
  - apply wfContextb_wf. vm_compute. reflexivity.
  - reflexivity.
  - reflexivity.
  - vm_compute. reflexivity.
  - lia.
  - lia.
  - reflexivity.
  - lia.
  - reflexivity.
  - reflexivity.
  - vm_compute. reflexivity.
  - vm_compute. reflexivity.
  - vm_compute. reflexivity.
  - vm_compute. reflexivity.
  - lia.
  - lia.
  - lia.
  - lia.
  - lia.
  - lia.
Defined.

(** The two regions in the two orders on the test image: B's colour shows
    only when B comes last; first, it is averaged into A's blocks. *)
Example order_of_regions_matters :
  let A := mkRegion "a" (Fin 1) (Fin 0) (Fin 4) (Fin 4) pixelate (Fin 2) "#000000" in
  let B := mkRegion "b" (Fin 2) (Fin 1) (Fin 2) (Fin 2) solid (Fin 2) "#ff0000" in
  match processImage twoColours opaqueReplaces 10 5 4 (gradient 5 4) [A; B],
        processImage twoColours opaqueReplaces 10 5 4 (gradient 5 4) [B; A] with
  | Ret ab, Ret ba =>
      map (fun c => getPixel (mkContext 5 4 ab (mkColor 0 0 0 255)) 2 1 c) [0; 1; 2; 3]
        = [255; 0; 0; 255] /\
      map (fun c => getPixel (mkContext 5 4 ba (mkColor 0 0 0 255)) 2 1 c) [0; 1; 2; 3]
        = [71; 1; 4; 255]
  | _, _ => False
  end.
Proof. vm_compute. repeat split. Qed.

(* ===================================================================== *)
(** * The history of the region store                                     *)
(* ===================================================================== *)

Lemma canUndo_pop st :
  canUndo st = true -> exists prev rest, undoStack st = rest ++ [prev].
Proof.
  unfold canUndo. destruct (undoStack st) as [|a l] using rev_ind; [discriminate|].
  intros _. now exists a, l.
Qed.

Lemma canRedo_pop st :
  canRedo st = true -> exists next rest, redoStack st = rest ++ [next].
Proof.
  unfold canRedo. destruct (redoStack st) as [|a l] using rev_ind; [discriminate|].
  intros _. now exists a, l.
Qed.

Lemma undo_pushed rs us ds prev :
  undo (mkStore rs (us ++ [prev]) ds) = mkStore prev us (ds ++ [rs]).
Proof.
  unfold undo. cbn [undoStack regions redoStack].
  change (us ++ [prev]) with (push us prev). now rewrite pop_push.
Qed.

Lemma redo_pushed rs us ds next :
  redo (mkStore rs us (ds ++ [next])) = mkStore next (us ++ [rs]) ds.
Proof.
  unfold redo. cbn [undoStack regions redoStack].
  change (ds ++ [next]) with (push ds next). now rewrite pop_push.
Qed.

(** X1.  When there is something to undo, [redo] after [undo] gives back
    the store as it was: the collection and both stacks. *)
Theorem redo_after_undo_restores st : canUndo st = true -> redo (undo st) = st.
Proof.
  intros H. destruct (canUndo_pop st H) as (prev & rest & E).
  destruct st as [rs us ds]. cbn [undoStack] in E. subst us.
  now rewrite undo_pushed, redo_pushed.
Qed.

Lemma redo_after_undo_restores_witness :
  let st := mkStore [] [[mkRegion "a" (Fin 0) (Fin 0) (Fin 4) (Fin 4) solid (Fin 10) "#000000"]] [] in
  redo (undo st) = st.
Proof.
  apply (redo_after_undo_restores
           (mkStore [] [[mkRegion "a" (Fin 0) (Fin 0) (Fin 4) (Fin 4) solid (Fin 10) "#000000"]] [])).
  reflexivity.
Defined.

(** X2.  When there is something to redo, [undo] after [redo] gives back
    the store as it was. *)
Theorem undo_after_redo_restores st : canRedo st = true -> undo (redo st) = st.
Proof.
  intros H. destruct (canRedo_pop st H) as (next & rest & E).
  destruct st as [rs us ds]. cbn [redoStack] in E. subst ds.
  now rewrite redo_pushed, undo_pushed.
Qed.

Lemma undo_after_redo_restores_witness :
  let st := mkStore [] [] [[mkRegion "a" (Fin 0) (Fin 0) (Fin 4) (Fin 4) solid (Fin 10) "#000000"]] in
  undo (redo st) = st.
Proof.
  apply (undo_after_redo_restores
           (mkStore [] [] [[mkRegion "a" (Fin 0) (Fin 0) (Fin 4) (Fin 4) solid (Fin 10) "#000000"]])).
  reflexivity.
Defined.

Lemma timeline_undo st : timeline (undo st) = timeline st.
Proof.
  destruct st as [rs us ds].
  destruct us as [|prev us] using rev_ind; [reflexivity|].
  rewrite undo_pushed. unfold timeline. cbn [undoStack regions redoStack].
  rewrite rev_app_distr. cbn [rev app]. now rewrite <- !app_assoc.
Qed.

Lemma timeline_redo st : timeline (redo st) = timeline st.
Proof.
  destruct st as [rs us ds].
  destruct ds as [|next ds] using rev_ind; [reflexivity|].
  rewrite redo_pushed. unfold timeline. cbn [undoStack regions redoStack].
  rewrite rev_app_distr. cbn [rev app]. now rewrite <- !app_assoc.
Qed.

(** X3.  [undo] and [redo] only move along the history: whatever sequence
    of the two is called, the states held by the undo stack, the collection
    and the redo stack, read in order, stay the same list.  No state is lost
    or made up by moving back and forth. *)
Theorem undo_redo_keep_the_timeline ops : forall st,
  forallb historyMove ops = true -> timeline (run ops st) = timeline st.
Proof.
  induction ops as [|o ops IH]; intros st H; [reflexivity|].
  cbn [forallb] in H. apply andb_true_iff in H as [Ho H].
  unfold run in *. cbn [fold_left]. rewrite (IH _ H).
  destruct o; try discriminate; cbn [step].
  - apply timeline_undo.
  - apply timeline_redo.
Qed.

Lemma undo_redo_keep_the_timeline_witness :
  let st := fst (addRegion initialStore "a" (Fin 0) (Fin 0) (Fin 4) (Fin 4)
                   solid (Fin 10) "#000000") in
  timeline (run [OpUndo; OpUndo; OpRedo; OpUndo; OpRedo; OpRedo] st) = timeline st.
Proof.
  apply (undo_redo_keep_the_timeline [OpUndo; OpUndo; OpRedo; OpUndo; OpRedo; OpRedo]).
  reflexivity.
Defined.

Lemma filter_absent (rid : string) (rs : list BlurRegion) :
  Forall (fun r => id r <> rid) rs ->
  List.filter (fun r => negb (String.eqb (id r) rid)) rs = rs.
Proof.
  induction 1 as [|r rs Hr _ IH]; [reflexivity|].
  cbn [List.filter]. apply String.eqb_neq in Hr. rewrite Hr. cbn [negb].
  now rewrite IH.
Qed.

(** X4.  [removeRegion] with an id that no region has leaves the
    collection as it is, and still records it as an undo step and empties
    the redo stack: what could be redone before the call is lost. *)
Theorem removeRegion_unknown_id_still_records st rid :
  Forall (fun r => id r <> rid) (regions st) ->
  removeRegion st rid = mkStore (regions st) (undoStack st ++ [regions st]) [] /\
  canUndo (removeRegion st rid) = true /\
  canRedo (removeRegion st rid) = false /\
  regions (undo (removeRegion st rid)) = regions st.
Proof.
  intros H. unfold removeRegion. rewrite (filter_absent _ _ H).
  unfold pushUndo, push. cbn [undoStack redoStack regions].
  split; [reflexivity|]. split.
  - unfold canUndo. cbn [undoStack]. apply Nat.ltb_lt.
    rewrite length_app. cbn [length]. lia.
  - split; [reflexivity|]. now rewrite undo_pushed.
Qed.

Lemma removeRegion_unknown_id_still_records_witness :
  let a := mkRegion "a" (Fin 0) (Fin 0) (Fin 4) (Fin 4) solid (Fin 10) "#000000" in
  let st := mkStore [a] [[]] [[a; a]] in
  removeRegion st "b" = mkStore (regions st) (undoStack st ++ [regions st]) [] /\
  canUndo (removeRegion st "b") = true /\
  canRedo (removeRegion st "b") = false /\
  regions (undo (removeRegion st "b")) = regions st.
Proof.
  apply (removeRegion_unknown_id_still_records
           (mkStore [mkRegion "a" (Fin 0) (Fin 0) (Fin 4) (Fin 4) solid (Fin 10) "#000000"]
                    [[]]
                    [[mkRegion "a" (Fin 0) (Fin 0) (Fin 4) (Fin 4) solid (Fin 10) "#000000";
                      mkRegion "a" (Fin 0) (Fin 0) (Fin 4) (Fin 4) solid (Fin 10) "#000000"]])
           "b").
  repeat constructor. discriminate.
Defined.

(** X5.  [undo] right after a [removeRegion] call, or after an [addRegion]
    call that stored its region, brings back the collection and the undo
    stack as they were before the call, and [redo] then gives the state the
    call had produced. *)
Theorem undo_reverts_the_last_change st o :
  mutation o = true -> (forall timing, o <> OpClear timing) -> step st o <> st ->
  regions (undo (step st o)) = regions st /\
  undoStack (undo (step st o)) = undoStack st /\
  redo (undo (step st o)) = step st o.
Proof.
  intros Hm Hc Hne. destruct o as [newId x y w h m bs c|rid|timing| |]; try discriminate.
  - cbn [step] in *. unfold addRegion in *.
    destruct ((Math_abs w <? Fin 2)%js || (Math_abs h <? Fin 2)%js)%bool.
    + now contradiction Hne.
    + unfold pushUndo, push. cbn [fst undoStack redoStack regions].
      now rewrite undo_pushed, redo_pushed.
  - cbn [step]. unfold removeRegion, pushUndo, push.
    cbn [undoStack redoStack regions].
    now rewrite undo_pushed, redo_pushed.
  - now contradiction (Hc timing).
Qed.

Lemma undo_reverts_the_last_change_witness :
  let o := OpAdd "a" (Fin 0) (Fin 0) (Fin 4) (Fin 4) solid (Fin 10) "#000000" in
  regions (undo (step initialStore o)) = regions initialStore /\
  undoStack (undo (step initialStore o)) = undoStack initialStore /\
  redo (undo (step initialStore o)) = step initialStore o.
Proof.
  apply (undo_reverts_the_last_change initialStore
           (OpAdd "a" (Fin 0) (Fin 0) (Fin 4) (Fin 4) solid (Fin 10) "#000000")).
  - reflexivity.
  - intros timing. discriminate.
  - vm_compute. discriminate.
Defined.

(* ===================================================================== *)
(** * The editor's handlers on the region store                           *)
(* ===================================================================== *)

Lemma filter_last_unique (rs : list BlurRegion) (last : BlurRegion) :
  List.NoDup (map id (rs ++ [last])) ->
  List.filter (fun r => negb (String.eqb (id r) (id last))) (rs ++ [last]) = rs.
Proof.
  intros H. rewrite List.filter_app. cbn [List.filter].
  rewrite String.eqb_refl. cbn [negb]. rewrite app_nil_r.
  apply filter_absent. apply List.Forall_forall. intros r Hr E.
  rewrite map_app in H. cbn [map] in H. apply List.NoDup_remove_2 in H.
  apply H. rewrite app_nil_r, <- E. now apply in_map.
Qed.

(** X6.  With regions of distinct ids, the Delete (or Backspace) key
    removes the region added last and nothing else, as one undo step. *)
Theorem deleteKey_removes_the_last_region st rs last :
  List.NoDup (map id (regions st)) ->
  regions st = rs ++ [last] ->
  ImageEditor.deleteKey st = mkStore rs (undoStack st ++ [regions st]) [] /\
  undo (ImageEditor.deleteKey st) = mkStore (regions st) (undoStack st) [rs].
Proof.
  intros Hnd E. unfold ImageEditor.deleteKey. rewrite E in *.
  rewrite length_app. cbn [length].
  replace (0 <? length rs + 1)%nat with true by (symmetry; apply Nat.ltb_lt; lia).
  replace (length rs + 1 - 1)%nat with (length rs + 0)%nat by lia.
  rewrite lookup_app_r by lia.
  replace (length rs + 0 - length rs)%nat with 0%nat by lia.
  cbn [lookup list_lookup].
  unfold removeRegion, pushUndo, push. cbn [undoStack redoStack regions].
  rewrite E, (filter_last_unique _ _ Hnd). split; [reflexivity|].
  now rewrite undo_pushed.
Qed.

Lemma deleteKey_removes_the_last_region_witness :
  let a := mkRegion "a" (Fin 0) (Fin 0) (Fin 4) (Fin 4) solid (Fin 10) "#000000" in
  let b := mkRegion "b" (Fin 1) (Fin 1) (Fin 4) (Fin 4) pixelate (Fin 10) "#000000" in
  let st := mkStore [a; b] [[]; [a]] [] in
  ImageEditor.deleteKey st = mkStore [a] (undoStack st ++ [regions st]) [] /\
  undo (ImageEditor.deleteKey st) = mkStore (regions st) (undoStack st) [[a]].
Proof.
  apply (deleteKey_removes_the_last_region
           (mkStore [mkRegion "a" (Fin 0) (Fin 0) (Fin 4) (Fin 4) solid (Fin 10) "#000000";
                     mkRegion "b" (Fin 1) (Fin 1) (Fin 4) (Fin 4) pixelate (Fin 10) "#000000"]
                    [[]; [mkRegion "a" (Fin 0) (Fin 0) (Fin 4) (Fin 4) solid (Fin 10) "#000000"]]
                    [])
           [mkRegion "a" (Fin 0) (Fin 0) (Fin 4) (Fin 4) solid (Fin 10) "#000000"]
           (mkRegion "b" (Fin 1) (Fin 1) (Fin 4) (Fin 4) pixelate (Fin 10) "#000000")).
  - simpl. repeat constructor; simpl; intuition discriminate.
  - reflexivity.
Defined.

(** ** The region selector *)




Lemma Qeq_bool_nonzero (q : Q) : ~ (q == 0)%Q -> Qeq_bool q 0 = false.
Proof.
  intros H. destruct (Qeq_bool q 0) eqn:E; [|reflexivity].
  apply Qeq_bool_iff in E. contradiction.
Qed.

(** X8.  [getImageCoords] maps the pointer to image coordinates by the
    displayed size only: with finite inputs, a displayed rectangle that is
    not degenerate and a pixel buffer that is not empty, the result is
    [(clientX - left) * imageWidth / rect.width] (and the same for y),
    whatever the size of the canvas buffer.  The left edge of the canvas
    maps to 0 and its right edge to the image width. *)
Theorem getImageCoords_is_linear_in_the_displayed_rectangle
    (cv : RegionSelector.Canvas) (iw ih cx cy l t rw rh : Q) :
  RegionSelector.rectLeft cv = Fin l -> RegionSelector.rectTop cv = Fin t ->
  RegionSelector.rectWidth cv = Fin rw -> RegionSelector.rectHeight cv = Fin rh ->
  ~ (rw == 0)%Q -> ~ (rh == 0)%Q ->
  RegionSelector.bufferWidth cv <> 0 -> RegionSelector.bufferHeight cv <> 0 ->
  exists qx qy,
    RegionSelector.getImageCoords (Some cv) (Fin iw) (Fin ih) (Fin cx) (Fin cy)
      = (Fin qx, Fin qy) /\
    (qx == (cx - l) * iw / rw)%Q /\ (qy == (cy - t) * ih / rh)%Q.
Proof.
  intros Hl Ht Hrw Hrh Hw0 Hh0 Hbw Hbh.
  unfold RegionSelector.getImageCoords. rewrite Hl, Ht, Hrw, Hrh.
  assert (Hbw' : ~ (inject_Z (RegionSelector.bufferWidth cv) == 0)%Q).
  { intros E. unfold Qeq in E. simpl in E. lia. }
  assert (Hbh' : ~ (inject_Z (RegionSelector.bufferHeight cv) == 0)%Q).
  { intros E. unfold Qeq in E. simpl in E. lia. }
  unfold ofZ, div, mul, sub, add, neg.
  rewrite !Qeq_bool_nonzero by assumption.
  eexists _, _. split; [reflexivity|]. split; field; split; assumption.
Qed.

Lemma getImageCoords_is_linear_in_the_displayed_rectangle_witness :
  exists qx qy,
    RegionSelector.getImageCoords
      (Some (RegionSelector.mkCanvas 800 600 (Fin 100) (Fin 50) (Fin 400) (Fin 300)))
      (Fin 1600) (Fin 1200) (Fin 300) (Fin 200) = (Fin qx, Fin qy) /\
    (qx == (300 - 100) * 1600 / 400)%Q /\ (qy == (200 - 50) * 1200 / 300)%Q.
Proof.
  apply (getImageCoords_is_linear_in_the_displayed_rectangle
           (RegionSelector.mkCanvas 800 600 (Fin 100) (Fin 50) (Fin 400) (Fin 300))
           1600 1200 300 200 100 50 400 300);
    try reflexivity; try (unfold Qeq; simpl; lia); simpl; lia.
Defined.

(* ===================================================================== *)
(** * Zoom steps and the zoom anchor                                      *)
(* ===================================================================== *)

(** X9.  From a zoom that is a multiple of 0.5 in [0.5, 5] (every zoom the
    keyboard steps and the reset reach from the default is one; sums and
    differences of such numbers are exact in binary64), the two keyboard
    steps cancel each other away from the bounds, and only there: [zoomIn]
    then [zoomOut] gives [min(z, 4.5)], and [zoomOut] then [zoomIn] gives
    [max(z, 1)].  Neither touches the pending anchor. *)
Theorem zoom_steps_cancel_inside_the_bounds st (z : Q) (k : Z) :
  zoom st = Fin z -> (z == inject_Z k * (1 # 2))%Q -> 1 <= k <= 10 ->
  exists a b,
    zoom (zoomOut (zoomIn st)) = Fin a /\ (a == Qmin z (9 # 2))%Q /\
    zoom (zoomIn (zoomOut st)) = Fin b /\ (b == Qmax z 1)%Q /\
    zoomAnchorRef (zoomOut (zoomIn st)) = zoomAnchorRef st /\
    zoomAnchorRef (zoomIn (zoomOut st)) = zoomAnchorRef st.
Proof.
  intros Hz Hk Hb.
  assert (H1 : ((1 # 2) <= z)%Q).
  { rewrite Hk. setoid_replace (1 # 2)%Q with (inject_Z 1 * (1 # 2))%Q using relation Qeq
      by reflexivity.
    apply Qmult_le_compat_r; [rewrite <- Zle_Qle; lia|discriminate]. }
  assert (H2 : (z <= 5)%Q).
  { rewrite Hk. setoid_replace 5%Q with (inject_Z 10 * (1 # 2))%Q using relation Qeq
      by reflexivity.
    apply Qmult_le_compat_r; [rewrite <- Zle_Qle; lia|discriminate]. }
  unfold zoomIn, zoomOut. cbn [zoom zoomAnchorRef]. rewrite Hz.
  cbn [add sub neg Math_min Math_max lt].
  destruct (Qltb 5 (z + (1 # 2))) eqn:E1;
    destruct (Qltb (z + - (1 # 2)) (1 # 2)) eqn:E2;
    cbn [add sub neg Math_min Math_max lt];
    repeat match goal with
    | |- context [Qltb ?a ?b] =>
        let E := fresh "E" in destruct (Qltb a b) eqn:E
    end;
    Qtests; eexists _, _; repeat split;
    try (apply Q.min_case_strong; intros; lra);
    try (apply Q.max_case_strong; intros; lra).
Qed.

Lemma zoom_steps_cancel_inside_the_bounds_witness :
  exists a b,
    zoom (zoomOut (zoomIn initialZoom)) = Fin a /\ (a == Qmin 1 (9 # 2))%Q /\
    zoom (zoomIn (zoomOut initialZoom)) = Fin b /\ (b == Qmax 1 1)%Q /\
    zoomAnchorRef (zoomOut (zoomIn initialZoom)) = zoomAnchorRef initialZoom /\
    zoomAnchorRef (zoomIn (zoomOut initialZoom)) = zoomAnchorRef initialZoom.
Proof.
  apply (zoom_steps_cancel_inside_the_bounds initialZoom 1 2).
  - reflexivity.
  - reflexivity.
  - lia.
Defined.



(** A wheel step beyond the upper bound, run: at zoom 5 a target of 6 is
    clamped to 5, the effect does not run and the anchor is left pending;
    the next zoom change finds it. *)
Example zoom_anchor_left_pending_at_the_bound :
  let c := mkContainer (Fin 20) (Fin 10) (Fin 800) (Fin 600) (Fin 40) (Fin 30) in
  let env := mkResizeEnv (Fin 800) (Fin 1600) (Fin 1200) in
  let st := mkZoomState (Fin 5) None in
  let st1 := zoomAt st (Some c) (Fin 6) (Fin 220) (Fin 110) in
  let st2 := zoomOut st1 in
  resizeAfterZoom (zoom st) st1 (Some env) = (st1, None) /\
  zoomAnchorRef st1 <> None /\
  zoomAnchorRef st2 = zoomAnchorRef st1 /\
  zoomAnchorRef (fst (resizeAfterZoom (zoom st1) st2 (Some env))) = None /\
  scrollLeftSet <$> snd (resizeAfterZoom (zoom st1) st2 (Some env)) <> Some None.
Proof. vm_compute. repeat split; discriminate. Qed.

(* ===================================================================== *)
(** * Further properties of pixelation                                    *)
(* ===================================================================== *)

Lemma sumZ_const (m : Z) (values : list Z) :
  Forall (fun v => v = m) values -> sumZ values = Z.of_nat (length values) * m.
Proof.
  induction 1 as [|v l Hv _ IH]; [reflexivity|].
  cbn [sumZ fold_right length]. fold (sumZ l). rewrite IH, Hv. lia.
Qed.

(** The rounded mean of equal values is that value. *)
Lemma roundedMean_const (m : Z) (values : list Z) :
  values <> [] -> Forall (fun v => v = m) values -> roundedMean values = m.
Proof.
  intros Hne Hc. rewrite roundedMean_div by assumption.
  rewrite (sumZ_const m values Hc).
  assert (Hn : 0 < Z.of_nat (length values)) by (destruct values; simpl; [congruence|lia]).
  symmetry. apply (Z.div_unique_pos _ _ _ (Z.of_nat (length values))); lia.
Qed.

Lemma blockOf_nonempty cw ch bs px py :
  1 <= bs -> 0 <= px < cw -> 0 <= py < ch -> blockOf cw ch bs px py <> [].
Proof.
  intros Hbs Hx Hy E.
  pose proof (blockOf_size cw ch bs (px, py) Hbs (conj Hx Hy)) as Hs.
  cbn [fst snd] in Hs. rewrite E in Hs. simpl in Hs. lia.
Qed.

(** A context whose pixels are bytes is well formed. *)
Lemma wfContext_of_pixels ctx :
  0 <= canvasWidth ctx < 2147483648 -> 0 <= canvasHeight ctx < 2147483648 ->
  Z.of_nat (length (bitmap ctx)) = 4 * canvasWidth ctx * canvasHeight ctx ->
  (forall X Y c, 0 <= X < canvasWidth ctx -> 0 <= Y < canvasHeight ctx -> 0 <= c < 4 ->
     0 <= getPixel ctx X Y c <= 255) ->
  wfContext ctx.
Proof.
  intros HW HH Hlen Hpix. split; [assumption|]. split; [assumption|].
  split; [assumption|].
  apply Forall_lookup_2. intros n v Hv.
  pose proof (lookup_lt_Some _ _ _ Hv) as Hn.
  set (k := Z.of_nat n).
  assert (Hk : 0 <= k < 4 * canvasWidth ctx * canvasHeight ctx) by lia.
  assert (HW0 : 0 < canvasWidth ctx) by nia.
  pose proof (Z.div_mod k 4 ltac:(lia)) as Hd4.
  pose proof (Z.mod_pos_bound k 4 ltac:(lia)) as Hm4.
  pose proof (Z.div_mod (k / 4) (canvasWidth ctx) ltac:(lia)) as HdW.
  pose proof (Z.mod_pos_bound (k / 4) (canvasWidth ctx) HW0) as HmW.
  assert (Hq : 0 <= k / 4 < canvasWidth ctx * canvasHeight ctx).
  { split; [apply Z.div_pos; lia|apply Z.div_lt_upper_bound; lia]. }
  assert (Hy : 0 <= k / 4 / canvasWidth ctx < canvasHeight ctx).
  { split; [apply Z.div_pos; lia|apply Z.div_lt_upper_bound; nia]. }
  specialize (Hpix ((k / 4) mod canvasWidth ctx) (k / 4 / canvasWidth ctx) (k mod 4)
                HmW Hy Hm4).
  rewrite getPixel_in in Hpix by assumption.
  unfold offset in Hpix. cbn [fst snd] in Hpix.
  replace ((k / 4 / canvasWidth ctx * canvasWidth ctx + (k / 4) mod canvasWidth ctx) * 4
           + k mod 4) with k in Hpix by lia.
  unfold k in Hpix. rewrite Nat2Z.id, Hv in Hpix. exact Hpix.
Qed.

(** [applyPixelation_returns], with the canvas left well formed. *)
Lemma applyPixelation_returns_wf ctx region cx cy cw ch bs :
  wfContext ctx ->
  clampToCanvas ctx region = (ofZ cx, ofZ cy, ofZ cw, ofZ ch) ->
  0 < cw -> 0 < ch ->
  blockSize region = ofZ bs -> 1 <= bs ->
  forall fuel : nat, (S (Z.to_nat (Z.max cw ch)) <= fuel)%nat ->
  exists ctx',
    applyPixelation fuel ctx region = Ret ctx' /\
    wfContext ctx' /\
    canvasWidth ctx' = canvasWidth ctx /\ canvasHeight ctx' = canvasHeight ctx /\
    fillStyle ctx' = fillStyle ctx /\
    (forall px py c, 0 <= px < cw -> 0 <= py < ch -> 0 <= c < 4 ->
       getPixel ctx' (cx + px) (cy + py) c =
       roundedMean (map (fun p => getPixel ctx (cx + fst p) (cy + snd p) c)
                        (blockOf cw ch bs px py))) /\
    (forall X Y c, 0 <= c < 4 ->
       ~ (cx <= X < cx + cw /\ cy <= Y < cy + ch) ->
       getPixel ctx' X Y c = getPixel ctx X Y c).
Proof.
  intros Hwf Hclamp Hcw Hch Hbsz Hbs fuel Hfuel.
  destruct (applyPixelation_returns ctx region cx cy cw ch bs
              Hwf Hclamp Hcw Hch Hbsz Hbs fuel Hfuel)
    as (ctx' & Hret & HW & HH & HL & HF & Hin & Hout).
  exists ctx'. split; [exact Hret|]. split; [|now repeat split].
  pose proof Hwf as (HWr & HHr & Hlen & _).
  apply wfContext_of_pixels; rewrite ?HW, ?HH, ?HL; try assumption.
  intros X Y c HX HY Hc.
  destruct (Z_le_dec cx X), (Z_lt_dec X (cx + cw)), (Z_le_dec cy Y), (Z_lt_dec Y (cy + ch));
    try (rewrite Hout by (assumption || lia); now apply getPixel_byte).
  replace X with (cx + (X - cx)) by lia. replace Y with (cy + (Y - cy)) by lia.
  rewrite Hin by lia. apply roundedMean_byte.
  - intros E. apply map_eq_nil in E. revert E. apply blockOf_nonempty; lia.
  - apply List.Forall_forall. intros v Hv. apply in_map_iff in Hv as (p & <- & _).
    now apply getPixel_byte.
Qed.

(** X11.  Pixelation leaves every block in one colour: after
    [applyPixelation] two pixels of the same block hold the same value on
    every channel, so nothing inside a block can be told apart any more. *)
Theorem pixelation_makes_blocks_uniform ctx region cx cy cw ch bs fuel :
  wfContext ctx ->
  clampToCanvas ctx region = (ofZ cx, ofZ cy, ofZ cw, ofZ ch) ->
  0 < cw -> 0 < ch ->
  blockSize region = ofZ bs -> 1 <= bs ->
  (S (Z.to_nat (Z.max cw ch)) <= fuel)%nat ->
  exists ctx',
    applyPixelation fuel ctx region = Ret ctx' /\
    forall p q c, inArea cw ch p -> inArea cw ch q -> 0 <= c < 4 ->
      In q (blockOf cw ch bs (fst p) (snd p)) ->
      getPixel ctx' (cx + fst q) (cy + snd q) c = getPixel ctx' (cx + fst p) (cy + snd p) c.
Proof.
  intros Hwf Hclamp Hcw Hch Hbsz Hbs Hfuel.
  destruct (applyPixelation_returns ctx region cx cy cw ch bs
              Hwf Hclamp Hcw Hch Hbsz Hbs fuel Hfuel)
    as (ctx' & Hret & _ & _ & _ & _ & Hmean & _).
  exists ctx'. split; [exact Hret|].
  intros p q c [Hpx Hpy] [Hqx Hqy] Hc Hin.
  rewrite !Hmean by assumption.
  apply (blockOf_partition cw ch bs p q Hbs) in Hin; [|now split|now split].
  now rewrite Hin.
Qed.

Lemma pixelation_makes_blocks_uniform_witness :
  let ctx := gradientContext 5 4 in
  let region := mkRegion "r" (Fin (3 # 2)) (Fin 1) (Fin 3) (Fin 7) pixelate (Fin 2) "#000000" in
  exists ctx',
    applyPixelation 10 ctx region = Ret ctx' /\
    forall p q c, inArea 3 3 p -> inArea 3 3 q -> 0 <= c < 4 ->
      In q (blockOf 3 3 2 (fst p) (snd p)) ->
      getPixel ctx' (2 + fst q) (1 + snd q) c = getPixel ctx' (2 + fst p) (1 + snd p) c.
Proof.
  apply (pixelation_makes_blocks_uniform (gradientContext 5 4)
           (mkRegion "r" (Fin (3 # 2)) (Fin 1) (Fin 3) (Fin 7) pixelate (Fin 2) "#000000")
           2 1 3 3 2 10%nat).
  - apply wfContextb_wf. vm_compute. reflexivity.
  - vm_compute. reflexivity.
  - lia.
  - lia.
  - reflexivity.
  - lia.
  - simpl. lia.
Defined.

(** X12.  For a region whose clamp to the canvas is a rectangle of whole
    numbers that is not empty and whose block size is a whole number of at
    least 1, with enough fuel, pixelation is idempotent: applying the same
    region again to the canvas it has produced returns and changes no
    pixel.  (With a fractional block size a second pass can change
    pixels.) *)
Theorem pixelation_is_idempotent ctx region cx cy cw ch bs fuel :
  wfContext ctx ->
  clampToCanvas ctx region = (ofZ cx, ofZ cy, ofZ cw, ofZ ch) ->
  0 < cw -> 0 < ch ->
  blockSize region = ofZ bs -> 1 <= bs ->
  (S (Z.to_nat (Z.max cw ch)) <= fuel)%nat ->
  exists ctx' ctx'',
    applyPixelation fuel ctx region = Ret ctx' /\
    applyPixelation fuel ctx' region = Ret ctx'' /\
    forall X Y c, 0 <= c < 4 -> getPixel ctx'' X Y c = getPixel ctx' X Y c.
Proof.
  intros Hwf Hclamp Hcw Hch Hbsz Hbs Hfuel.
  destruct (applyPixelation_returns_wf ctx region cx cy cw ch bs
              Hwf Hclamp Hcw Hch Hbsz Hbs fuel Hfuel)
    as (ctx' & Hret & Hwf1 & HW & HH & _ & Hmean & _).
  assert (Hclamp' : clampToCanvas ctx' region = (ofZ cx, ofZ cy, ofZ cw, ofZ ch)).
  { unfold clampToCanvas in *. now rewrite HW, HH. }
  destruct (applyPixelation_returns ctx' region cx cy cw ch bs
              Hwf1 Hclamp' Hcw Hch Hbsz Hbs fuel Hfuel)
    as (ctx2 & Hret2 & _ & _ & _ & _ & Hmean2 & Hout2).
  exists ctx', ctx2. split; [exact Hret|]. split; [exact Hret2|].
  intros X Y c Hc.
  destruct (Z_le_dec cx X), (Z_lt_dec X (cx + cw)), (Z_le_dec cy Y), (Z_lt_dec Y (cy + ch));
    try (apply Hout2; [assumption|lia]).
  replace X with (cx + (X - cx)) by lia. replace Y with (cy + (Y - cy)) by lia.
  set (px := X - cx). set (py := Y - cy).
  assert (Hpx : 0 <= px < cw) by (unfold px; lia).
  assert (Hpy : 0 <= py < ch) by (unfold py; lia).
  rewrite Hmean2 by assumption.
  apply roundedMean_const.
  - intros E. apply map_eq_nil in E. revert E. now apply blockOf_nonempty.
  - apply List.Forall_forall. intros v Hv. apply in_map_iff in Hv as (q & <- & Hq).
    pose proof (blockOf_inArea cw ch bs (px, py) Hbs (conj Hpx Hpy)) as Hall.
    pose proof (proj1 (List.Forall_forall _ _) Hall q Hq) as [Hqx Hqy].
    rewrite !Hmean by assumption.
    apply (blockOf_partition cw ch bs (px, py) q Hbs) in Hq;
      [|now split|now split].
    cbn [fst snd] in Hq. now rewrite Hq.
Qed.

Lemma pixelation_is_idempotent_witness :
  let ctx := gradientContext 5 4 in
  let region := mkRegion "r" (Fin (3 # 2)) (Fin 1) (Fin 3) (Fin 7) pixelate (Fin 2) "#000000" in
  exists ctx' ctx'',
    applyPixelation 10 ctx region = Ret ctx' /\
    applyPixelation 10 ctx' region = Ret ctx'' /\
    forall X Y c, 0 <= c < 4 -> getPixel ctx'' X Y c = getPixel ctx' X Y c.
Proof.
  apply (pixelation_is_idempotent (gradientContext 5 4)
           (mkRegion "r" (Fin (3 # 2)) (Fin 1) (Fin 3) (Fin 7) pixelate (Fin 2) "#000000")
           2 1 3 3 2 10%nat).
  - apply wfContextb_wf. vm_compute. reflexivity.
  - vm_compute. reflexivity.
  - lia.
  - lia.
  - reflexivity.
  - lia.
  - simpl. lia.
Defined.

(** A block size of 1.5, run twice: the second pass changes the green
    channel of the pixel at (0, 0). *)
Example fractional_blockSize_is_not_idempotent :
  let region := mkRegion "r" (Fin 0) (Fin 0) (Fin 5) (Fin 4) pixelate (Fin (3 # 2)) "#000000" in
  exists ctx' ctx'',
    applyPixelation 20 (gradientContext 5 4) region = Ret ctx' /\
    applyPixelation 20 ctx' region = Ret ctx'' /\
    getPixel ctx' 0 0 1 = 3 /\ getPixel ctx'' 0 0 1 = 4.
Proof. eexists _, _. split; [vm_compute; reflexivity|]. vm_compute. repeat split. Qed.

(* ===================================================================== *)
(** * Regions that change nothing                                         *)
(* ===================================================================== *)

(** X13.  A pixelate region whose width or height is [NaN] is never
    pixelated: [applyPixelation] throws ([getImageData] refuses a zero
    width) or returns the canvas as it is, whatever the fuel and the block
    size. *)
Theorem applyPixelation_NaN_size_never_pixelates fuel ctx region :
  width region = NaN \/ height region = NaN ->
  applyPixelation fuel ctx region = Throw \/ applyPixelation fuel ctx region = Ret ctx.
Proof.
  intros H. unfold applyPixelation, clampToCanvas.
  set (cx := Math_max (Fin 0) (Math_round (x region))).
  set (cy := Math_max (Fin 0) (Math_round (y region))).
  set (cw := Math_min (Math_round (width region)) (ofZ (canvasWidth ctx) - cx)%js).
  set (ch := Math_min (Math_round (height region)) (ofZ (canvasHeight ctx) - cy)%js).
  destruct ((cw <=? Fin 0)%js || (ch <=? Fin 0)%js) eqn:E; [now right|left].
  assert (Hn : cw = NaN \/ ch = NaN).
  { destruct H as [H|H]; [left; unfold cw|right; unfold ch]; now rewrite H. }
  assert (Hz : (ToInt32 cw =? 0) || (ToInt32 ch =? 0) = true).
  { destruct Hn as [-> | ->]; cbn [ToInt32 Z.eqb orb]; [reflexivity|apply orb_true_r]. }
  unfold getImageData. now rewrite Hz.
Qed.

Lemma applyPixelation_NaN_size_never_pixelates_witness :
  let ctx := gradientContext 5 4 in
  let region := mkRegion "r" (Fin 1) (Fin 1) NaN (Fin 3) pixelate (Fin 2) "#000000" in
  applyPixelation 10 ctx region = Throw \/ applyPixelation 10 ctx region = Ret ctx.
Proof.
  apply (applyPixelation_NaN_size_never_pixelates 10%nat (gradientContext 5 4)
           (mkRegion "r" (Fin 1) (Fin 1) NaN (Fin 3) pixelate (Fin 2) "#000000")).
  left. reflexivity.
Defined.

Lemma Math_min_le_r (a : number) (b : Q) :
  a <> NaN -> (b <= 0)%Q -> (Math_min a (Fin b) <=? Fin 0)%js = true.
Proof.
  intros Ha Hb. destruct a as [q| | |]; [| | |congruence].
  - unfold Math_min, lt. destruct (Qltb b q) eqn:E; unfold le;
      apply Qle_bool_iff; Qtests; lra.
  - unfold Math_min, lt, le. now apply Qle_bool_iff.
  - reflexivity.
Qed.

(** X14.  A pixelate region with a finite corner that lies at or beyond
    the right edge of the canvas, or at or below its bottom edge, and with a
    width and a height that are not [NaN], leaves the canvas as it is:
    [applyPixelation] returns at once, whatever the fuel and the block
    size.  (With a [NaN] width or height the call may throw instead.) *)
Theorem applyPixelation_beyond_the_canvas_changes_nothing fuel ctx region (qx qy : Q) :
  x region = Fin qx -> y region = Fin qy ->
  width region <> NaN -> height region <> NaN ->
  0 <= canvasWidth ctx -> 0 <= canvasHeight ctx ->
  (ofZ (canvasWidth ctx) <=? Math_round (x region))%js = true \/
  (ofZ (canvasHeight ctx) <=? Math_round (y region))%js = true ->
  applyPixelation fuel ctx region = Ret ctx.
Proof.
  intros Hx Hy Hw Hh HW HH Hout. unfold applyPixelation, clampToCanvas.
  rewrite Hx, Hy in *. cbn [Math_round] in *.
  change (Fin 0) with (ofZ 0). rewrite !Math_max_ofZ, !sub_ofZ.
  rewrite !le_ofZ in Hout.
  assert (Hrw : Math_round (width region) <> NaN)
    by (revert Hw; destruct (width region); cbn; unfold ofZ; congruence).
  assert (Hrh : Math_round (height region) <> NaN)
    by (revert Hh; destruct (height region); cbn; unfold ofZ; congruence).
  assert (E : (Math_min (Math_round (width region))
                 (ofZ (canvasWidth ctx - Z.max 0 (Qfloor (qx + (1 # 2)))))
               <=? ofZ 0)%js
           || (Math_min (Math_round (height region))
                 (ofZ (canvasHeight ctx - Z.max 0 (Qfloor (qy + (1 # 2)))))
               <=? ofZ 0)%js = true).
  { apply orb_true_iff. destruct Hout as [Ho|Ho]; apply Z.leb_le in Ho; [left|right];
      (apply Math_min_le_r; [assumption|]);
      change 0%Q with (inject_Z 0); rewrite <- Zle_Qle; lia. }
  now rewrite E.
Qed.

Lemma applyPixelation_beyond_the_canvas_changes_nothing_witness :
  let ctx := gradientContext 5 4 in
  applyPixelation 10 ctx
    (mkRegion "r" (Fin 5) (Fin 1) (Fin 3) (Fin 3) pixelate (Fin 0) "#000000") = Ret ctx.
Proof.
  apply (applyPixelation_beyond_the_canvas_changes_nothing 10%nat (gradientContext 5 4)
           (mkRegion "r" (Fin 5) (Fin 1) (Fin 3) (Fin 3) pixelate (Fin 0) "#000000") 5 1);
    try reflexivity; try discriminate; try (simpl; lia).
  left. reflexivity.
Defined.

(** At the right edge with a [NaN] width the call throws. *)
Example NaN_width_at_the_right_edge_throws :
  applyPixelation 10 (gradientContext 5 4)
    (mkRegion "r" (Fin 5) (Fin 1) NaN (Fin 3) pixelate (Fin 2) "#000000") = Throw.
Proof. vm_compute. reflexivity. Qed.

(* ===================================================================== *)
(** * Export and preview of whole collections                             *)
(* ===================================================================== *)

Lemma Math_round_ofZ z : Math_round (ofZ z) = ofZ z.
Proof.
  unfold Math_round, ofZ. f_equal. f_equal.
  change (1 # 2)%Q with (inject_Z 1 / inject_Z 2)%Q.
  assert (E : (inject_Z z + inject_Z 1 / inject_Z 2 ==
               inject_Z (2 * z + 1) / inject_Z 2)%Q).
  { rewrite inject_Z_plus, inject_Z_mult. field. }
  rewrite (Qfloor_comp _ _ E), <- Zdiv_Qdiv.
  symmetry. apply (Z.div_unique_pos _ 2 _ 1); lia.
Qed.

Lemma Math_abs_ofZ z : 0 <= z -> Math_abs (ofZ z) = ofZ z.
Proof.
  intros H. unfold Math_abs, ofZ. f_equal. apply Qabs_nonneg_eq.
  change 0%Q with (inject_Z 0). rewrite <- Zle_Qle. lia.
Qed.

Lemma channel_byte c col : byteColour col -> 0 <= channel c col <= 255.
Proof.
  intros (Hr & Hg & Hb & Ha). unfold channel.
  destruct (c =? 0), (c =? 1), (c =? 2); assumption.
Qed.

Lemma pixelColor_byte (bm : list Z) k :
  Forall (fun v => 0 <= v <= 255) bm -> byteColour (pixelColor bm k).
Proof.
  intros Hb.
  assert (H : forall n, 0 <= default 0 (bm !! n) <= 255).
  { intros n. destruct (bm !! n) as [v|] eqn:E; simpl; [|lia].
    exact (Forall_lookup_1 (fun v => 0 <= v <= 255) bm n v Hb E). }
  unfold pixelColor, byteColour. cbn [red green blue alpha]. repeat split; apply H.
Qed.

Section Collections.

Variable parseColor : string -> option Color.
Variable sourceOver : Color -> Color -> Color.

(** Compositing an opaque colour onto a pixel leaves that colour. *)
Hypothesis sourceOver_opaque :
  forall source pixel, alpha source = 255 -> sourceOver source pixel = source.

(** The colours the browser parses and composes are made of bytes. *)
Hypothesis parseColor_bytes :
  forall s col, parseColor s = Some col -> byteColour col.
Hypothesis sourceOver_bytes :
  forall source pixel, byteColour source -> byteColour pixel ->
    byteColour (sourceOver source pixel).

Lemma setFillStyle_same ctx s :
  canvasWidth (setFillStyle parseColor ctx s) = canvasWidth ctx /\
  canvasHeight (setFillStyle parseColor ctx s) = canvasHeight ctx /\
  bitmap (setFillStyle parseColor ctx s) = bitmap ctx.
Proof. unfold setFillStyle. now destruct (parseColor s). Qed.

Lemma getPixel_same ctx1 ctx2 X Y c :
  canvasWidth ctx1 = canvasWidth ctx2 -> canvasHeight ctx1 = canvasHeight ctx2 ->
  bitmap ctx1 = bitmap ctx2 ->
  getPixel ctx1 X Y c = getPixel ctx2 X Y c.
Proof. intros HW HH Hb. unfold getPixel. now rewrite HW, HH, Hb. Qed.

(** [applySolidMask] with a rounded rectangle of whole numbers and an
    opaque fill. *)
Lemma applySolidMask_pixels ctx r bx by_ bw bh :
  0 <= canvasWidth ctx -> 0 <= canvasHeight ctx ->
  Z.of_nat (length (bitmap ctx)) = 4 * canvasWidth ctx * canvasHeight ctx ->
  Math_round (x r) = ofZ bx -> Math_round (y r) = ofZ by_ ->
  Math_round (width r) = ofZ bw -> Math_round (height r) = ofZ bh ->
  0 <= bw -> 0 <= bh ->
  alpha (fillStyle (setFillStyle parseColor ctx (fillColor r))) = 255 ->
  let ctx' := applySolidMask parseColor sourceOver ctx r in
  canvasWidth ctx' = canvasWidth ctx /\ canvasHeight ctx' = canvasHeight ctx /\
  forall X Y c, 0 <= c < 4 ->
    getPixel ctx' X Y c =
    if (0 <=? X) && (X <? canvasWidth ctx) && (0 <=? Y) && (Y <? canvasHeight ctx) &&
       ((bx <=? X) && (X <? bx + bw) && (by_ <=? Y) && (Y <? by_ + bh))
    then channel c (fillStyle (setFillStyle parseColor ctx (fillColor r)))
    else getPixel ctx X Y c.
Proof.
  intros HW HH Hlen Hx Hy Hw Hh Hbw Hbh Ha ctx'. subst ctx'.
  unfold applySolidMask. rewrite Hx, Hy, Hw, Hh.
  destruct (setFillStyle_same ctx (fillColor r)) as (EW & EH & EB).
  pose proof (fillRect_whole sourceOver sourceOver_opaque
                (setFillStyle parseColor ctx (fillColor r)) bx by_ bw bh) as F.
  rewrite EW, EH, EB in F. specialize (F HW HH Hlen Ha Hbw Hbh).
  cbv zeta in F. destruct F as (FW & FH & F).
  split; [exact FW|]. split; [exact FH|].
  intros X Y c Hc. rewrite (F X Y c Hc).
  now rewrite (getPixel_same _ ctx X Y c EW EH EB).
Qed.

(** X15.  Export of one solid region paints exactly the part of its
    rounded rectangle that lies on the image, also when the rectangle
    starts left of or above the image, and leaves every other pixel as it
    was.  The colour is the region's when it is an opaque colour; a string
    that is no colour is painted opaque black, the fill style of a fresh
    canvas. *)
Theorem export_solid_region_paints_its_rectangle
    (W H : Z) (img : list Z) (B : BlurRegion) (bx by_ bw bh : Z) (fuel : nat) :
  0 <= W -> 0 <= H -> Z.of_nat (length img) = 4 * W * H ->
  mode B = solid ->
  Math_round (x B) = ofZ bx -> Math_round (y B) = ofZ by_ ->
  Math_round (width B) = ofZ bw -> Math_round (height B) = ofZ bh ->
  0 <= bw -> 0 <= bh ->
  let fill := match parseColor (fillColor B) with
              | Some col => col
              | None => mkColor 0 0 0 255
              end in
  alpha fill = 255 ->
  exists out,
    processImage parseColor sourceOver fuel W H img [B] = Ret out /\
    forall X Y c, 0 <= c < 4 -> 0 <= X < W -> 0 <= Y < H ->
      getPixel (mkContext W H out fill) X Y c =
      if (bx <=? X) && (X <? bx + bw) && (by_ <=? Y) && (Y <? by_ + bh)
      then channel c fill
      else getPixel (mkContext W H img fill) X Y c.
Proof.
  intros HW HH Hlen Hm Hx Hy Hw Hh Hbw Hbh fill Ha.
  set (ctx := mkContext W H img (mkColor 0 0 0 255)).
  assert (Hfill : fillStyle (setFillStyle parseColor ctx (fillColor B)) = fill).
  { unfold fill, setFillStyle. now destruct (parseColor (fillColor B)). }
  pose proof (applySolidMask_pixels ctx B bx by_ bw bh HW HH Hlen Hx Hy Hw Hh Hbw Hbh) as P.
  rewrite Hfill in P. specialize (P Ha). cbv zeta in P. destruct P as (PW & PH & P).
  exists (bitmap (applySolidMask parseColor sourceOver ctx B)). split.
  - unfold processImage. fold ctx. cbn [applyRegions]. now rewrite Hm.
  - intros X Y c Hc HX HY.
    rewrite (getPixel_same _ (applySolidMask parseColor sourceOver ctx B) X Y c)
      by (cbn [canvasWidth canvasHeight bitmap]; auto).
    rewrite (P X Y c Hc). cbn [canvasWidth canvasHeight ctx].
    destruct (Z.leb_spec 0 X); [|lia]. destruct (Z.ltb_spec X W); [|lia].
    destruct (Z.leb_spec 0 Y); [|lia]. destruct (Z.ltb_spec Y H); [|lia].
    cbn [andb]. reflexivity.
Qed.

(** X16.  "Apply to full image" in solid mode with an opaque colour, on an
    image of at least 2 x 2 pixels and an empty collection: one region is
    stored as one undo step, and export then returns an image whose every
    pixel holds that colour. *)
Theorem apply_full_image_solid_hides_the_image
    (W H : Z) (img : list Z) (newId : string) (bs : number) (c : string) (col : Color) :
  2 <= W -> 2 <= H -> Z.of_nat (length img) = 4 * W * H ->
  parseColor c = Some col -> alpha col = 255 ->
  let st := ImageEditor.handleApplyFullImage initialStore newId (Some (W, H)) solid bs c in
  length (regions st) = 1%nat /\ undoStack st = [[]] /\
  forall fuel : nat, exists out,
    processImage parseColor sourceOver fuel W H img (regions st) = Ret out /\
    forall X Y ch, 0 <= ch < 4 -> 0 <= X < W -> 0 <= Y < H ->
      getPixel (mkContext W H out col) X Y ch = channel ch col.
Proof.
  intros HW HH Hlen Hp Ha st. subst st. unfold ImageEditor.handleApplyFullImage.
  assert (Ew : (Math_abs (ofZ W) <? Fin 2)%js = false).
  { rewrite Math_abs_ofZ by lia. change (Fin 2) with (ofZ 2). rewrite lt_ofZ.
    apply Z.ltb_ge. lia. }
  assert (Eh : (Math_abs (ofZ H) <? Fin 2)%js = false).
  { rewrite Math_abs_ofZ by lia. change (Fin 2) with (ofZ 2). rewrite lt_ofZ.
    apply Z.ltb_ge. lia. }
  rewrite (addRegion_accepted _ _ _ _ _ _ _ _ _ Ew Eh).
  cbn [fst regions undoStack initialStore app length].
  split; [reflexivity|]. split; [reflexivity|]. intros fuel.
  change (Fin 0) with (ofZ 0). rewrite !lt_ofZ.
  destruct (Z.ltb_spec W 0); [lia|]. destruct (Z.ltb_spec H 0); [lia|].
  rewrite !Math_abs_ofZ by lia.
  set (B := mkRegion newId (ofZ 0) (ofZ 0) (ofZ W) (ofZ H) solid bs c).
  set (ctx := mkContext W H img (mkColor 0 0 0 255)).
  assert (Hfill : fillStyle (setFillStyle parseColor ctx (fillColor B)) = col).
  { unfold setFillStyle. cbn [fillColor B]. now rewrite Hp. }
  pose proof (applySolidMask_pixels ctx B 0 0 W H) as P.
  rewrite Hfill in P.
  specialize (P ltac:(cbn; lia) ltac:(cbn; lia) Hlen
                (Math_round_ofZ 0) (Math_round_ofZ 0) (Math_round_ofZ W) (Math_round_ofZ H)
                ltac:(lia) ltac:(lia) Ha).
  cbv zeta in P. destruct P as (PW & PH & P).
  exists (bitmap (applySolidMask parseColor sourceOver ctx B)). split.
  - unfold processImage. fold ctx. reflexivity.
  - intros X Y ch Hch HX HY.
    rewrite (getPixel_same _ (applySolidMask parseColor sourceOver ctx B) X Y ch)
      by (cbn [canvasWidth canvasHeight bitmap]; auto).
    rewrite (P X Y ch Hch). cbn [canvasWidth canvasHeight ctx].
    destruct (Z.leb_spec 0 X); [|lia]. destruct (Z.ltb_spec X W); [|lia].
    destruct (Z.leb_spec 0 Y); [|lia]. destruct (Z.ltb_spec Y H); [|lia].
    destruct (Z.ltb_spec X (0 + W)); [|lia]. destruct (Z.ltb_spec Y (0 + H)); [|lia].
    reflexivity.
Qed.

(** [fillRect] keeps the canvas well formed. *)
Lemma fillRect_wf ctx (a b c d : number) :
  wfContext ctx -> byteColour (fillStyle ctx) ->
  wfContext (fillRect sourceOver ctx a b c d) /\
  fillStyle (fillRect sourceOver ctx a b c d) = fillStyle ctx /\
  canvasWidth (fillRect sourceOver ctx a b c d) = canvasWidth ctx /\
  canvasHeight (fillRect sourceOver ctx a b c d) = canvasHeight ctx.
Proof.
  intros Hwf Hf. pose proof Hwf as (HW & HH & Hlen & Hb).
  unfold fillRect.
  destruct a as [qx| | |], b as [qy| | |], c as [qw| | |], d as [qh| | |];
    try (split; [exact Hwf|now repeat split]).
  destruct (if Qfloor qw <? 0 then _ else _) as [x0 w0].
  destruct (if Qfloor qh <? 0 then _ else _) as [y0 h0].
  split; [|now repeat split].
  split; [exact HW|]. split; [exact HH|].
  cbn [canvasWidth canvasHeight bitmap].
  split; [rewrite mapi_length; exact Hlen|].
  apply Forall_lookup_2. intros n v Hv.
  rewrite mapi_lookup in Hv.
  destruct (bitmap ctx !! n) as [v0|] eqn:E0; [|discriminate].
  cbn [fmap option_fmap option_map] in Hv. injection Hv as <-.
  match goal with
  | |- context [if ?t then _ else _] => destruct t
  end.
  - apply channel_byte, sourceOver_bytes; [assumption|now apply pixelColor_byte].
  - exact (Forall_lookup_1 (fun v => 0 <= v <= 255) _ n v0 Hb E0).
Qed.

(** [applySolidMask] keeps the canvas well formed. *)
Lemma applySolidMask_wf ctx r :
  wfContext ctx -> byteColour (fillStyle ctx) ->
  let ctx' := applySolidMask parseColor sourceOver ctx r in
  wfContext ctx' /\ byteColour (fillStyle ctx') /\
  canvasWidth ctx' = canvasWidth ctx /\ canvasHeight ctx' = canvasHeight ctx.
Proof.
  intros Hwf Hf ctx'. subst ctx'. unfold applySolidMask.
  set (ctx1 := setFillStyle parseColor ctx (fillColor r)).
  destruct (setFillStyle_same ctx (fillColor r)) as (EW & EH & EB). fold ctx1 in EW, EH, EB.
  assert (Hf1 : byteColour (fillStyle ctx1)).
  { unfold ctx1, setFillStyle. destruct (parseColor (fillColor r)) as [col|] eqn:E;
      [exact (parseColor_bytes _ _ E)|exact Hf]. }
  assert (Hwf1 : wfContext ctx1).
  { unfold wfContext. now rewrite EW, EH, EB. }
  destruct (fillRect_wf ctx1 (Math_round (x r)) (Math_round (y r))
              (Math_round (width r)) (Math_round (height r)) Hwf1 Hf1)
    as (Hwf2 & EF & EW2 & EH2).
  split; [exact Hwf2|]. split; [now rewrite EF|]. split; congruence.
Qed.

(** [applyPixelation] with finite geometry and a whole block size of at
    least 1 returns, on every well-formed canvas. *)
Lemma applyPixelation_total ctx r bs (fuel : nat) :
  wfContext ctx -> finiteGeometry r = true ->
  blockSize r = ofZ bs -> 1 <= bs ->
  (S (Z.to_nat (Z.max (canvasWidth ctx) (canvasHeight ctx))) <= fuel)%nat ->
  exists ctx',
    applyPixelation fuel ctx r = Ret ctx' /\ wfContext ctx' /\
    fillStyle ctx' = fillStyle ctx /\
    canvasWidth ctx' = canvasWidth ctx /\ canvasHeight ctx' = canvasHeight ctx.
Proof.
  intros Hwf Hfin Hbsz Hbs Hfuel.
  destruct (clampToCanvas_finite ctx r Hfin) as (cx & cy & cw & ch & Hclamp).
  destruct (clampToCanvas_whole _ _ _ _ _ _ Hclamp) as (Hcx & Hcy & HW & HH).
  destruct (Z_lt_dec 0 cw) as [Hcw|Hcw]; [destruct (Z_lt_dec 0 ch) as [Hch|Hch]|].
  - destruct (applyPixelation_returns_wf ctx r cx cy cw ch bs
                Hwf Hclamp Hcw Hch Hbsz Hbs fuel ltac:(lia))
      as (ctx' & Hret & Hwf' & EW & EH & EF & _).
    exists ctx'. split; [exact Hret|]. split; [exact Hwf'|]. now repeat split.
  - exists ctx. split; [|split; [exact Hwf|now repeat split]].
    unfold applyPixelation. rewrite Hclamp. cbv beta iota.
    change (Fin 0) with (ofZ 0). rewrite !le_ofZ.
    destruct (Z.leb_spec ch 0); [|lia]. now rewrite orb_true_r.
  - exists ctx. split; [|split; [exact Hwf|now repeat split]].
    unfold applyPixelation. rewrite Hclamp. cbv beta iota.
    change (Fin 0) with (ofZ 0). rewrite !le_ofZ.
    destruct (Z.leb_spec cw 0); [|lia]. reflexivity.
Qed.

Lemma applyRegions_total (fuel : nat) (regions : list BlurRegion) : forall ctx,
  wfContext ctx -> byteColour (fillStyle ctx) ->
  Forall exportable regions ->
  (S (Z.to_nat (Z.max (canvasWidth ctx) (canvasHeight ctx))) <= fuel)%nat ->
  exists ctx',
    applyRegions parseColor sourceOver fuel ctx regions = Ret ctx' /\ wfContext ctx' /\
    canvasWidth ctx' = canvasWidth ctx /\ canvasHeight ctx' = canvasHeight ctx.
Proof.
  induction regions as [|r rest IH]; intros ctx Hwf Hf Hall Hfuel.
  - exists ctx. split; [reflexivity|]. split; [exact Hwf|]. now split.
  - apply Forall_cons in Hall as [Hr Hall]. cbn [applyRegions].
    destruct (mode r) eqn:Em.
    + destruct Hr as [Hr|(Hfin & bs & Hbsz & Hbs)]; [congruence|].
      destruct (applyPixelation_total ctx r bs fuel Hwf Hfin Hbsz Hbs Hfuel)
        as (ctx1 & Hret & Hwf1 & EF & EW & EH).
      rewrite Hret.
      destruct (IH ctx1 Hwf1 ltac:(now rewrite EF) Hall ltac:(rewrite EW, EH; exact Hfuel))
        as (ctx' & Hret' & Hwf' & EW' & EH').
      exists ctx'. split; [exact Hret'|]. split; [exact Hwf'|]. split; congruence.
    + destruct (applySolidMask_wf ctx r Hwf Hf) as (Hwf1 & Hf1 & EW & EH).
      destruct (IH _ Hwf1 Hf1 Hall ltac:(rewrite EW, EH; exact Hfuel))
        as (ctx' & Hret' & Hwf' & EW' & EH').
      exists ctx'. split; [exact Hret'|]. split; [exact Hwf'|]. split; congruence.
Qed.

(** X17.  Export returns for every collection the editor's controls can
    produce: on a well-formed image, with pixelate regions of finite
    geometry and a whole block size of at least 1 (solid regions need
    nothing), [processImage] neither throws nor loops, whatever the number,
    order and position of the regions, and it gives back an image of the
    same size made of bytes. *)
Theorem export_returns_for_editor_regions
    (W H : Z) (img : list Z) (regions : list BlurRegion) (fuel : nat) :
  wfContext (mkContext W H img (mkColor 0 0 0 255)) ->
  Forall exportable regions ->
  (S (Z.to_nat (Z.max W H)) <= fuel)%nat ->
  exists out,
    processImage parseColor sourceOver fuel W H img regions = Ret out /\
    length out = length img /\
    Forall (fun v => 0 <= v <= 255) out.
Proof.
  intros Hwf Hall Hfuel.
  destruct (applyRegions_total fuel regions _ Hwf ltac:(cbn; unfold byteColour; cbn; lia)
              Hall Hfuel) as (ctx' & Hret & Hwf' & EW & EH).
  exists (bitmap ctx'). unfold processImage. rewrite Hret. split; [reflexivity|].
  destruct Hwf as (_ & _ & Hlen & _), Hwf' as (_ & _ & Hlen' & Hb').
  cbn [canvasWidth canvasHeight bitmap] in *. split; [|exact Hb'].
  apply Nat2Z.inj. rewrite Hlen', Hlen, EW, EH. reflexivity.
Qed.

Lemma scaledRegion_exportable r (a b : Q) :
  ~ (a == 0)%Q -> ~ (b == 0)%Q -> previewable r ->
  exportable (scaledRegion r (Fin a) (Fin b)) /\
  mode (scaledRegion r (Fin a) (Fin b)) = mode r.
Proof.
  intros Ha Hb Hr. split; [|reflexivity].
  destruct Hr as [Hr|(Hfin & Hbs)]; [now left|right].
  unfold finiteGeometry in Hfin.
  apply andb_true_iff in Hfin as [Hfin H4]. apply andb_true_iff in Hfin as [Hfin H3].
  apply andb_true_iff in Hfin as [H1 H2].
  apply isFinite_Fin in H1 as [qx Hx], H2 as [qy Hy], H3 as [qw Hw], H4 as [qh Hh],
    Hbs as [qb Hqb].
  unfold scaledRegion, finiteGeometry. cbn [x y width height blockSize].
  rewrite Hx, Hy, Hw, Hh, Hqb. unfold div.
  rewrite !(Qeq_bool_nonzero a), !(Qeq_bool_nonzero b) by assumption.
  split; [reflexivity|].
  cbn [Math_round]. change (Fin 1) with (ofZ 1). rewrite Math_max_ofZ.
  eexists. split; [reflexivity|lia].
Qed.

Lemma previewRegions_total (fuel : nat) (a b : Q) (regions : list BlurRegion) : forall ctx,
  ~ (a == 0)%Q -> ~ (b == 0)%Q ->
  wfContext ctx -> byteColour (fillStyle ctx) ->
  Forall previewable regions ->
  (S (Z.to_nat (Z.max (canvasWidth ctx) (canvasHeight ctx))) <= fuel)%nat ->
  exists ctx',
    previewRegions parseColor sourceOver fuel ctx regions (Fin a) (Fin b) = Ret ctx' /\
    wfContext ctx' /\
    canvasWidth ctx' = canvasWidth ctx /\ canvasHeight ctx' = canvasHeight ctx.
Proof.
  induction regions as [|r rest IH]; intros ctx Ha Hb Hwf Hf Hall Hfuel.
  - exists ctx. split; [reflexivity|]. split; [exact Hwf|]. now split.
  - apply Forall_cons in Hall as [Hr Hall]. cbn [previewRegions].
    destruct (scaledRegion_exportable r a b Ha Hb Hr) as [He _].
    destruct (mode r) eqn:Em.
    + destruct He as [He|(Hfin & bs & Hbsz & Hbs)];
        [cbn [scaledRegion mode] in He; congruence|].
      destruct (applyPixelation_total ctx _ bs fuel Hwf Hfin Hbsz Hbs Hfuel)
        as (ctx1 & Hret & Hwf1 & EF & EW & EH).
      rewrite Hret.
      destruct (IH ctx1 Ha Hb Hwf1 ltac:(now rewrite EF) Hall
                  ltac:(rewrite EW, EH; exact Hfuel))
        as (ctx' & Hret' & Hwf' & EW' & EH').
      exists ctx'. split; [exact Hret'|]. split; [exact Hwf'|]. split; congruence.
    + destruct (applySolidMask_wf ctx (scaledRegion r (Fin a) (Fin b)) Hwf Hf)
        as (Hwf1 & Hf1 & EW & EH).
      destruct (IH _ Ha Hb Hwf1 Hf1 Hall ltac:(rewrite EW, EH; exact Hfuel))
        as (ctx' & Hret' & Hwf' & EW' & EH').
      exists ctx'. split; [exact Hret'|]. split; [exact Hwf'|]. split; congruence.
Qed.

(** X18.  For regions of finite geometry, the preview returns where
    export may not: [renderPreview] rounds the scaled block size and raises
    it to 1, so with finite, non-zero scale factors, on a well-formed
    canvas and with enough fuel, its loop over regions whose pixelate
    members have finite geometry and a finite block size returns for every
    such block size, zero and negative ones included, and leaves a
    well-formed canvas of the same size.  (A pixelate region with a [NaN]
    size makes the loop throw.) *)
Theorem preview_returns_for_any_finite_block_size
    (ctx : Context) (regions : list BlurRegion) (a b : Q) (fuel : nat) :
  ~ (a == 0)%Q -> ~ (b == 0)%Q ->
  wfContext ctx -> byteColour (fillStyle ctx) ->
  Forall previewable regions ->
  (S (Z.to_nat (Z.max (canvasWidth ctx) (canvasHeight ctx))) <= fuel)%nat ->
  (forall r, In r regions -> isFinite (blockSize r) = true ->
     exists bs, blockSize (scaledRegion r (Fin a) (Fin b)) = ofZ bs /\ 1 <= bs) /\
  exists ctx',
    previewRegions parseColor sourceOver fuel ctx regions (Fin a) (Fin b) = Ret ctx' /\
    wfContext ctx' /\
    canvasWidth ctx' = canvasWidth ctx /\ canvasHeight ctx' = canvasHeight ctx.
Proof.
  intros Ha Hb Hwf Hf Hall Hfuel. split.
  - intros r _ Hbs. apply isFinite_Fin in Hbs as [qb Hqb].
    unfold scaledRegion. cbn [blockSize]. rewrite Hqb. unfold div.
    rewrite (Qeq_bool_nonzero a) by assumption.
    cbn [Math_round]. change (Fin 1) with (ofZ 1). rewrite Math_max_ofZ.
    eexists. split; [reflexivity|lia].
  - now apply previewRegions_total.
Qed.

End Collections.

Lemma twoColours_bytes s col : twoColours s = Some col -> byteColour col.
Proof.
  unfold twoColours. destruct (String.eqb s "#ff0000"); [|destruct (String.eqb s "#000000")];
    intros E; inversion E; unfold byteColour; cbn; lia.
Qed.

Lemma opaqueReplaces_bytes source pixel :
  byteColour source -> byteColour pixel -> byteColour (opaqueReplaces source pixel).
Proof. intros Hs Hp. unfold opaqueReplaces. now destruct (alpha source =? 255). Qed.

Lemma export_solid_region_paints_its_rectangle_witness :
  let B := mkRegion "b" (Fin (-2)) (Fin 1) (Fin 4) (Fin 2) solid (Fin 10) "red" in
  let fill := mkColor 0 0 0 255 in
  exists out,
    processImage twoColours opaqueReplaces 1 5 4 (gradient 5 4) [B] = Ret out /\
    forall X Y c, 0 <= c < 4 -> 0 <= X < 5 -> 0 <= Y < 4 ->
      getPixel (mkContext 5 4 out fill) X Y c =
      if (-2 <=? X) && (X <? -2 + 4) && (1 <=? Y) && (Y <? 1 + 2)
      then channel c fill
      else getPixel (mkContext 5 4 (gradient 5 4) fill) X Y c.
Proof.
  apply (export_solid_region_paints_its_rectangle twoColours opaqueReplaces
           opaqueReplaces_opaque 5 4 (gradient 5 4)
           (mkRegion "b" (Fin (-2)) (Fin 1) (Fin 4) (Fin 2) solid (Fin 10) "red")
           (-2) 1 4 2 1%nat);
    try reflexivity; lia.
Defined.

Lemma apply_full_image_solid_hides_the_image_witness :
  let st := ImageEditor.handleApplyFullImage initialStore "r" (Some (5, 4)) solid
              (Fin 10) "#ff0000" in
  length (regions st) = 1%nat /\ undoStack st = [[]] /\
  forall fuel : nat, exists out,
    processImage twoColours opaqueReplaces fuel 5 4 (gradient 5 4) (regions st) = Ret out /\
    forall X Y ch, 0 <= ch < 4 -> 0 <= X < 5 -> 0 <= Y < 4 ->
      getPixel (mkContext 5 4 out (mkColor 255 0 0 255)) X Y ch =
      channel ch (mkColor 255 0 0 255).
Proof.
  apply (apply_full_image_solid_hides_the_image twoColours opaqueReplaces
           opaqueReplaces_opaque 5 4 (gradient 5 4) "r" (Fin 10) "#ff0000"
           (mkColor 255 0 0 255));
    try reflexivity; lia.
Defined.

Lemma export_returns_for_editor_regions_witness :
  let regions :=
    [mkRegion "a" (Fin (3 # 2)) (Fin 1) (Fin 3) (Fin 7) pixelate (Fin 2) "#000000";
     mkRegion "b" (Fin (-2)) (Fin 1) (Fin 4) (Fin 2) solid NaN "red";
     mkRegion "c" (Fin 9) (Fin 9) (Fin 4) (Fin 4) pixelate (Fin 50) "#ff0000"] in
  exists out,
    processImage twoColours opaqueReplaces 10 5 4 (gradient 5 4) regions = Ret out /\
    length out = length (gradient 5 4) /\
    Forall (fun v => 0 <= v <= 255) out.
Proof.
  apply (export_returns_for_editor_regions twoColours opaqueReplaces
           twoColours_bytes opaqueReplaces_bytes 5 4 (gradient 5 4)
           [mkRegion "a" (Fin (3 # 2)) (Fin 1) (Fin 3) (Fin 7) pixelate (Fin 2) "#000000";
            mkRegion "b" (Fin (-2)) (Fin 1) (Fin 4) (Fin 2) solid NaN "red";
            mkRegion "c" (Fin 9) (Fin 9) (Fin 4) (Fin 4) pixelate (Fin 50) "#ff0000"]
           10%nat).
  - apply wfContextb_wf. vm_compute. reflexivity.
  - constructor; [|constructor; [|constructor; [|constructor]]].
    + right. split; [reflexivity|]. exists 2. split; [reflexivity|lia].
    + left. reflexivity.
    + right. split; [reflexivity|]. exists 50. split; [reflexivity|lia].
  - simpl. lia.
Defined.

Lemma preview_returns_for_any_finite_block_size_witness :
  let regions :=
    [mkRegion "a" (Fin 3) (Fin 2) (Fin 6) (Fin 14) pixelate (Fin 0) "#000000";
     mkRegion "b" (Fin (-2)) (Fin 1) (Fin 4) (Fin 2) solid NaN "red";
     mkRegion "c" (Fin 1) (Fin 1) (Fin 4) (Fin 4) pixelate (Fin (-3)) "#ff0000"] in
  let ctx := gradientContext 5 4 in
  (forall r, In r regions -> isFinite (blockSize r) = true ->
     exists bs, blockSize (scaledRegion r (Fin 2) (Fin 2)) = ofZ bs /\ 1 <= bs) /\
  exists ctx',
    previewRegions twoColours opaqueReplaces 10 ctx regions (Fin 2) (Fin 2) = Ret ctx' /\
    wfContext ctx' /\
    canvasWidth ctx' = canvasWidth ctx /\ canvasHeight ctx' = canvasHeight ctx.
Proof.
  apply (preview_returns_for_any_finite_block_size twoColours opaqueReplaces
           twoColours_bytes opaqueReplaces_bytes (gradientContext 5 4)
           [mkRegion "a" (Fin 3) (Fin 2) (Fin 6) (Fin 14) pixelate (Fin 0) "#000000";
            mkRegion "b" (Fin (-2)) (Fin 1) (Fin 4) (Fin 2) solid NaN "red";
            mkRegion "c" (Fin 1) (Fin 1) (Fin 4) (Fin 4) pixelate (Fin (-3)) "#ff0000"]
           2 2 10%nat).
  - unfold Qeq. simpl. lia.
  - unfold Qeq. simpl. lia.
  - apply wfContextb_wf. vm_compute. reflexivity.
  - unfold byteColour. simpl. lia.
  - constructor; [|constructor; [|constructor; [|constructor]]].
    + right. split; reflexivity.
    + left. reflexivity.
    + right. split; reflexivity.
  - simpl. lia.
Defined.

(** The preview of a pixelate region with a [NaN] size throws. *)
Example preview_of_a_NaN_size_throws :
  previewRegions twoColours opaqueReplaces 10 (gradientContext 5 4)
    [mkRegion "r" (Fin 1) (Fin 1) NaN NaN pixelate (Fin 2) "#000000"] (Fin 2) (Fin 2) = Throw.
Proof. vm_compute. reflexivity. Qed.

Import Ascii.

(* ===================================================================== *)
(** * Data URLs                                                           *)
(* ===================================================================== *)

Lemma indexOf_range c s : -1 <= ImageLoader.indexOf c s.
Proof.
  induction s as [|a s IH]; cbn [ImageLoader.indexOf]; [lia|].
  destruct (Ascii.eqb a c); [lia|].
  destruct (Z.ltb_spec (ImageLoader.indexOf c s) 0); lia.
Qed.

(** The first occurrence of [c] after a prefix that has none. *)
Lemma indexOf_app c s1 s2 :
  ImageLoader.indexOf c s1 = -1 ->
  ImageLoader.indexOf c (s1 ++ String c s2) = Z.of_nat (String.length s1).
Proof.
  induction s1 as [|a s1 IH]; cbn [ImageLoader.indexOf String.append String.length].
  - intros _. now rewrite Ascii.eqb_refl.
  - destruct (Ascii.eqb a c); [discriminate|].
    destruct (Z.ltb_spec (ImageLoader.indexOf c s1) 0) as [Hlt|Hge]; [|lia].
    intros _. pose proof (indexOf_range c s1). rewrite IH by lia.
    destruct (Z.ltb_spec (Z.of_nat (String.length s1)) 0); lia.
Qed.

Lemma indexOf_absent_app c s1 s2 :
  ImageLoader.indexOf c s1 = -1 -> ImageLoader.indexOf c s2 = -1 ->
  ImageLoader.indexOf c (s1 ++ s2) = -1.
Proof.
  intros H1 H2. induction s1 as [|a s1 IH]; cbn [ImageLoader.indexOf String.append] in *;
    [assumption|].
  destruct (Ascii.eqb a c); [discriminate|].
  destruct (Z.ltb_spec (ImageLoader.indexOf c s1) 0) as [Hlt|Hge]; [|lia].
  pose proof (indexOf_range c s1). rewrite IH by lia. reflexivity.
Qed.

Lemma strip_after_prefix s1 s2 :
  ImageLoader.indexOf ","%char s1 = -1 ->
  ImageLoader.stripDataUrlPrefix (s1 ++ String ","%char s2) = s2.
Proof.
  intros H. unfold ImageLoader.stripDataUrlPrefix. rewrite (indexOf_app _ _ _ H).
  destruct (Z.leb_spec 0 (Z.of_nat (String.length s1))); [|lia].
  replace (Z.to_nat (Z.of_nat (String.length s1) + 1)) with (S (String.length s1)) by lia.
  change (S (String.length s1)) with (String.length (String ","%char s1)).
  clear. induction s1 as [|a s1 IH]; [reflexivity|].
  cbn [ImageLoader.slice String.append String.length] in *. exact IH.
Qed.

(** X19.  [stripDataUrlPrefix] undoes [base64ToDataUrl]: for a payload that
    is not a data URL already and a MIME type without a comma, wrapping the
    payload into a data URL and stripping the prefix gives the payload back,
    also when the payload itself holds commas.  The same holds for the URL
    [loadImage] builds. *)
Theorem stripDataUrlPrefix_undoes_base64ToDataUrl (base64 mimeType : string) :
  String.prefix "data:" base64 = false ->
  ImageLoader.indexOf ","%char mimeType = -1 ->
  ImageLoader.stripDataUrlPrefix (ImageLoader.base64ToDataUrl base64 mimeType) = base64 /\
  ImageLoader.stripDataUrlPrefix (ImageLoader.imageSrc base64) = base64.
Proof.
  intros Hp Hm. unfold ImageLoader.base64ToDataUrl, ImageLoader.imageSrc. rewrite Hp.
  split.
  - change ("data:" ++ mimeType ++ ";base64," ++ base64)%string
      with ("data:" ++ (mimeType ++ (";base64" ++ String ","%char base64)))%string.
    replace ("data:" ++ (mimeType ++ (";base64" ++ String ","%char base64)))%string
      with (("data:" ++ mimeType ++ ";base64") ++ String ","%char base64)%string.
    + apply strip_after_prefix.
      apply (indexOf_absent_app _ "data:"); [reflexivity|].
      apply indexOf_absent_app; [assumption|reflexivity].
    + cbn [String.append]. do 5 f_equal.
      induction mimeType as [|a m IH]; [reflexivity|].
      cbn [String.append] in *. rewrite IH; [reflexivity|].
      cbn [ImageLoader.indexOf] in Hm. destruct (Ascii.eqb a ","%char); [discriminate|].
      destruct (Z.ltb_spec (ImageLoader.indexOf ","%char m) 0); [|lia].
      pose proof (indexOf_range ","%char m). lia.
  - apply (strip_after_prefix "data:image/png;base64"). reflexivity.
Qed.

Lemma stripDataUrlPrefix_undoes_base64ToDataUrl_witness :
  ImageLoader.stripDataUrlPrefix (ImageLoader.base64ToDataUrl "iVBOR,w0KGgo=" "image/jpeg")
    = "iVBOR,w0KGgo="%string /\
  ImageLoader.stripDataUrlPrefix (ImageLoader.imageSrc "iVBOR,w0KGgo=") = "iVBOR,w0KGgo="%string.
Proof.
  apply (stripDataUrlPrefix_undoes_base64ToDataUrl "iVBOR,w0KGgo=" "image/jpeg");
    reflexivity.
Defined.

(* ===================================================================== *)
(** * Orphaned media                                                      *)
(* ===================================================================== *)

Lemma filter_filter_and {A} (f g : A -> bool) (l : list A) :
  List.filter f (List.filter g l) = List.filter (fun a => g a && f a) l.
Proof.
  induction l as [|a l IH]; [reflexivity|]. cbn [List.filter].
  destruct (g a); cbn [List.filter andb]; [destruct (f a)|]; now rewrite IH.
Qed.

Lemma filter_ext_In {A} (f g : A -> bool) (l : list A) :
  (forall a, In a l -> f a = g a) -> List.filter f l = List.filter g l.
Proof.
  induction l as [|a l IH]; intros H; [reflexivity|]. cbn [List.filter].
  rewrite (H a (or_introl eq_refl)), IH; [reflexivity|].
  intros b Hb. apply H. now right.
Qed.

(** The loop of [cleanOrphanedMedia]: the archive loses the entries named
    like an unreferenced file of the list, whose names are appended to the
    result. *)
Lemma removeOrphans_spec (refs : list string) (l : list MediaCleaner.ZipEntry) :
  forall (zip : MediaCleaner.Zip) (acc : list string),
    let names := map MediaCleaner.name
                   (List.filter (fun f => negb (MediaCleaner.has refs (MediaCleaner.name f))) l) in
    MediaCleaner.removeOrphans refs l zip acc =
      (List.filter (fun f => negb (existsb (String.eqb (MediaCleaner.name f)) names)) zip,
       acc ++ names).
Proof.
  induction l as [|file rest IH]; intros zip acc; cbn [MediaCleaner.removeOrphans].
  - cbn. rewrite app_nil_r. f_equal. induction zip as [|e zip IHz]; [reflexivity|].
    cbn. now rewrite <- IHz.
  - cbn [List.filter]. destruct (negb (MediaCleaner.has refs (MediaCleaner.name file))).
    + rewrite IH. cbv zeta. cbn [map]. f_equal.
      * unfold MediaCleaner.remove. rewrite filter_filter_and.
        apply filter_ext_In. intros e _. cbn [existsb]. now rewrite negb_orb.
      * now rewrite <- app_assoc.
    + apply IH.
Qed.

Lemma name_unique (zip : MediaCleaner.Zip) (f g : MediaCleaner.ZipEntry) :
  List.NoDup (map MediaCleaner.name zip) -> In f zip -> In g zip ->
  MediaCleaner.name f = MediaCleaner.name g -> f = g.
Proof.
  induction zip as [|e zip IH]; intros Hnd Hf Hg E; [contradiction|].
  cbn [map] in Hnd. inversion Hnd as [|n ns Hn Hnd']; subst.
  destruct Hf as [->|Hf], Hg as [->|Hg]; [reflexivity| | |now apply IH].
  - contradiction Hn. rewrite E. now apply in_map.
  - contradiction Hn. rewrite <- E. now apply in_map.
Qed.

(** X20.  [cleanOrphanedMedia] removes exactly the orphans: in an archive
    whose entries have distinct names, the entries left are those that are
    not a file under [ppt/media/] missing from the set of referenced names,
    in their order and with their content; folders, files elsewhere and
    referenced media all stay.  The result lists the names of the removed
    files in archive order, and [removedCount] is their number. *)
Theorem cleanOrphanedMedia_removes_exactly_the_orphans
    (getReferencedMedia : MediaCleaner.Zip -> list string) (zip : MediaCleaner.Zip) :
  List.NoDup (map MediaCleaner.name zip) ->
  let refs := getReferencedMedia zip in
  let zip' := fst (MediaCleaner.cleanOrphanedMedia getReferencedMedia zip) in
  let res := snd (MediaCleaner.cleanOrphanedMedia getReferencedMedia zip) in
  zip' = List.filter (fun f => negb (MediaCleaner.orphan refs f)) zip /\
  MediaCleaner.orphanedFiles res =
    map MediaCleaner.name (List.filter (MediaCleaner.orphan refs) zip) /\
  MediaCleaner.removedCount res = Z.of_nat (length zip) - Z.of_nat (length zip') /\
  Forall (fun f => MediaCleaner.orphan refs f = false) zip'.
Proof.
  intros Hnd refs zip' res. subst zip' res. unfold MediaCleaner.cleanOrphanedMedia.
  fold refs. rewrite removeOrphans_spec. cbv zeta. cbn [fst snd app MediaCleaner.orphanedFiles
    MediaCleaner.removedCount].
  unfold MediaCleaner.mediaFiles. rewrite filter_filter_and.
  set (names := map MediaCleaner.name (List.filter _ zip)).
  assert (Hnames : names = map MediaCleaner.name (List.filter (MediaCleaner.orphan refs) zip)).
  { unfold names. f_equal. }
  assert (Hzip : List.filter (fun f => negb (existsb (String.eqb (MediaCleaner.name f)) names)) zip
                 = List.filter (fun f => negb (MediaCleaner.orphan refs f)) zip).
  { apply filter_ext_In. intros f Hf. f_equal. rewrite Hnames.
    destruct (MediaCleaner.orphan refs f) eqn:Eo.
    - apply existsb_exists. exists (MediaCleaner.name f). split; [|apply String.eqb_refl].
      apply in_map. apply filter_In. now split.
    - destruct (existsb _ _) eqn:Ee; [|reflexivity].
      apply existsb_exists in Ee as (n & Hn & En). apply String.eqb_eq in En. subst n.
      apply in_map_iff in Hn as (g & Eg & Hg). apply filter_In in Hg as [Hg Hog].
      rewrite (name_unique zip f g Hnd Hf Hg (eq_sym Eg)) in Eo. congruence. }
  rewrite Hzip. split; [reflexivity|]. split; [exact Hnames|]. split.
  - rewrite Hnames, length_map.
    assert (Hlen : forall l : MediaCleaner.Zip,
              (length (List.filter (MediaCleaner.orphan refs) l) +
               length (List.filter (fun f => negb (MediaCleaner.orphan refs f)) l) =
               length l)%nat).
    { induction l as [|e l IHl]; [reflexivity|]. cbn [List.filter].
      destruct (MediaCleaner.orphan refs e); cbn [negb length]; lia. }
    specialize (Hlen zip). lia.
  - apply List.Forall_forall. intros f Hf. apply filter_In in Hf as [_ Hf].
    now apply negb_true_iff.
Qed.

Lemma cleanOrphanedMedia_removes_exactly_the_orphans_witness :
  let zip :=
    [MediaCleaner.mkZipEntry "ppt/media/" true EmptyString;
     MediaCleaner.mkZipEntry "ppt/media/image1.png" false "one";
     MediaCleaner.mkZipEntry "ppt/media/image2.png" false "two";
     MediaCleaner.mkZipEntry "ppt/slides/slide1.xml" false "slide";
     MediaCleaner.mkZipEntry "ppt/media/image3.png" false "three"] in
  let getReferencedMedia := fun _ : MediaCleaner.Zip => ["ppt/media/image2.png"%string] in
  let refs := getReferencedMedia zip in
  let zip' := fst (MediaCleaner.cleanOrphanedMedia getReferencedMedia zip) in
  let res := snd (MediaCleaner.cleanOrphanedMedia getReferencedMedia zip) in
  zip' = List.filter (fun f => negb (MediaCleaner.orphan refs f)) zip /\
  MediaCleaner.orphanedFiles res =
    map MediaCleaner.name (List.filter (MediaCleaner.orphan refs) zip) /\
  MediaCleaner.removedCount res = Z.of_nat (length zip) - Z.of_nat (length zip') /\
  Forall (fun f => MediaCleaner.orphan refs f = false) zip'.
Proof.
  apply (cleanOrphanedMedia_removes_exactly_the_orphans
           (fun _ : MediaCleaner.Zip => ["ppt/media/image2.png"%string])
           [MediaCleaner.mkZipEntry "ppt/media/" true EmptyString;
            MediaCleaner.mkZipEntry "ppt/media/image1.png" false "one";
            MediaCleaner.mkZipEntry "ppt/media/image2.png" false "two";
            MediaCleaner.mkZipEntry "ppt/slides/slide1.xml" false "slide";
            MediaCleaner.mkZipEntry "ppt/media/image3.png" false "three"]).
  simpl. repeat constructor; simpl; intuition discriminate.
Defined.
